(** * scrstudio.engine.optimizers: the multi-group optimization coordinator

    A shallow embedding of [src/scrstudio/engine/optimizers.py]: the
    optimizer configuration dataclasses, the construction of [Optimizers]
    from a configuration dictionary and a parameter-group dictionary, and
    the stepping, zeroing, scheduler and checkpoint-loading methods.

    Python dictionaries whose iteration order is observable (the
    configuration, the parameter groups, [self.optimizers], a loaded
    checkpoint) are insertion-ordered association lists; the inner
    dictionary of a configuration entry, which is only ever indexed by the
    keys "optimizer" and "scheduler", is a [gmap string value].  Python
    floats are binary64 primitive floats.  Exceptions are values of [exn];
    a raised exception leaves the mutations made so far in place. *)

From Stdlib Require Import Floats.PrimFloat.
From stdpp Require Import gmap strings list fin_maps.

Set Default Proof Using "Type".
#[local] Set Warnings "-inexact-float".

(** ** Insertion-ordered dictionaries *)

Module Dict.

Definition dict (V : Type) := list (string * V).

Definition keys {V} (d : dict V) : list string := d.*1.

Fixpoint get {V} (k : string) (d : dict V) : option V :=
  match d with
  | [] => None
  | (k', v) :: d' => if decide (k' = k) then Some v else get k d'
  end.

Definition mem {V} (k : string) (d : dict V) : bool :=
  bool_decide (is_Some (get k d)).

(** [d[k] = v]: overwrite in place when the key exists, append otherwise. *)
Fixpoint set {V} (k : string) (v : V) (d : dict V) : dict V :=
  match d with
  | [] => [(k, v)]
  | (k', v') :: d' =>
      if decide (k' = k) then (k', v) :: d' else (k', v') :: set k v d'
  end.

(** Mutation of the object stored under [k]; the keys do not change. *)
Fixpoint alter {V} (f : V → V) (k : string) (d : dict V) : dict V :=
  match d with
  | [] => []
  | (k', v) :: d' =>
      if decide (k' = k) then (k', f v) :: d' else (k', v) :: alter f k d'
  end.

End Dict.

Abbreviation dict := Dict.dict.

(** ** Exceptions *)

Inductive fpart :=
| Lit (s : string)              (* literal text of an f-string *)
| FStr (s : string)             (* {s} for a str value *)
| FKeys (ks : list string)      (* {d.keys()} *)
| FFloat (x : float).           (* {x} for a float value *)

Inductive exn :=
| RuntimeError (msg : list fpart)
| KeyError (key : string)
| AttributeError (attr : string)
| TypeError (what : string)
| ValueError (msg : list fpart).

Inductive result (A : Type) :=
| Ok (a : A)
| Raise (e : exn).
Arguments Ok {A} a.
Arguments Raise {A} e.

(** ** Optimizer related configs *)

Inductive torch_optim := Adam | AdamW | RAdam.

(** The four dataclasses share the fields of [OptimizerConfig]; the
    subclasses add [weight_decay], which the base class does not have. *)
Record OptimizerConfig := {
  target : torch_optim;
  lr : float;
  eps : float;
  max_norm : option float;
  weight_decay : option float;
}.

Definition OptimizerConfig_ (lr eps : float) (max_norm : option float) :=
  {| target := Adam; lr := lr; eps := eps; max_norm := max_norm;
     weight_decay := None |}.
Definition AdamOptimizerConfig (lr eps : float) (max_norm : option float) :=
  {| target := Adam; lr := lr; eps := eps; max_norm := max_norm;
     weight_decay := Some 0%float |}.
Definition AdamWOptimizerConfig (lr eps : float) (max_norm : option float) :=
  {| target := AdamW; lr := lr; eps := eps; max_norm := max_norm;
     weight_decay := Some 1e-2%float |}.
Definition RAdamOptimizerConfig (lr eps : float) (max_norm : option float) :=
  {| target := RAdam; lr := lr; eps := eps; max_norm := max_norm;
     weight_decay := Some 0%float |}.

Definition default_lr : float := 0.0005%float.
Definition default_eps : float := 1e-08%float.


(** Modelled from the spec: the scheduler configuration class of
    [scrstudio.engine.schedulers], which is not part of the sources at hand.
    The spec gives a schedule "its own parameters (e.g. final rate, horizon
    in steps)"; the constructor call in [Optimizers.__init__] names exactly
    these two, [lr_final] and [max_steps]. *)
Inductive SchedulerConfig :=
| ExponentialDecaySchedulerConfig (lr_final : float) (max_steps : Z).

(** ** State-and-exception monad

    A computation reads and mutates a state and either returns or raises;
    the state reached when an exception is raised is kept. *)

Definition M (S A : Type) : Type := S → result A * S.

#[global] Instance M_ret {S} : MRet (M S) := λ A a s, (Ok a, s).
#[global] Instance M_bind {S} : MBind (M S) := λ A B f m s,
  match m s with
  | (Ok a, s') => f a s'
  | (Raise e, s') => (Raise e, s')
  end.

Definition raise {S A} (e : exn) : M S A := λ s, (Raise e, s).
Definition gets {S A} (f : S → A) : M S A := λ s, (Ok (f s), s).
Definition modify {S} (f : S → S) : M S unit := λ s, (Ok tt, f s).
Definition lift {S A} (r : result A) : M S A := λ s, (r, s).

(** [for x in xs: body(x)] *)
Fixpoint for_each {S A} (xs : list A) (body : A → M S unit) : M S unit :=
  match xs with
  | [] => mret tt
  | x :: xs' => body x ;; for_each xs' body
  end.

(** [d[k]] on an ordered dictionary and on an entry dictionary. *)
Definition getitem {V} (k : string) (d : dict V) : result V :=
  match Dict.get k d with
  | Some v => Ok v
  | None => Raise (KeyError k)
  end.

(** ** Values stored in a configuration entry

    The configuration is a [Dict[str, Any]]; an entry is itself a
    dictionary, read under the keys "optimizer" and "scheduler".  A value is
    [None], an optimizer config or a scheduler config. *)

Inductive value :=
| VNone
| VOptimizer (c : OptimizerConfig)
| VScheduler (c : SchedulerConfig).

Abbreviation entry := (gmap string value).

Definition entry_getitem (k : string) (e : entry) : result value :=
  match e !! k with
  | Some v => Ok v
  | None => Raise (KeyError k)
  end.

(** Truth value of [if v:]; a dataclass instance is always true. *)
Definition truthy (v : value) : bool :=
  match v with
  | VNone => false
  | VOptimizer _ | VScheduler _ => true
  end.

(** ** The torch collaborators

    Tensors live in a heap and are referred to by identity, so that a
    parameter listed in two groups is one object.  The numerical work of the
    optimizers, of gradient clipping, of the gradient scaler and of the
    learning-rate schedulers is torch's; it is an interface here.  Each
    operation receives the tensors the corresponding torch object holds
    references to, and returns their new contents. *)

Definition tid := nat.

Record Tensor := {
  data : list float;
  grad : option (list float);
}.

#[global] Instance Tensor_inhabited : Inhabited Tensor :=
  populate {| data := []; grad := None |}.

(** Keyword arguments an optimizer is built with: [vars(config)] without
    [_target] and [max_norm], next to the class that is instantiated. *)
Record hyper := {
  h_target : torch_optim;
  h_lr : float;
  h_eps : float;
  h_weight_decay : option float;
}.

Class Torch := {
  (** [optimizer.state]: moment buffers and step counts *)
  opt_state : Type;
  (** [torch.optim.Adam(params, **kwargs)] and the like: the constructor
      checks its arguments and the parameter list, and raises or returns
      the optimizer in its initial state *)
  optim_new : hyper → list tid → result opt_state;
  (** [optimizer.step()] *)
  optim_step : hyper → opt_state → list Tensor → opt_state * list Tensor;
  (** [optimizer.zero_grad()] *)
  optim_zero_grad : list Tensor → list Tensor;
  (** [torch.nn.utils.clip_grad_norm_(parameters, max_norm)], 2-norm *)
  clip_grad_norm_ : list Tensor → float → list Tensor;
  (** the [GradScaler] object *)
  scaler_state : Type;
  (** [grad_scaler.unscale_(optimizer)] *)
  scaler_unscale_ : scaler_state → list Tensor → scaler_state * list Tensor;
  (** [grad_scaler.step(optimizer)] *)
  scaler_step : scaler_state → hyper → opt_state → list Tensor →
                scaler_state * opt_state * list Tensor;
  (** the state of a learning-rate scheduler and its [step()], which
      yields the rate it writes into its optimizer *)
  sched_state : Type;
  sched_state_init : sched_state;
  sched_step : SchedulerConfig → float → sched_state → sched_state * float;
}.

Section Coordinator.
Context `{Torch}.

Record Optimizer := {
  o_hyper : hyper;
  (** [optimizer.param_groups], each with its "params" list *)
  param_groups : list (list tid);
  o_state : opt_state;
}.

Record Scheduler := {
  s_config : SchedulerConfig;
  s_lr_init : float;
  s_state : sched_state;
}.

(** [vars(self)] without [_target] and [max_norm]. *)
Definition kwargs (c : OptimizerConfig) : hyper :=
  {| h_target := target c; h_lr := lr c; h_eps := eps c;
     h_weight_decay := weight_decay c |}.

(** [OptimizerConfig.setup]: drop [_target] and [max_norm], pass the rest
    to the constructor of the target class, whose exception, if it raises
    one, is the exception of [setup]. *)
Definition setup (c : OptimizerConfig) (params : list tid) : result Optimizer :=
  match optim_new (kwargs c) params with
  | Ok st => Ok {| o_hyper := kwargs c; param_groups := [params]; o_state := st |}
  | Raise e => Raise e
  end.

(** Modelled from the spec: [SchedulerConfig.setup().get_scheduler], of
    [scrstudio.engine.schedulers]: a scheduler "produced from a scheduler
    configuration bound to an already-constructed optimizer and an initial
    rate". *)
Definition get_scheduler (c : SchedulerConfig) (lr_init : float) : Scheduler :=
  {| s_config := c; s_lr_init := lr_init; s_state := sched_state_init |}.

(** ** The coordinator *)

Record Optimizers := {
  config : dict entry;
  optimizers : dict Optimizer;
  schedulers : dict Scheduler;
  parameters : dict (list tid);
}.

(** *** Construction

    [config] is the caller's dictionary: assignments to it are visible to
    the caller, also when construction raises afterwards.  The console is
    the list of [(text, style)] pairs printed. *)

Record init_state := {
  i_config : dict entry;
  i_console : list (string * string);
  i_optimizers : dict Optimizer;
  i_schedulers : dict Scheduler;
  i_parameters : dict (list tid);
}.

Definition nl : string := String (Ascii.ascii_of_nat 10) EmptyString.

Definition camera_opt_warning : string * string :=
  (nl +:+ "The 'camera_opt' param group should be assigned an optimizer in the config. Assigning default optimizers for now. This will be removed in a future release." +:+ nl,
   "bold yellow").

Definition camera_opt_default : entry :=
  {[ "optimizer" := VOptimizer (AdamOptimizerConfig 1e-3 1e-15 None);
     "scheduler" := VScheduler (ExponentialDecaySchedulerConfig 1e-4 30000) ]}.

Definition not_found (name : string) (ks : list string) : list fpart :=
  [ Lit "Optimizer config for '"; FStr name;
    Lit "' not found in config file. Make sure you specify an optimizer for each parameter group. Provided configs were: ";
    FKeys ks ].

Definition console_print (m : string * string) : M init_state unit :=
  modify (λ st, {| i_config := i_config st; i_console := i_console st ++ [m];
                   i_optimizers := i_optimizers st;
                   i_schedulers := i_schedulers st;
                   i_parameters := i_parameters st |}).

Definition config_setitem (k : string) (e : entry) : M init_state unit :=
  modify (λ st, {| i_config := Dict.set k e (i_config st);
                   i_console := i_console st;
                   i_optimizers := i_optimizers st;
                   i_schedulers := i_schedulers st;
                   i_parameters := i_parameters st |}).

Definition optimizers_setitem (k : string) (o : Optimizer) : M init_state unit :=
  modify (λ st, {| i_config := i_config st; i_console := i_console st;
                   i_optimizers := Dict.set k o (i_optimizers st);
                   i_schedulers := i_schedulers st;
                   i_parameters := i_parameters st |}).

Definition parameters_setitem (k : string) (ps : list tid) : M init_state unit :=
  modify (λ st, {| i_config := i_config st; i_console := i_console st;
                   i_optimizers := i_optimizers st;
                   i_schedulers := i_schedulers st;
                   i_parameters := Dict.set k ps (i_parameters st) |}).

Definition schedulers_setitem (k : string) (s : Scheduler) : M init_state unit :=
  modify (λ st, {| i_config := i_config st; i_console := i_console st;
                   i_optimizers := i_optimizers st;
                   i_schedulers := Dict.set k s (i_schedulers st);
                   i_parameters := i_parameters st |}).

(** [config[name][key]] *)
Definition config_entry_getitem (name key : string) : M init_state value :=
  cfg ← gets i_config;
  e ← lift (getitem name cfg);
  lift (entry_getitem key e).

(** [v.lr]; of the values at hand only an optimizer config has the
    attribute. *)
Definition attr_lr (v : value) : result float :=
  match v with
  | VOptimizer c => Ok (lr c)
  | VNone | VScheduler _ => Raise (AttributeError "lr")
  end.

(** [v.setup(params=params)] *)
Definition call_setup_params (v : value) (params : list tid) : result Optimizer :=
  match v with
  | VOptimizer c => setup c params
  | VNone => Raise (AttributeError "setup")
  | VScheduler _ => Raise (TypeError "setup() got an unexpected keyword argument 'params'")
  end.

(** [v.setup().get_scheduler(optimizer=..., lr_init=lr_init)] *)
Definition call_setup_get_scheduler (v : value) (lr_init : float) : result Scheduler :=
  match v with
  | VScheduler c => Ok (get_scheduler c lr_init)
  | VNone => Raise (AttributeError "setup")
  | VOptimizer _ => Raise (TypeError "setup() missing 1 required positional argument: 'params'")
  end.

(** The body of the loop of [__init__], lines 96 to 123. *)
Definition init_group (item : string * list tid) : M init_state unit :=
  let '(param_group_name, params) := item in
  cfg ← gets i_config;
  (if bool_decide (param_group_name = "camera_opt") && negb (Dict.mem "camera_opt" cfg)
   then console_print camera_opt_warning ;;
        config_setitem "camera_opt" camera_opt_default
   else mret tt) ;;
  cfg ← gets i_config;
  (if negb (Dict.mem param_group_name cfg)
   then raise (RuntimeError (not_found param_group_name (Dict.keys cfg)))
   else mret tt) ;;
  o ← config_entry_getitem param_group_name "optimizer";
  lr_init ← lift (attr_lr o);
  o ← config_entry_getitem param_group_name "optimizer";
  opt ← lift (call_setup_params o params);
  optimizers_setitem param_group_name opt ;;
  parameters_setitem param_group_name params ;;
  s ← config_entry_getitem param_group_name "scheduler";
  if truthy s
  then s ← config_entry_getitem param_group_name "scheduler";
       sch ← lift (call_setup_get_scheduler s lr_init);
       schedulers_setitem param_group_name sch
  else mret tt.

Definition init_start (cfg : dict entry) : init_state :=
  {| i_config := cfg; i_console := []; i_optimizers := [];
     i_schedulers := []; i_parameters := [] |}.

Definition init_finish (st : init_state) : Optimizers :=
  {| config := i_config st; optimizers := i_optimizers st;
     schedulers := i_schedulers st; parameters := i_parameters st |}.

(** [Optimizers(config, param_groups)]: the coordinator or the exception,
    with the caller's configuration dictionary and the console as they are
    left. *)
Definition __init__ (cfg : dict entry) (groups : dict (list tid))
  : result Optimizers * dict entry * list (string * string) :=
  let '(r, st) := for_each groups init_group (init_start cfg) in
  (match r with
   | Ok _ => Ok (init_finish st)
   | Raise e => Raise e
   end, i_config st, i_console st).


(** *** The methods

    A method runs on a world: the coordinator object, the tensor heap, the
    [GradScaler] handed to the scaled stepping methods, and the trace of the
    calls made on optimizers, schedulers, the scaler, the clipping utility
    and the metrics writer, each tagged with the group it is made for. *)

Inductive event :=
| EStep (g : string)                              (* optimizer.step() *)
| EZeroGrad (g : string)                          (* optimizer.zero_grad() *)
| EUnscale (g : string)                           (* grad_scaler.unscale_(optimizer) *)
| EClip (g : string) (ps : list tid) (m : float)  (* clip_grad_norm_(ps, m) *)
| EScalerStep (g : string)                        (* grad_scaler.step(optimizer) *)
| ESchedulerStep (g : string)                     (* scheduler.step() *)
| ELoadOptimizer (g : string)                     (* optimizer.load_state_dict(v) *)
| ELoadScheduler (g : string)                     (* scheduler.load_state_dict(v) *)
| EPutScalar (name : list fpart) (scalar : float) (step : Z).

Record world := {
  self : Optimizers;
  heap : gmap tid Tensor;
  grad_scaler : scaler_state;
  trace : list event;
}.

Definition read (h : gmap tid Tensor) (ps : list tid) : list Tensor :=
  (λ p, h !!! p) <$> ps.

Definition write (ps : list tid) (ts : list Tensor) (h : gmap tid Tensor)
  : gmap tid Tensor :=
  foldr (λ pt h', <[pt.1 := pt.2]> h') h (zip ps ts).

(** The tensors an optimizer holds references to. *)
Definition tensors_of (o : Optimizer) : list tid := concat (param_groups o).

Definition emit (e : event) : M world unit :=
  modify (λ w, {| self := self w; heap := heap w;
                  grad_scaler := grad_scaler w; trace := trace w ++ [e] |}).

Definition set_heap (h : gmap tid Tensor) : M world unit :=
  modify (λ w, {| self := self w; heap := h;
                  grad_scaler := grad_scaler w; trace := trace w |}).

Definition set_grad_scaler (sc : scaler_state) : M world unit :=
  modify (λ w, {| self := self w; heap := heap w;
                  grad_scaler := sc; trace := trace w |}).

(** In-place mutation of the optimizer, or scheduler, object of a group. *)
Definition mutate_optimizer (g : string) (f : Optimizer → Optimizer) : M world unit :=
  modify (λ w, {| self := {| config := config (self w);
                             optimizers := Dict.alter f g (optimizers (self w));
                             schedulers := schedulers (self w);
                             parameters := parameters (self w) |};
                  heap := heap w; grad_scaler := grad_scaler w;
                  trace := trace w |}).

Definition mutate_scheduler (g : string) (f : Scheduler → Scheduler) : M world unit :=
  modify (λ w, {| self := {| config := config (self w);
                             optimizers := optimizers (self w);
                             schedulers := Dict.alter f g (schedulers (self w));
                             parameters := parameters (self w) |};
                  heap := heap w; grad_scaler := grad_scaler w;
                  trace := trace w |}).

Definition with_state (st : opt_state) (o : Optimizer) : Optimizer :=
  {| o_hyper := o_hyper o; param_groups := param_groups o; o_state := st |}.

Definition with_lr (r : float) (o : Optimizer) : Optimizer :=
  {| o_hyper := {| h_target := h_target (o_hyper o); h_lr := r;
                   h_eps := h_eps (o_hyper o);
                   h_weight_decay := h_weight_decay (o_hyper o) |};
     param_groups := param_groups o; o_state := o_state o |}.

(** [self.optimizers[g]], [self.schedulers[g]], [self.parameters[g]] *)
Definition self_optimizers_getitem (g : string) : M world Optimizer :=
  d ← gets (λ w, optimizers (self w)); lift (getitem g d).
Definition self_schedulers_getitem (g : string) : M world Scheduler :=
  d ← gets (λ w, schedulers (self w)); lift (getitem g d).
Definition self_parameters_getitem (g : string) : M world (list tid) :=
  d ← gets (λ w, parameters (self w)); lift (getitem g d).

(** [v.max_norm] *)
Definition attr_max_norm (v : value) : result (option float) :=
  match v with
  | VOptimizer c => Ok (max_norm c)
  | VNone | VScheduler _ => Raise (AttributeError "max_norm")
  end.

(** [self.config[g]["optimizer"].max_norm] *)
Definition self_config_max_norm (g : string) : M world (option float) :=
  cfg ← gets (λ w, config (self w));
  e ← lift (getitem g cfg);
  v ← lift (entry_getitem "optimizer" e);
  lift (attr_max_norm v).

(** [optimizer.step()] on the optimizer of group [g] *)
Definition call_step (g : string) (o : Optimizer) : M world unit :=
  h ← gets heap;
  let '(st, ts) := optim_step (o_hyper o) (o_state o) (read h (tensors_of o)) in
  set_heap (write (tensors_of o) ts h) ;;
  mutate_optimizer g (with_state st) ;;
  emit (EStep g).

(** [optimizer.zero_grad()] *)
Definition call_zero_grad (g : string) (o : Optimizer) : M world unit :=
  h ← gets heap;
  set_heap (write (tensors_of o) (optim_zero_grad (read h (tensors_of o))) h) ;;
  emit (EZeroGrad g).

(** [torch.nn.utils.clip_grad_norm_(ps, m)] *)
Definition call_clip_grad_norm_ (g : string) (ps : list tid) (m : float) : M world unit :=
  h ← gets heap;
  set_heap (write ps (clip_grad_norm_ (read h ps) m) h) ;;
  emit (EClip g ps m).

(** [grad_scaler.unscale_(optimizer)] *)
Definition call_unscale_ (g : string) (o : Optimizer) : M world unit :=
  h ← gets heap;
  sc ← gets grad_scaler;
  let '(sc', ts) := scaler_unscale_ sc (read h (tensors_of o)) in
  set_grad_scaler sc' ;;
  set_heap (write (tensors_of o) ts h) ;;
  emit (EUnscale g).

(** [grad_scaler.step(optimizer)] *)
Definition call_scaler_step (g : string) (o : Optimizer) : M world unit :=
  h ← gets heap;
  sc ← gets grad_scaler;
  let '(sc', st, ts) :=
    scaler_step sc (o_hyper o) (o_state o) (read h (tensors_of o)) in
  set_grad_scaler sc' ;;
  set_heap (write (tensors_of o) ts h) ;;
  mutate_optimizer g (with_state st) ;;
  emit (EScalerStep g).

(** [any(any(p.grad is not None for p in g["params"])
         for g in optimizer.param_groups)] *)
Definition any_grad (h : gmap tid Tensor) (o : Optimizer) : bool :=
  existsb (λ g, existsb (λ p, match grad (h !!! p) with
                              | Some _ => true
                              | None => false
                              end) g)
          (param_groups o).

Definition optimizer_step (param_group_name : string) : M world unit :=
  o ← self_optimizers_getitem param_group_name;
  call_step param_group_name o.

Definition scheduler_step (param_group_name : string) : M world unit :=
  cfg ← gets (λ w, config (self w));
  e ← lift (getitem param_group_name cfg);
  if bool_decide (is_Some (e !! "scheduler"))
  then s ← self_schedulers_getitem param_group_name;
       let '(st, r) := sched_step (s_config s) (s_lr_init s) (s_state s) in
       mutate_scheduler param_group_name
         (λ s, {| s_config := s_config s; s_lr_init := s_lr_init s; s_state := st |}) ;;
       mutate_optimizer param_group_name (with_lr r) ;;
       emit (ESchedulerStep param_group_name)
  else mret tt.

(** [for k, _ in d.items()]: the keys as they are when the loop starts; the
    object of a key is fetched from the dictionary, where it is mutated in
    place. *)
Definition zero_grad_all : M world unit :=
  ks ← gets (λ w, Dict.keys (optimizers (self w)));
  for_each ks (λ g,
    optimizer ← self_optimizers_getitem g;
    call_zero_grad g optimizer).

Definition zero_grad_some (names : list string) : M world unit :=
  for_each names (λ param_group,
    optimizer ← self_optimizers_getitem param_group;
    call_zero_grad param_group optimizer).

(** Lines 160 to 163, and 175 to 178: unscale and clip when a maximum norm
    is configured. *)
Definition unscale_and_clip (param_group : string) : M world unit :=
  max_norm ← self_config_max_norm param_group;
  match max_norm with
  | Some m =>
      optimizer ← self_optimizers_getitem param_group;
      call_unscale_ param_group optimizer ;;
      ps ← self_parameters_getitem param_group;
      call_clip_grad_norm_ param_group ps m
  | None => mret tt
  end.

(** Lines 164 and 165, and 179 and 180: the guarded scaler step. *)
Definition step_if_grad (param_group : string) : M world unit :=
  optimizer ← self_optimizers_getitem param_group;
  h ← gets heap;
  if any_grad h optimizer
  then call_scaler_step param_group optimizer
  else mret tt.

(** The part of the loop body the two scaled stepping methods share. *)
Definition unscale_clip_step (param_group : string) : M world unit :=
  unscale_and_clip param_group ;; step_if_grad param_group.

Definition optimizer_scaler_step_all : M world unit :=
  ks ← gets (λ w, Dict.keys (optimizers (self w)));
  for_each ks unscale_clip_step.

Definition optimizer_scaler_step_some (names : list string) : M world unit :=
  for_each names (λ param_group,
    _ ← self_optimizers_getitem param_group;
    unscale_clip_step param_group).

(** Lines 186 to 189: the body of the loop of [optimizer_step_all]. *)
Definition step_all_body (param_group : string) : M world unit :=
  max_norm ← self_config_max_norm param_group;
  match max_norm with
  | Some m =>
      ps ← self_parameters_getitem param_group;
      call_clip_grad_norm_ param_group ps m
  | None => mret tt
  end ;;
  optimizer ← self_optimizers_getitem param_group;
  call_step param_group optimizer.

Definition optimizer_step_all : M world unit :=
  ks ← gets (λ w, Dict.keys (optimizers (self w)));
  for_each ks step_all_body.

Definition scheduler_step_all (step : Z) : M world unit :=
  ks ← gets (λ w, Dict.keys (schedulers (self w)));
  for_each ks (λ param_group_name,
    s ← self_schedulers_getitem param_group_name;
    let '(st, r) := sched_step (s_config s) (s_lr_init s) (s_state s) in
    mutate_scheduler param_group_name
      (λ s, {| s_config := s_config s; s_lr_init := s_lr_init s; s_state := st |}) ;;
    mutate_optimizer param_group_name (with_lr r) ;;
    emit (ESchedulerStep param_group_name) ;;
    emit (EPutScalar [Lit "learning_rate/"; FStr param_group_name] r step)).

(** [optimizer.load_state_dict(v)]: the state dictionary of an optimizer
    holds its hyperparameters and its state. *)
Definition loaded_optimizer (v : hyper * opt_state) (o : Optimizer) : Optimizer :=
  {| o_hyper := v.1; param_groups := param_groups o; o_state := v.2 |}.

Definition loaded_scheduler (v : sched_state) (s : Scheduler) : Scheduler :=
  {| s_config := s_config s; s_lr_init := s_lr_init s; s_state := v |}.

Definition load_optimizers (loaded_state : dict (hyper * opt_state)) : M world unit :=
  for_each loaded_state (λ kv,
    _ ← self_optimizers_getitem kv.1;
    mutate_optimizer kv.1 (loaded_optimizer kv.2) ;;
    emit (ELoadOptimizer kv.1)).

Definition load_schedulers (loaded_state : dict sched_state) : M world unit :=
  for_each loaded_state (λ kv,
    _ ← self_schedulers_getitem kv.1;
    mutate_scheduler kv.1 (loaded_scheduler kv.2) ;;
    emit (ELoadScheduler kv.1)).

End Coordinator.

(** ** The joint norm of gradients, and what clipping guarantees

    [clip_grad_norm_] views the gradients of the tensors it is given as one
    vector and rescales them in place.  Its guarantee is stated on the
    tensors of one call: in binary64 arithmetic the norm of the rescaled
    gradients is at most the maximum up to rounding only, so the guarantee
    is a property of a call, not a law for all inputs. *)

Definition sum_squares (ts : list Tensor) : float :=
  foldr (λ t acc,
           match grad t with
           | Some g => foldr (λ x a, (x * x + a)%float) acc g
           | None => acc
           end) 0%float ts.

(** The 2-norm of the gradients of [ts] taken jointly; a tensor without
    gradient contributes nothing. *)
Definition joint_norm (ts : list Tensor) : float :=
  PrimFloat.sqrt (sum_squares ts).

Definition scale_grads (c : float) (ts : list Tensor) : list Tensor :=
  List.map (λ t, {| data := data t;
                    grad := option_map (List.map (λ x, (x * c)%float)) (grad t) |}) ts.



(** ** A reference implementation of the torch interface

    Plain gradient descent with a step counter, constructors that check
    their arguments as those of [torch.optim] do, clipping of the joint
    2-norm as [clip_grad_norm_] computes it, and a scaler that divides by
    its scale and skips a step on a non-finite gradient.  It serves to run
    the methods on concrete worlds. *)

Module Reference.

(** The checks of [torch.optim.Adam.__init__] and its like, in their order,
    then the one of [Optimizer.__init__]; a missing [weight_decay] is the
    default 0 of the constructor. *)
Definition new (hy : hyper) (ps : list tid) : result nat :=
  if negb (PrimFloat.leb 0 (h_lr hy))
  then Raise (ValueError [Lit "Invalid learning rate: "; FFloat (h_lr hy)])
  else if negb (PrimFloat.leb 0 (h_eps hy))
  then Raise (ValueError [Lit "Invalid epsilon value: "; FFloat (h_eps hy)])
  else if negb (PrimFloat.leb 0 (default 0%float (h_weight_decay hy)))
  then Raise (ValueError [Lit "Invalid weight_decay value: ";
                          FFloat (default 0%float (h_weight_decay hy))])
  else match ps with
       | [] => Raise (ValueError [Lit "optimizer got an empty parameter list"])
       | _ :: _ => Ok 0
       end.

Definition clip (ts : list Tensor) (m : float) : list Tensor :=
  let total_norm := joint_norm ts in
  let clip_coef := (m / (total_norm + 1e-6))%float in
  let clamped := if (clip_coef <? 1)%float then clip_coef else 1%float in
  scale_grads clamped ts.

Definition descend (r : float) (t : Tensor) : Tensor :=
  match grad t with
  | Some g =>
      {| data := zip_with (λ x gx, (x - r * gx)%float) (data t) g;
         grad := Some g |}
  | None => t
  end.

Definition finite (x : float) : bool :=
  negb (PrimFloat.is_nan x) && negb (PrimFloat.is_infinity x).

Definition all_finite (ts : list Tensor) : bool :=
  forallb (λ t, match grad t with
                | Some g => forallb finite g
                | None => true
                end) ts.

Definition torch : Torch :=
  {| opt_state := nat;
     optim_new := new;
     optim_step := λ hy n ts, (S n, List.map (descend (h_lr hy)) ts);
     optim_zero_grad := List.map (λ t, {| data := data t; grad := None |});
     clip_grad_norm_ := clip;
     scaler_state := float * nat;
     scaler_unscale_ := λ sc ts, (sc, scale_grads (1 / sc.1)%float ts);
     scaler_step := λ sc hy n ts,
       if all_finite ts then (sc, S n, List.map (descend (h_lr hy)) ts)
       else ((sc.1, S sc.2), n, ts);
     sched_state := nat;
     sched_state_init := 0;
     sched_step := λ c lr_init n,
       match c with
       | ExponentialDecaySchedulerConfig lr_final max_steps =>
           (S n, if bool_decide (max_steps ≤ Z.of_nat (S n))%Z
                 then lr_final else lr_init)
       end |}.

End Reference.

(** ** Readiness of a configuration entry

    An entry is ready when it holds an optimizer config under "optimizer"
    and [None] or a scheduler config under "scheduler". *)

Definition entry_ready (e : entry) : bool :=
  match e !! "optimizer", e !! "scheduler" with
  | Some (VOptimizer _), Some (VNone | VScheduler _) => true
  | _, _ => false
  end.

(** ** The loop body of construction, case by case *)

Section ConstructionCases.
Context `{Torch}.

(** An entry builds on a parameter list when it is ready and the
    constructor of its optimizer accepts the arguments of the optimizer
    config and the list; a group builds when its entry does, or when it is
    the legacy group without entry and the default entry does. *)
Definition entry_builds (e : entry) (ps : list tid) : bool :=
  entry_ready e &&
  match e !! "optimizer" with
  | Some (VOptimizer c) =>
      match setup c ps with
      | Ok _ => true
      | Raise _ => false
      end
  | _ => false
  end.

Definition group_builds (cfg : dict entry) (g : string * list tid) : bool :=
  match Dict.get g.1 cfg with
  | Some e => entry_builds e g.2
  | None => bool_decide (g.1 = "camera_opt") && entry_builds camera_opt_default g.2
  end.

(** Whether the legacy branch of lines 97 to 109 is taken. *)
Definition legacy_fires (name : string) (cfg : dict entry) : bool :=
  bool_decide (name = "camera_opt") && negb (Dict.mem "camera_opt" cfg).

Definition after_legacy (name : string) (st : init_state) : init_state :=
  if legacy_fires name (i_config st)
  then {| i_config := Dict.set "camera_opt" camera_opt_default (i_config st);
          i_console := i_console st ++ [camera_opt_warning];
          i_optimizers := i_optimizers st;
          i_schedulers := i_schedulers st;
          i_parameters := i_parameters st |}
  else st.

Definition after_optimizer (name : string) (ps : list tid) (opt : Optimizer)
    (st : init_state) : init_state :=
  {| i_config := i_config st; i_console := i_console st;
     i_optimizers := Dict.set name opt (i_optimizers st);
     i_schedulers := i_schedulers st;
     i_parameters := Dict.set name ps (i_parameters st) |}.

Definition after_scheduler (name : string) (c : OptimizerConfig)
    (sc : SchedulerConfig) (st : init_state) : init_state :=
  {| i_config := i_config st; i_console := i_console st;
     i_optimizers := i_optimizers st;
     i_schedulers := Dict.set name (get_scheduler sc (lr c)) (i_schedulers st);
     i_parameters := i_parameters st |}.

Definition init_group_cases (name : string) (ps : list tid) (st : init_state)
  : result unit * init_state :=
  let st1 := after_legacy name st in
  match Dict.get name (i_config st1) with
  | None => (Raise (RuntimeError (not_found name (Dict.keys (i_config st1)))), st1)
  | Some e =>
      match e !! "optimizer" with
      | None => (Raise (KeyError "optimizer"), st1)
      | Some (VOptimizer c) =>
          match setup c ps with
          | Raise ex => (Raise ex, st1)
          | Ok opt =>
              let st2 := after_optimizer name ps opt st1 in
              match e !! "scheduler" with
              | None => (Raise (KeyError "scheduler"), st2)
              | Some VNone => (Ok tt, st2)
              | Some (VScheduler sc) => (Ok tt, after_scheduler name c sc st2)
              | Some (VOptimizer _) =>
                  (Raise (TypeError "setup() missing 1 required positional argument: 'params'"), st2)
              end
          end
      | Some (VNone | VScheduler _) => (Raise (AttributeError "lr"), st1)
      end
  end.

(** The configuration and console that the legacy branch leaves, relative
    to the dictionary the caller passed. *)
Inductive legacy_outcome (cfg : dict entry) : dict entry → list (string * string) → Prop :=
| legacy_not_taken : legacy_outcome cfg cfg []
| legacy_taken :
    Dict.get "camera_opt" cfg = None →
    legacy_outcome cfg (cfg ++ [("camera_opt", camera_opt_default)])
                   [camera_opt_warning].

(** The invariant of the construction loop. *)
Definition init_inv (cfg : dict entry) (st : init_state) : Prop :=
  legacy_outcome cfg (i_config st) (i_console st).

(** What the loop maintains of the groups built so far: each has an entry
    with an optimizer config, and a parameter list. *)
Definition init_ok (st : init_state) : Prop :=
  ∀ g, g ∈ Dict.keys (i_optimizers st) →
    (∃ e c, Dict.get g (i_config st) = Some e ∧
            e !! "optimizer" = Some (VOptimizer c)) ∧
    is_Some (Dict.get g (i_parameters st)).

End ConstructionCases.

(** ** Predicates on coordinators and worlds *)

Section Predicates.
Context `{Torch}.

(** Every group that has an optimizer has a configuration entry with an
    optimizer config, and a parameter list: what construction establishes
    and the stepping methods rely on. *)
Definition coordinator_ok (o : Optimizers) : Prop :=
  ∀ g, g ∈ Dict.keys (optimizers o) →
    (∃ e c, Dict.get g (config o) = Some e ∧
            e !! "optimizer" = Some (VOptimizer c)) ∧
    is_Some (Dict.get g (parameters o)).

(** The configured maximum norm of a group, when its entry is readable. *)
Definition max_norm_of (o : Optimizers) (g : string) : option float :=
  match Dict.get g (config o) with
  | Some e => match e !! "optimizer" with
              | Some (VOptimizer c) => max_norm c
              | _ => None
              end
  | None => None
  end.

Definition parameters_of (o : Optimizers) (g : string) : list tid :=
  default [] (Dict.get g (parameters o)).

(** One of the tensors [ps] carries a gradient in the heap [h]: its [grad]
    is not [None]. *)
Definition carries_grad (h : gmap tid Tensor) (ps : list tid) : Prop :=
  ∃ p t gr, p ∈ ps ∧ h !! p = Some t ∧ grad t = Some gr.

(** Number of calls of [grad_scaler.step] for group [g] in a trace. *)
Definition is_scaler_step (g : string) (e : event) : bool :=
  match e with
  | EScalerStep g' => bool_decide (g' = g)
  | _ => false
  end.

Definition scaler_steps (g : string) (tr : list event) : nat :=
  length (List.filter (is_scaler_step g) tr).

(** Number of times a group is selected by a list of names. *)
Definition occurrences (g : string) (names : list string) : nat :=
  length (filter (eq g) names).


(** The tensors the optimizers and parameter lists of the groups [names]
    refer to. *)
Definition tensor_of_groups (names : list string) (o : Optimizers) (t : tid) : Prop :=
  ∃ g, g ∈ names ∧
    ((∃ opt, Dict.get g (optimizers o) = Some opt ∧ t ∈ tensors_of opt) ∨
     (∃ ps, Dict.get g (parameters o) = Some ps ∧ t ∈ ps)).

(** What a method keeps of a world when it works on the groups [named] and
    on the tensors [touched] only. *)
Record frame (named : string → Prop) (touched : tid → Prop) (w w' : world) : Prop := {
  frame_config : config (self w') = config (self w);
  frame_parameters : parameters (self w') = parameters (self w);
  frame_schedulers : schedulers (self w') = schedulers (self w);
  frame_keys : Dict.keys (optimizers (self w')) = Dict.keys (optimizers (self w));
  frame_param_groups : ∀ g,
    param_groups <$> Dict.get g (optimizers (self w')) =
    param_groups <$> Dict.get g (optimizers (self w));
  frame_optimizers : ∀ g, ¬ named g →
    Dict.get g (optimizers (self w')) = Dict.get g (optimizers (self w));
  frame_heap : ∀ t, ¬ touched t → heap w' !! t = heap w !! t;
}.

(** A call on the groups [names] leaves the rest of world [w] as it was:
    the dictionaries of the coordinator keep their keys, the configuration,
    the schedulers and the parameter lists are the same, the optimizer
    objects of the other groups are the same, and so is every tensor that
    no selected group refers to; in particular the tensors of another group
    that shares none with the selected ones. *)
Definition outside_unchanged (names : list string) (w w' : world) : Prop :=
  config (self w') = config (self w) ∧
  schedulers (self w') = schedulers (self w) ∧
  parameters (self w') = parameters (self w) ∧
  Dict.keys (optimizers (self w')) = Dict.keys (optimizers (self w)) ∧
  (∀ g, g ∉ names →
     Dict.get g (optimizers (self w')) = Dict.get g (optimizers (self w))) ∧
  (∀ t, ¬ tensor_of_groups names (self w) t → heap w' !! t = heap w !! t) ∧
  (∀ g o, g ∉ names →
     Dict.get g (optimizers (self w)) = Some o →
     (∀ t, t ∈ tensors_of o → ¬ tensor_of_groups names (self w) t) →
     read (heap w') (tensors_of o) = read (heap w) (tensors_of o)).

End Predicates.

(** ** Concrete configurations *)

Definition field_entry : entry :=
  {[ "optimizer" := VOptimizer (AdamOptimizerConfig 0.0005 1e-08 (Some 1%float));
     "scheduler" := VNone ]}.

Definition optimizer_only_entry : entry :=
  {[ "optimizer" := VOptimizer (AdamOptimizerConfig 0.0005 1e-08 None) ]}.

(** A coordinator as construction returns it, on the reference torch. *)
Definition built (cfg : dict entry) (groups : dict (list tid))
  : @Optimizers Reference.torch :=
  match (@__init__ Reference.torch cfg groups).1.1 with
  | Ok o => o
  | Raise _ => {| config := []; optimizers := []; schedulers := []; parameters := [] |}
  end.

Definition tensor_without_grad : Tensor :=
  {| data := [1%float; 2%float]; grad := None |}.

Definition tensor_with_grad : Tensor :=
  {| data := [1%float; 2%float]; grad := Some [6%float; 8%float] |}.

(** One group, "field", clipped at norm 1, no scheduler; its two tensors
    carry the gradient (6, 8), of norm 10. *)
Definition world_with_grad : @world Reference.torch :=
  {| self := built [("field", field_entry)] [("field", [0; 1])];
     heap := {[ 0 := tensor_with_grad; 1 := tensor_without_grad ]};
     grad_scaler := (1%float, 0);
     trace := [] |}.

(** The same group with no gradient on any tensor. *)
Definition world_without_grad : @world Reference.torch :=
  {| self := built [("field", field_entry)] [("field", [0; 1])];
     heap := {[ 0 := tensor_without_grad; 1 := tensor_without_grad ]};
     grad_scaler := (1%float, 0);
     trace := [] |}.

(** A checkpoint that names the group "field" only, and one that names a
    group the coordinator does not have. *)
Definition checkpoint_state : hyper * nat :=
  ({| h_target := Adam; h_lr := 0.0005; h_eps := 1e-08;
      h_weight_decay := Some 0%float |}, 7).

Definition checkpoint_field_only : dict (hyper * nat) :=
  [("field", checkpoint_state)].

Definition checkpoint_unknown_group : dict (hyper * nat) :=
  [("field", checkpoint_state); ("appearance", checkpoint_state)].

(** Two groups, "field" and the legacy 'camera_opt' with its default
    scheduler. *)
Definition world_two_groups : @world Reference.torch :=
  {| self := built [("field", field_entry)]
                   [("field", [0; 1]); ("camera_opt", [2])];
     heap := {[ 0 := tensor_with_grad; 1 := tensor_without_grad;
                2 := tensor_with_grad ]};
     grad_scaler := (1%float, 0);
     trace := [] |}.

(** ** What construction builds for a group *)

Section Built.
Context `{Torch}.

(** The scheduler built from an entry whose optimizer config is [c]. *)
Definition scheduler_for (e : entry) (c : OptimizerConfig) : option Scheduler :=
  match e !! "scheduler" with
  | Some (VScheduler sc) => Some (get_scheduler sc (lr c))
  | _ => None
  end.

(** The objects of the groups [done] are in place, and nothing else is. *)
Definition built_so_far (done : dict (list tid)) (st : init_state) : Prop :=
  Dict.keys (i_optimizers st) = Dict.keys done ∧
  i_parameters st = done ∧
  (∀ g, g ∉ Dict.keys done → Dict.get g (i_schedulers st) = None) ∧
  ∀ g ps, (g, ps) ∈ done →
    ∃ e c opt, Dict.get g (i_config st) = Some e ∧
               e !! "optimizer" = Some (VOptimizer c) ∧
               setup c ps = Ok opt ∧
               Dict.get g (i_optimizers st) = Some opt ∧
               Dict.get g (i_schedulers st) = scheduler_for e c.

End Built.

(** ** Groups kept, schedulers stepped *)

Section Kept.
Context `{Torch}.

(** The coordinator of [w'] has the groups of [w]: the same configuration
    and parameter lists, the same names with an optimizer and with a
    scheduler, and every optimizer on the parameters it had. *)
Definition same_groups (w w' : world) : Prop :=
  config (self w') = config (self w) ∧
  parameters (self w') = parameters (self w) ∧
  Dict.keys (optimizers (self w')) = Dict.keys (optimizers (self w)) ∧
  Dict.keys (schedulers (self w')) = Dict.keys (schedulers (self w)) ∧
  ∀ g, param_groups <$> Dict.get g (optimizers (self w')) =
       param_groups <$> Dict.get g (optimizers (self w)).

(** A computation keeps the groups, however it ends. *)
Definition keeps_groups {A} (m : M world A) : Prop :=
  ∀ w, same_groups w (m w).2.

(** A scheduler after one [step()], and the rate it then reports. *)
Definition stepped_scheduler (s : Scheduler) : Scheduler :=
  loaded_scheduler (sched_step (s_config s) (s_lr_init s) (s_state s)).1 s.

Definition stepped_rate (s : Scheduler) : float :=
  (sched_step (s_config s) (s_lr_init s) (s_state s)).2.

(** The calls of [scheduler_step_all] on the schedulers [d]. *)
Definition scheduler_reports (step : Z) (d : dict Scheduler) : list event :=
  concat ((λ gs, [ESchedulerStep gs.1;
                  EPutScalar [Lit "learning_rate/"; FStr gs.1]
                             (stepped_rate gs.2) step]) <$> d).

(** The body of the loop of [scheduler_step_all], lines 198 to 201. *)
Definition scheduler_turn (step : Z) (param_group_name : string) : M world unit :=
  s ← self_schedulers_getitem param_group_name;
  let '(st, r) := sched_step (s_config s) (s_lr_init s) (s_state s) in
  mutate_scheduler param_group_name
    (λ s, {| s_config := s_config s; s_lr_init := s_lr_init s; s_state := st |}) ;;
  mutate_optimizer param_group_name (with_lr r) ;;
  emit (ESchedulerStep param_group_name) ;;
  emit (EPutScalar [Lit "learning_rate/"; FStr param_group_name] r step).

End Kept.

(** The legacy group alone, on the empty configuration: no maximum norm. *)
Definition world_camera_only : @world Reference.torch :=
  {| self := built [] [("camera_opt", [2])];
     heap := {[ 2 := tensor_with_grad ]};
     grad_scaler := (1%float, 0);
     trace := [] |}.

(** ** scrstudio.utils.io: [parse_aachen_path]

    The function works on the characters of a path one by one.  A string
    is a [string], a sequence of 8-bit characters: a path outside ASCII is
    its UTF-8 encoding, in which the characters the function tests for and
    writes, '_', '/', 'd' and 'b', occur as themselves only. *)

Definition underscore : Ascii.ascii := Eval cbv in Ascii.ascii_of_nat 95.
Definition slash : Ascii.ascii := Eval cbv in Ascii.ascii_of_nat 47.

(** [sub in s] *)
Fixpoint str_contains (sub s : string) : bool :=
  String.prefix sub s ||
  match s with
  | EmptyString => false
  | String _ s' => str_contains sub s'
  end.

(** [s.replace(old, new)] for one-character [old] and [new] *)
Fixpoint str_replace (old new : Ascii.ascii) (s : string) : string :=
  match s with
  | EmptyString => EmptyString
  | String c s' =>
      String (if Ascii.eqb c old then new else c) (str_replace old new s')
  end.

(** [re.sub(r'(c)', new, s, count=S n)] for a pattern that matches the one
    character [old] and a replacement without group references: the
    leftmost [count] occurrences are replaced.  ([count=0] means no limit
    in Python; the source passes 3.) *)
Fixpoint re_sub_char (old new : Ascii.ascii) (count : nat) (s : string) : string :=
  match count, s with
  | 0, _ => s
  | _, EmptyString => EmptyString
  | S n, String c s' =>
      if Ascii.eqb c old then String new (re_sub_char old new n s')
      else String c (re_sub_char old new count s')
  end.

Definition parse_aachen_path (path : string) : string :=
  if str_contains "db" path
  then str_replace underscore slash path
  else re_sub_char underscore slash 3 path.

(** Number of occurrences of a character. *)
Fixpoint count_char (c : Ascii.ascii) (s : string) : nat :=
  match s with
  | EmptyString => 0
  | String c' s' => (if Ascii.eqb c' c then 1 else 0) + count_char c s'
  end.

(** * Properties *)

(** ** Dictionary facts *)

Module DictFacts.
Section Facts.
Context {V : Type}.
Implicit Types (d : dict V) (k : string) (v : V).

Lemma get_set_eq k v d : Dict.get k (Dict.set k v d) = Some v.
Proof.
  induction d as [|[k' v'] d IH]; simpl.
  - by rewrite decide_True.
  - destruct (decide (k' = k)) as [->|Hne]; simpl.
    + by rewrite decide_True.
    + by rewrite decide_False.
Qed.

Lemma get_set_ne k k' v d : k ≠ k' → Dict.get k' (Dict.set k v d) = Dict.get k' d.
Proof.
  intros Hne. induction d as [|[k0 v0] d IH]; simpl.
  - by rewrite decide_False.
  - destruct (decide (k0 = k)) as [->|Hk]; simpl.
    + by rewrite !decide_False.
    + destruct (decide (k0 = k')); [done | apply IH].
Qed.

Lemma set_absent k v d : Dict.get k d = None → Dict.set k v d = d ++ [(k, v)].
Proof.
  induction d as [|[k' v'] d IH]; simpl; [done|].
  destruct (decide (k' = k)); [done|]. intros Hd. by rewrite IH.
Qed.

Lemma keys_set_present k v d :
  is_Some (Dict.get k d) → Dict.keys (Dict.set k v d) = Dict.keys d.
Proof.
  unfold Dict.keys. induction d as [|[k' v'] d IH]; csimpl.
  - by intros [? ?].
  - destruct (decide (k' = k)); csimpl; [done|]. intros Hd. by rewrite IH.
Qed.

Lemma get_None k d : Dict.get k d = None ↔ k ∉ Dict.keys d.
Proof.
  unfold Dict.keys. induction d as [|[k' v'] d IH]; csimpl.
  - split; [intros _; apply not_elem_of_nil | done].
  - rewrite not_elem_of_cons. destruct (decide (k' = k)) as [->|Hne].
    + split; [done | by intros [? _]].
    + rewrite IH. split; [intros Hd; split; [congruence | done] | by intros [_ Hd]].
Qed.

Lemma get_is_Some k d : is_Some (Dict.get k d) ↔ k ∈ Dict.keys d.
Proof.
  destruct (Dict.get k d) as [v|] eqn:E.
  - split; [intros _ | by eauto].
    destruct (decide (k ∈ Dict.keys d)) as [|Hn]; [done|].
    apply get_None in Hn. congruence.
  - split; [by intros [? ?] | intros Hin]. by apply get_None in E.
Qed.

Lemma mem_true k d : Dict.mem k d = true ↔ is_Some (Dict.get k d).
Proof. unfold Dict.mem. by rewrite bool_decide_eq_true. Qed.

Lemma mem_false k d : Dict.mem k d = false ↔ Dict.get k d = None.
Proof.
  unfold Dict.mem. rewrite bool_decide_eq_false.
  by rewrite eq_None_not_Some.
Qed.

Lemma keys_alter (f : V → V) k d : Dict.keys (Dict.alter f k d) = Dict.keys d.
Proof.
  unfold Dict.keys. induction d as [|[k' v'] d IH]; csimpl; [done|].
  destruct (decide (k' = k)); csimpl; [done | by rewrite IH].
Qed.

Lemma get_alter_ne (f : V → V) k k' d :
  k ≠ k' → Dict.get k' (Dict.alter f k d) = Dict.get k' d.
Proof.
  intros Hne. induction d as [|[k0 v0] d IH]; simpl; [done|].
  destruct (decide (k0 = k)) as [->|Hk]; simpl.
  - by rewrite !decide_False.
  - destruct (decide (k0 = k')); [done | apply IH].
Qed.

Lemma get_alter_eq (f : V → V) k d :
  Dict.get k (Dict.alter f k d) = f <$> Dict.get k d.
Proof.
  induction d as [|[k0 v0] d IH]; simpl; [done|].
  destruct (decide (k0 = k)) as [->|Hk]; simpl.
  - by rewrite decide_True.
  - by rewrite decide_False.
Qed.

Lemma get_app_absent k d d' :
  Dict.get k d = None → Dict.get k (d ++ d') = Dict.get k d'.
Proof.
  induction d as [|[k0 v0] d IH]; simpl; [done|].
  destruct (decide (k0 = k)); [done | apply IH].
Qed.

End Facts.
End DictFacts.

(** ** Construction *)

Section Construction.
Context `{Torch}.

Ltac run := cbv [mbind M_bind mret M_ret gets modify lift raise] in *.

Lemma init_group_eq name ps st :
  init_group (name, ps) st = init_group_cases name ps st.
Proof.
  unfold init_group, init_group_cases, after_legacy, legacy_fires,
    config_entry_getitem, console_print, config_setitem, optimizers_setitem,
    parameters_setitem, schedulers_setitem.
  run.
  destruct (bool_decide (name = "camera_opt") && negb (Dict.mem "camera_opt" (i_config st)));
    cbn [i_config i_console i_optimizers i_schedulers i_parameters].
  all: match goal with
       | |- context [negb (Dict.mem ?n ?c)] =>
           destruct (Dict.get n c) as [e|] eqn:Eg;
           [ assert (Em : Dict.mem n c = true) by (apply DictFacts.mem_true; eauto)
           | assert (Em : Dict.mem n c = false) by (by apply DictFacts.mem_false) ];
           rewrite Em; cbn [negb]
       end.
  all: try reflexivity.
  all: unfold getitem, entry_getitem, after_optimizer, after_scheduler;
       destruct (e !! "optimizer") as [[|c|sc]|] eqn:Eo;
       try destruct (setup c ps) as [opt|ex] eqn:Eopt;
       destruct (e !! "scheduler") as [[|c'|sc']|] eqn:Es;
       repeat first
         [ progress cbn [i_config i_console i_optimizers i_schedulers
                         i_parameters attr_lr call_setup_params truthy
                         call_setup_get_scheduler]
         | rewrite Eg | rewrite Eo | rewrite Es | rewrite Eopt ];
       reflexivity.
Qed.


Lemma for_each_cons {S A} (x : A) (xs : list A) (body : A → M S unit) (s : S) :
  for_each (x :: xs) body s =
  match body x s with
  | (Ok _, s') => for_each xs body s'
  | (Raise e, s') => (Raise e, s')
  end.
Proof. reflexivity. Qed.

Lemma for_each_app {S A} (xs ys : list A) (body : A → M S unit) (s : S) :
  for_each (xs ++ ys) body s =
  match for_each xs body s with
  | (Ok _, s') => for_each ys body s'
  | (Raise e, s') => (Raise e, s')
  end.
Proof.
  revert s. induction xs as [|x xs IH]; intros s; [done|].
  rewrite <- app_comm_cons, !for_each_cons.
  destruct (body x s) as [[[]|e] s']; [apply IH | done].
Qed.

(** What the loop body leaves of the configuration and of the console is
    decided by the legacy branch alone. *)
Lemma init_group_config name ps st :
  i_config (init_group (name, ps) st).2 = i_config (after_legacy name st) ∧
  i_console (init_group (name, ps) st).2 = i_console (after_legacy name st).
Proof.
  rewrite init_group_eq. unfold init_group_cases.
  destruct (Dict.get name (i_config (after_legacy name st))) as [e|]; [|done].
  destruct (e !! "optimizer") as [[|c|sc]|]; try done.
  destruct (setup c ps) as [opt|ex]; [|done].
  by destruct (e !! "scheduler") as [[|c'|sc']|].
Qed.

Lemma camera_opt_default_ready : entry_ready camera_opt_default = true.
Proof. reflexivity. Qed.

Lemma legacy_fires_spec name cfg :
  legacy_fires name cfg = true ↔
  name = "camera_opt" ∧ Dict.get "camera_opt" cfg = None.
Proof.
  unfold legacy_fires.
  rewrite andb_true_iff, bool_decide_eq_true, negb_true_iff.
  by rewrite DictFacts.mem_false.
Qed.

Lemma after_legacy_inv cfg name st :
  init_inv cfg st → init_inv cfg (after_legacy name st).
Proof.
  unfold init_inv, after_legacy. intros Hinv.
  destruct (legacy_fires name (i_config st)) eqn:Ef; [|done].
  apply legacy_fires_spec in Ef as [-> Hnone].
  cbn [i_config i_console]. inversion Hinv as [Hc Hcon|Habs Hc Hcon].
  - rewrite <- Hc in Hnone |- *.
    rewrite DictFacts.set_absent by done. by constructor.
  - rewrite <- Hc in Hnone.
    rewrite DictFacts.get_app_absent in Hnone by done.
    by simpl in Hnone.
Qed.

Lemma init_group_inv cfg name ps st :
  init_inv cfg st → init_inv cfg (init_group (name, ps) st).2.
Proof.
  intros Hinv. unfold init_inv.
  destruct (init_group_config name ps st) as [-> ->].
  by apply after_legacy_inv.
Qed.

Lemma for_each_init_inv cfg groups st :
  init_inv cfg st → init_inv cfg (for_each groups init_group st).2.
Proof.
  revert st. induction groups as [|[name ps] groups IH]; intros st Hinv; [done|].
  rewrite for_each_cons.
  pose proof (init_group_inv cfg name ps st Hinv) as Hinv'.
  destruct (init_group (name, ps) st) as [[[]|e] st']; [by apply IH | done].
Qed.

(** Whether a group builds is the same before and after the legacy
    branch. *)
Lemma legacy_outcome_builds cfg cfg' con g :
  legacy_outcome cfg cfg' con → group_builds cfg' g = group_builds cfg g.
Proof.
  intros [|Hnone]; [done|]. unfold group_builds.
  destruct (Dict.get g.1 cfg) as [e|] eqn:Eg.
  - assert (Dict.get g.1 (cfg ++ [("camera_opt", camera_opt_default)]) = Some e) as ->; [|done].
    clear Hnone. induction cfg as [|[k v] cfg IH]; [done|]. simpl in *.
    destruct (decide (k = g.1)); [done | by apply IH].
  - rewrite DictFacts.get_app_absent by done. simpl.
    destruct (decide ("camera_opt" = g.1)) as [<-|Hne].
    + by rewrite bool_decide_eq_true_2.
    + by rewrite bool_decide_eq_false_2.
Qed.

Lemma legacy_outcome_get cfg cfg' con name e :
  legacy_outcome cfg cfg' con → Dict.get name cfg = Some e →
  Dict.get name cfg' = Some e.
Proof.
  intros [|Hnone] Hget; [done|]. clear Hnone.
  induction cfg as [|[k v] cfg IH]; [done|]. simpl in *.
  destruct (decide (k = name)); [done | by apply IH].
Qed.

Lemma legacy_outcome_absent cfg cfg' con name :
  legacy_outcome cfg cfg' con → name ≠ "camera_opt" →
  Dict.get name cfg = None → Dict.get name cfg' = None.
Proof.
  intros [|Hnone] Hne Hget; [done|].
  rewrite DictFacts.get_app_absent by done. simpl.
  by rewrite decide_False.
Qed.

Lemma legacy_outcome_keys cfg cfg' con k :
  legacy_outcome cfg cfg' con → k ∈ Dict.keys cfg → k ∈ Dict.keys cfg'.
Proof.
  intros [|Hnone] Hin; [done|].
  unfold Dict.keys. rewrite fmap_app. apply elem_of_app. by left.
Qed.

Lemma after_legacy_builds name g st :
  group_builds (i_config (after_legacy name st)) g = group_builds (i_config st) g.
Proof.
  unfold after_legacy.
  destruct (legacy_fires name (i_config st)) eqn:Ef; [|done].
  apply legacy_fires_spec in Ef as [-> Hnone]. cbn [i_config].
  rewrite DictFacts.set_absent by done.
  apply (legacy_outcome_builds _ _ [camera_opt_warning]). by constructor.
Qed.

Lemma after_legacy_get name k st :
  Dict.get k (i_config (after_legacy name st)) =
  if legacy_fires name (i_config st) && bool_decide (k = "camera_opt")
  then Some camera_opt_default
  else Dict.get k (i_config st).
Proof.
  unfold after_legacy.
  destruct (legacy_fires name (i_config st)) eqn:Ef; [|done].
  cbn [i_config andb]. case_bool_decide as Hk.
  - subst k. apply DictFacts.get_set_eq.
  - by apply DictFacts.get_set_ne.
Qed.

(** After the legacy branch the group has the entry it builds from, if it
    has one at all. *)
Lemma after_legacy_entry name ps st :
  group_builds (i_config st) (name, ps) =
  match Dict.get name (i_config (after_legacy name st)) with
  | Some e => entry_builds e ps
  | None => false
  end.
Proof.
  rewrite after_legacy_get. unfold group_builds. cbn [fst snd].
  destruct (legacy_fires name (i_config st)) eqn:Ef; cbn [andb].
  - apply legacy_fires_spec in Ef as [-> Hnone].
    by rewrite Hnone, !bool_decide_eq_true_2.
  - destruct (Dict.get name (i_config st)) as [e|] eqn:Eg; [done|].
    case_bool_decide as Hn; [|done]. subst name.
    assert (legacy_fires "camera_opt" (i_config st) = true); [|congruence].
    by apply legacy_fires_spec.
Qed.

(** A group that builds is built; a group that does not makes the loop
    body raise. *)
Lemma init_group_builds name ps st :
  group_builds (i_config st) (name, ps) = true →
  ∃ e c opt,
    Dict.get name (i_config (after_legacy name st)) = Some e ∧
    e !! "optimizer" = Some (VOptimizer c) ∧
    setup c ps = Ok opt ∧
    ((e !! "scheduler" = Some VNone ∧
      init_group (name, ps) st =
        (Ok tt, after_optimizer name ps opt (after_legacy name st))) ∨
     (∃ sc, e !! "scheduler" = Some (VScheduler sc) ∧
      init_group (name, ps) st =
        (Ok tt, after_scheduler name c sc
                  (after_optimizer name ps opt (after_legacy name st))))).
Proof.
  intros Hr. rewrite init_group_eq. unfold init_group_cases.
  rewrite after_legacy_entry in Hr.
  destruct (Dict.get name (i_config (after_legacy name st))) as [e|] eqn:Eg; [|done].
  unfold entry_builds, entry_ready in Hr.
  destruct (e !! "optimizer") as [[|c|sc]|] eqn:Eo; try done.
  destruct (setup c ps) as [opt|ex] eqn:Eopt;
    [|by rewrite andb_false_r in Hr].
  destruct (e !! "scheduler") as [[|c'|sc']|] eqn:Es; try done.
  - exists e, c, opt. repeat split; try done. by left.
  - exists e, c, opt. repeat split; try done. right. by exists sc'.
Qed.

Lemma init_group_not_builds name ps st :
  group_builds (i_config st) (name, ps) = false →
  ∃ e, (init_group (name, ps) st).1 = Raise e.
Proof.
  intros Hr. rewrite init_group_eq. unfold init_group_cases.
  rewrite after_legacy_entry in Hr.
  destruct (Dict.get name (i_config (after_legacy name st))) as [e|]; [|by eauto].
  unfold entry_builds, entry_ready in Hr.
  destruct (e !! "optimizer") as [[|c|sc]|]; try by eauto.
  destruct (setup c ps) as [opt|ex]; [|by eauto].
  destruct (e !! "scheduler") as [[|c'|sc']|]; try done; by eauto.
Qed.

(** The loop returns normally exactly on groups that build. *)
Lemma for_each_init_builds cfg groups st :
  init_inv cfg st →
  Forall (λ g, group_builds cfg g = true) groups →
  ∃ st', for_each groups init_group st = (Ok tt, st') ∧ init_inv cfg st'.
Proof.
  revert st. induction groups as [|[name ps] groups IH]; intros st Hinv Hall.
  - by exists st.
  - apply Forall_cons in Hall as [Hr Hall].
    rewrite for_each_cons.
    pose proof (init_group_inv cfg name ps st Hinv) as Hinv'.
    rewrite <- (legacy_outcome_builds _ _ _ _ Hinv) in Hr.
    destruct (init_group_builds name ps st Hr)
      as (e & c & opt & _ & _ & _ & [[_ Hrun]|(sc & _ & Hrun)]);
      rewrite Hrun in Hinv' |- *; by apply IH.
Qed.

Lemma for_each_init_ok cfg groups st st' :
  init_inv cfg st →
  for_each groups init_group st = (Ok tt, st') →
  Forall (λ g, group_builds cfg g = true) groups.
Proof.
  revert st. induction groups as [|[name ps] groups IH]; intros st Hinv Hrun; [done|].
  rewrite for_each_cons in Hrun.
  pose proof (init_group_inv cfg name ps st Hinv) as Hinv'.
  destruct (group_builds cfg (name, ps)) eqn:Hr.
  - apply Forall_cons. split; [done|].
    destruct (init_group (name, ps) st) as [[[]|e] st1]; [by eapply IH | done].
  - rewrite <- (legacy_outcome_builds _ _ _ _ Hinv) in Hr.
    destruct (init_group_not_builds name ps st Hr) as [e He].
    destruct (init_group (name, ps) st) as [[[]|e'] st1]; simpl in *; congruence.
Qed.

Lemma init_start_inv cfg : init_inv cfg (init_start cfg).
Proof. constructor. Qed.


Lemma after_legacy_other name st :
  name ≠ "camera_opt" → after_legacy name st = st.
Proof.
  intros Hne. unfold after_legacy.
  destruct (legacy_fires name (i_config st)) eqn:Ef; [|done].
  by apply legacy_fires_spec in Ef as [? _].
Qed.

Lemma for_each_init_no_camera groups st :
  "camera_opt" ∉ Dict.keys groups →
  i_config (for_each groups init_group st).2 = i_config st ∧
  i_console (for_each groups init_group st).2 = i_console st.
Proof.
  revert st. induction groups as [|[name ps] groups IH]; intros st Hnin; [done|].
  unfold Dict.keys in Hnin. rewrite fmap_cons in Hnin.
  apply not_elem_of_cons in Hnin as [Hne Hnin]. simpl in Hne.
  rewrite for_each_cons.
  destruct (init_group_config name ps st) as [Hc Hcon].
  rewrite after_legacy_other in Hc, Hcon by done.
  destruct (init_group (name, ps) st) as [[[]|e] st']; simpl in *.
  - destruct (IH st' Hnin) as [-> ->]. by split.
  - by split.
Qed.

(** The loop body touches the objects of its own group only. *)
Lemma init_group_other k name ps st :
  name ≠ k →
  Dict.get k (i_optimizers (init_group (name, ps) st).2) = Dict.get k (i_optimizers st) ∧
  Dict.get k (i_schedulers (init_group (name, ps) st).2) = Dict.get k (i_schedulers st) ∧
  Dict.get k (i_parameters (init_group (name, ps) st).2) = Dict.get k (i_parameters st).
Proof.
  intros Hne. rewrite init_group_eq. unfold init_group_cases.
  assert (i_optimizers (after_legacy name st) = i_optimizers st ∧
          i_schedulers (after_legacy name st) = i_schedulers st ∧
          i_parameters (after_legacy name st) = i_parameters st) as (Ho & Hs & Hp).
  { unfold after_legacy. by destruct (legacy_fires name (i_config st)). }
  destruct (Dict.get name (i_config (after_legacy name st))) as [e|];
    [|cbn [snd]; by rewrite Ho, Hs, Hp].
  destruct (e !! "optimizer") as [[|c|sc]|];
    try (cbn [snd]; by rewrite Ho, Hs, Hp).
  destruct (setup c ps) as [opt|ex]; [|cbn [snd]; by rewrite Ho, Hs, Hp].
  destruct (e !! "scheduler") as [[|c'|sc']|];
    cbn [snd after_optimizer after_scheduler i_optimizers i_schedulers i_parameters];
    rewrite ?DictFacts.get_set_ne by done; by rewrite Ho, Hs, Hp.
Qed.

Lemma for_each_init_other k groups st :
  k ∉ Dict.keys groups →
  Dict.get k (i_optimizers (for_each groups init_group st).2) = Dict.get k (i_optimizers st) ∧
  Dict.get k (i_schedulers (for_each groups init_group st).2) = Dict.get k (i_schedulers st) ∧
  Dict.get k (i_parameters (for_each groups init_group st).2) = Dict.get k (i_parameters st).
Proof.
  revert st. induction groups as [|[name ps] groups IH]; intros st Hnin; [done|].
  unfold Dict.keys in Hnin. rewrite fmap_cons in Hnin.
  apply not_elem_of_cons in Hnin as [Hne Hnin]. simpl in Hne.
  rewrite for_each_cons.
  destruct (init_group_other k name ps st) as (Ho & Hs & Hp); [done|].
  destruct (init_group (name, ps) st) as [[[]|e] st']; simpl in *.
  - destruct (IH st' Hnin) as (-> & -> & ->). by rewrite Ho, Hs, Hp.
  - by rewrite Ho, Hs, Hp.
Qed.

Lemma init_unfold cfg groups :
  __init__ cfg groups =
  (match (for_each groups init_group (init_start cfg)).1 with
   | Ok _ => Ok (init_finish (for_each groups init_group (init_start cfg)).2)
   | Raise e => Raise e
   end,
   i_config (for_each groups init_group (init_start cfg)).2,
   i_console (for_each groups init_group (init_start cfg)).2).
Proof.
  unfold __init__. by destruct (for_each groups init_group (init_start cfg)).
Qed.

(** Construction returns a coordinator exactly when every group of the
    parameter mapping builds. *)
Lemma init_ok_iff_builds cfg groups :
  (∃ o, (__init__ cfg groups).1.1 = Ok o) ↔
  Forall (λ g, group_builds cfg g = true) groups.
Proof.
  rewrite init_unfold. cbn [fst]. split.
  - intros [o Ho].
    destruct (for_each groups init_group (init_start cfg)) as [[[]|e] st] eqn:E;
      [|done].
    eapply for_each_init_ok; [apply init_start_inv | done].
  - intros Hall.
    destruct (for_each_init_builds cfg groups (init_start cfg)) as (st & -> & _);
      [apply init_start_inv | done |]. by eexists.
Qed.

Lemma init_legacy_outcome cfg groups :
  legacy_outcome cfg (__init__ cfg groups).1.2 (__init__ cfg groups).2.
Proof.
  rewrite init_unfold. cbn [fst snd].
  apply (for_each_init_inv cfg groups (init_start cfg)), init_start_inv.
Qed.

(** The state in which the loop reaches a group after groups that
    build. *)
Lemma init_reaches cfg pre item post :
  Forall (λ g, group_builds cfg g = true) pre →
  ∃ st, init_inv cfg st ∧
        for_each pre init_group (init_start cfg) = (Ok tt, st) ∧
        for_each (pre ++ item :: post) init_group (init_start cfg) =
        match init_group item st with
        | (Ok _, st') => for_each post init_group st'
        | (Raise e, st') => (Raise e, st')
        end.
Proof.
  intros Hpre.
  destruct (for_each_init_builds cfg pre (init_start cfg)) as (st & Hrun & Hinv);
    [apply init_start_inv | done |].
  exists st. split; [done|]. split; [done|].
  by rewrite for_each_app, Hrun, for_each_cons.
Qed.


Lemma init_result_cases cfg groups :
  (∃ o cfg' con, __init__ cfg groups = (Ok o, cfg', con) ∧ config o = cfg') ∨
  (∃ e cfg' con, __init__ cfg groups = (Raise e, cfg', con)).
Proof.
  rewrite init_unfold.
  destruct (for_each groups init_group (init_start cfg)) as [[[]|e] st];
    cbn [fst snd]; [left | right]; by repeat eexists.
Qed.

Lemma unconfigured_not_builds cfg name ps :
  name ≠ "camera_opt" → Dict.get name cfg = None →
  group_builds cfg (name, ps) = false.
Proof.
  intros Hne Hget. unfold group_builds. cbn [fst snd]. rewrite Hget.
  by rewrite bool_decide_eq_false_2.
Qed.

(** Construction stops at the first group that does not build: its outcome
    is the one of construction on the parameter mapping cut after that
    group. *)
Lemma init_stops_at_first_failure cfg pre g0 rest :
  Forall (λ g, group_builds cfg g = true) pre →
  group_builds cfg g0 = false →
  __init__ cfg (pre ++ g0 :: rest) = __init__ cfg (pre ++ [g0]) ∧
  ∃ e cfg' con, __init__ cfg (pre ++ [g0]) = (Raise e, cfg', con).
Proof.
  intros Hpre Hg0.
  destruct (for_each_init_builds cfg pre (init_start cfg)) as (st & Hrun & Hinv);
    [apply init_start_inv | done |].
  rewrite <- (legacy_outcome_builds _ _ _ _ Hinv) in Hg0.
  destruct g0 as [n0 ps0].
  destruct (init_group_not_builds n0 ps0 st Hg0) as [e He].
  rewrite !init_unfold, !for_each_app, Hrun, !for_each_cons.
  destruct (init_group (n0, ps0) st) as [[[]|e'] st1]; cbn [fst] in He; [done|].
  split; [done|]. cbn [fst snd]. by eexists _, _, _.
Qed.

(** C1, as amended.  A group other than 'camera_opt' that is in the
    parameter mapping and not in the configuration makes construction
    raise: no coordinator is ever returned.  When every group before it in
    the parameter mapping builds, so that the loop reaches it, the
    exception is the [RuntimeError] whose message names the group and lists
    the keys of the configuration as it stands, which include every key the
    caller configured; otherwise the loop has stopped before, at the first
    group that does not build, and later groups, configured or not, have no
    part in the outcome. *)
Theorem C1_unconfigured_group_raises cfg groups name :
  name ∈ Dict.keys groups →
  name ≠ "camera_opt" →
  Dict.get name cfg = None →
  (∃ e cfg' con, __init__ cfg groups = (Raise e, cfg', con)) ∧
  (∀ pre ps post,
     groups = pre ++ (name, ps) :: post →
     Forall (λ g, group_builds cfg g = true) pre →
     ∃ cfg' con,
       __init__ cfg groups =
         (Raise (RuntimeError (not_found name (Dict.keys cfg'))), cfg', con) ∧
       FStr name ∈ not_found name (Dict.keys cfg') ∧
       FKeys (Dict.keys cfg') ∈ not_found name (Dict.keys cfg') ∧
       (∀ k, k ∈ Dict.keys cfg → k ∈ Dict.keys cfg')) ∧
  (∀ pre g0 rest,
     groups = pre ++ g0 :: rest →
     Forall (λ g, group_builds cfg g = true) pre →
     group_builds cfg g0 = false →
     __init__ cfg groups = __init__ cfg (pre ++ [g0])).
Proof.
  intros Hin Hne Hget. split; [|split].
  3: { intros pre g0 rest -> Hpre Hg0.
       by apply init_stops_at_first_failure. }
  - destruct (init_result_cases cfg groups) as [(o & cfg' & con & Hrun & _)|Hr];
      [|done].
    assert (Forall (λ g, group_builds cfg g = true) groups) as Hall.
    { apply init_ok_iff_builds. exists o. by rewrite Hrun. }
    unfold Dict.keys in Hin. apply list_elem_of_fmap in Hin as ([n ps] & -> & Hin).
    rewrite Forall_forall in Hall. specialize (Hall _ Hin). simpl in *.
    by rewrite unconfigured_not_builds in Hall.
  - intros pre ps post -> Hpre.
    destruct (init_reaches cfg pre (name, ps) post Hpre) as (st & Hinv & _ & Hrun).
    rewrite init_unfold, Hrun, init_group_eq. unfold init_group_cases.
    rewrite after_legacy_other by done.
    rewrite (legacy_outcome_absent _ _ _ _ Hinv Hne Hget). cbn [fst snd].
    exists (i_config st), (i_console st). split; [done|].
    split; [unfold not_found; repeat constructor|].
    split; [unfold not_found; repeat constructor|].
    intros k. by apply (legacy_outcome_keys _ _ _ _ Hinv).
Qed.

(** C9. Construction either takes the legacy branch, and then the caller's
    configuration has gained the 'camera_opt' entry at its end, differs from
    what was passed, and the warning was printed once; or it leaves the
    configuration as it was and prints nothing.  A coordinator that is
    returned holds that same dictionary. *)
Theorem C9_config_mutated_only_by_legacy cfg groups :
  let '(r, cfg', con) := __init__ cfg groups in
  ((con = [camera_opt_warning] ∧
    Dict.get "camera_opt" cfg = None ∧
    "camera_opt" ∈ Dict.keys groups ∧
    cfg' = Dict.set "camera_opt" camera_opt_default cfg ∧
    cfg' = cfg ++ [("camera_opt", camera_opt_default)] ∧
    cfg' ≠ cfg)
   ∨ (con = [] ∧ cfg' = cfg)) ∧
  (∀ o, r = Ok o → config o = cfg').
Proof.
  pose proof (init_legacy_outcome cfg groups) as Hout.
  destruct (decide ("camera_opt" ∈ Dict.keys groups)) as [Hin|Hnin].
  2: { pose proof (for_each_init_no_camera groups (init_start cfg) Hnin) as [Hc Hcon].
       rewrite init_unfold in Hout |- *. cbn [fst snd] in *.
       split; [right; by rewrite Hc, Hcon|].
       destruct ((for_each groups init_group (init_start cfg)).1); [|done].
       by intros o [= <-]. }
  destruct (init_result_cases cfg groups) as [(o & cfg' & con & Hrun & Ho)|(e & cfg' & con & Hrun)];
    rewrite Hrun in Hout |- *; cbn [fst snd] in Hout.
  all: split; [|intros o' Ho'; by simplify_eq].
  all: inversion Hout as [Hc Hcon|Hnone Hc Hcon]; [by right|left].
  all: rewrite DictFacts.set_absent by done; repeat split; try done.
  all: intros Heq; apply (f_equal length) in Heq; rewrite length_app in Heq;
       simpl in Heq; lia.
Qed.


Lemma after_legacy_get_mono name k e st :
  Dict.get k (i_config st) = Some e →
  Dict.get k (i_config (after_legacy name st)) = Some e.
Proof.
  intros Hget. rewrite after_legacy_get.
  destruct (legacy_fires name (i_config st)) eqn:Ef; [|done].
  apply legacy_fires_spec in Ef as [_ Hnone].
  cbn [andb]. case_bool_decide; [congruence | done].
Qed.

Lemma for_each_init_get_mono groups k e st :
  Dict.get k (i_config st) = Some e →
  Dict.get k (i_config (for_each groups init_group st).2) = Some e.
Proof.
  revert st. induction groups as [|[name ps] groups IH]; intros st Hget; [done|].
  rewrite for_each_cons.
  destruct (init_group_config name ps st) as [Hc _].
  apply (after_legacy_get_mono name) in Hget. rewrite <- Hc in Hget.
  destruct (init_group (name, ps) st) as [[[]|ex] st']; [by apply IH | done].
Qed.

Lemma init_group_ok_entry name ps st st' :
  init_group (name, ps) st = (Ok tt, st') →
  ∃ e, Dict.get name (i_config st') = Some e ∧ entry_ready e = true.
Proof.
  intros Hrun. destruct (init_group_config name ps st) as [Hc _].
  rewrite Hrun in Hc. cbn [snd] in Hc. rewrite Hc.
  rewrite init_group_eq in Hrun. unfold init_group_cases, entry_ready in *.
  destruct (Dict.get name (i_config (after_legacy name st))) as [e|]; [|done].
  exists e. split; [done|].
  destruct (e !! "optimizer") as [[|c|sc]|]; try done.
  destruct (setup c ps) as [opt|ex]; [|done].
  by destruct (e !! "scheduler") as [[|c'|sc']|].
Qed.

Lemma for_each_init_ok_entries groups st st' :
  for_each groups init_group st = (Ok tt, st') →
  ∀ name, name ∈ Dict.keys groups →
    ∃ e, Dict.get name (i_config st') = Some e ∧ entry_ready e = true.
Proof.
  revert st. induction groups as [|[n ps] groups IH]; intros st Hrun name Hin.
  - by apply elem_of_nil in Hin.
  - rewrite for_each_cons in Hrun.
    destruct (init_group (n, ps) st) as [[[]|ex] st1] eqn:E1; [|done].
    unfold Dict.keys in Hin. rewrite fmap_cons in Hin.
    apply elem_of_cons in Hin as [->|Hin]; [|by eapply IH].
    destruct (init_group_ok_entry _ _ _ _ E1) as (e & Hget & Hr).
    exists e. split; [|done].
    apply (for_each_init_get_mono groups) in Hget. by rewrite Hrun in Hget.
Qed.

Lemma entry_ready_scheduler e : entry_ready e = true → is_Some (e !! "scheduler").
Proof.
  unfold entry_ready. destruct (e !! "optimizer") as [[|c|sc]|]; try done.
  destruct (e !! "scheduler"); [by eauto | done].
Qed.

Lemma no_scheduler_not_builds cfg name ps e :
  Dict.get name cfg = Some e → e !! "scheduler" = None →
  group_builds cfg (name, ps) = false.
Proof.
  intros Hget Hs. unfold group_builds, entry_builds, entry_ready.
  cbn [fst snd]. rewrite Hget, Hs.
  by destruct (e !! "optimizer") as [[|c|sc]|].
Qed.

Lemma built_groups_have_scheduler_key cfg groups o cfg' con :
  __init__ cfg groups = (Ok o, cfg', con) →
  ∀ name, name ∈ Dict.keys groups →
    ∃ e, Dict.get name cfg' = Some e ∧ is_Some (e !! "scheduler").
Proof.
  intros Hrun name Hin. rewrite init_unfold in Hrun.
  destruct (for_each groups init_group (init_start cfg)) as [[[]|ex] st] eqn:E;
    cbn [fst snd] in Hrun; [|done].
  injection Hrun as _ <- _.
  destruct (for_each_init_ok_entries _ _ _ E name Hin) as (e & Hget & Hr).
  exists e. split; [done | by apply entry_ready_scheduler].
Qed.

(** C10, as amended.  A coordinator is returned only if the entry of
    every group of the parameter mapping has a "scheduler" key.  An entry
    with an optimizer config and no "scheduler" key makes construction
    raise: no coordinator, so no optimizer-only group, is returned.  When
    every group before it builds, so that the loop reaches the group, the
    optimizer is set up first: if its constructor returns, the read of the
    key raises the lookup error [KeyError "scheduler"], the optimizer being
    stored already; if its constructor raises, that exception is the one of
    construction and the key is not read.  When a group before it does not
    build, the loop stops there and the entry has no part in the
    outcome. *)
Theorem C10_scheduler_key_required cfg groups :
  (∀ o cfg' con,
     __init__ cfg groups = (Ok o, cfg', con) →
     ∀ name, name ∈ Dict.keys groups →
       ∃ e, Dict.get name cfg' = Some e ∧ is_Some (e !! "scheduler")) ∧
  (∀ name e c,
     name ∈ Dict.keys groups →
     Dict.get name cfg = Some e →
     e !! "optimizer" = Some (VOptimizer c) →
     e !! "scheduler" = None →
     (∃ ex cfg' con, __init__ cfg groups = (Raise ex, cfg', con)) ∧
     (∀ pre ps post,
        groups = pre ++ (name, ps) :: post →
        Forall (λ g, group_builds cfg g = true) pre →
        match setup c ps with
        | Ok opt =>
            ∃ cfg' con,
              __init__ cfg groups = (Raise (KeyError "scheduler"), cfg', con)
        | Raise ex =>
            ∃ cfg' con, __init__ cfg groups = (Raise ex, cfg', con)
        end)) ∧
  (∀ pre g0 rest,
     groups = pre ++ g0 :: rest →
     Forall (λ g, group_builds cfg g = true) pre →
     group_builds cfg g0 = false →
     __init__ cfg groups = __init__ cfg (pre ++ [g0])).
Proof.
  split; [|split].
  3: { intros pre g0 rest -> Hpre Hg0.
       by apply init_stops_at_first_failure. }
  - intros o cfg' con. apply built_groups_have_scheduler_key.
  - intros name e c Hin Hget Ho Hs. split.
    + destruct (init_result_cases cfg groups) as [(o & cfg' & con & Hrun & _)|Hr];
        [|done].
      assert (Forall (λ g, group_builds cfg g = true) groups) as Hall.
      { apply init_ok_iff_builds. exists o. by rewrite Hrun. }
      unfold Dict.keys in Hin. apply list_elem_of_fmap in Hin as ([n ps] & -> & Hin).
      rewrite Forall_forall in Hall. specialize (Hall _ Hin). simpl in *.
      by rewrite (no_scheduler_not_builds _ _ _ _ Hget Hs) in Hall.
    + intros pre ps post -> Hpre.
      destruct (init_reaches cfg pre (name, ps) post Hpre) as (st & Hinv & _ & Hrun).
      rewrite init_unfold, Hrun, init_group_eq. unfold init_group_cases.
      pose proof (legacy_outcome_get _ _ _ _ _ Hinv Hget) as Hget'.
      rewrite (after_legacy_get_mono name _ _ _ Hget'), Ho.
      destruct (setup c ps) as [opt|ex]; [rewrite Hs|]; cbn [fst snd];
        by eexists _, _.
Qed.

(** C2, as amended.  When 'camera_opt' is in the parameter mapping and not
    in the configuration, every other group of the parameter mapping builds
    and the constructor of Adam accepts the default arguments and the
    parameter list of 'camera_opt', construction returns a coordinator; the
    configuration has gained the default entry, the optimizer of the group
    is the Adam that constructor returns for learning rate 1e-3 on the
    group's parameters, its scheduler is the exponential decay to 1e-4 over
    30000 steps started from 1e-3, and the warning was printed exactly
    once. *)
Theorem C2_camera_opt_default cfg pre ps post opt :
  Dict.get "camera_opt" cfg = None →
  "camera_opt" ∉ Dict.keys pre →
  "camera_opt" ∉ Dict.keys post →
  Forall (λ g, group_builds cfg g = true) pre →
  Forall (λ g, group_builds cfg g = true) post →
  setup (AdamOptimizerConfig 1e-3 1e-15 None) ps = Ok opt →
  ∃ o,
    __init__ cfg (pre ++ ("camera_opt", ps) :: post) =
      (Ok o, cfg ++ [("camera_opt", camera_opt_default)], [camera_opt_warning]) ∧
    Dict.get "camera_opt" (config o) = Some camera_opt_default ∧
    camera_opt_default !! "optimizer" =
      Some (VOptimizer (AdamOptimizerConfig 1e-3 1e-15 None)) ∧
    camera_opt_default !! "scheduler" =
      Some (VScheduler (ExponentialDecaySchedulerConfig 1e-4 30000)) ∧
    Dict.get "camera_opt" (optimizers o) = Some opt ∧
    h_target (o_hyper opt) = Adam ∧
    h_lr (o_hyper opt) = 1e-3%float ∧
    param_groups opt = [ps] ∧
    Dict.get "camera_opt" (schedulers o) =
      Some (get_scheduler (ExponentialDecaySchedulerConfig 1e-4 30000) 1e-3).
Proof.
  intros Hnone Hpre_nin Hpost_nin Hpre Hpost Hopt.
  destruct (init_reaches cfg pre ("camera_opt", ps) post Hpre) as (st & Hinv & Hrun_pre & Hrun).
  destruct (for_each_init_no_camera pre (init_start cfg) Hpre_nin) as [Hc Hcon].
  rewrite Hrun_pre in Hc, Hcon. cbn [snd init_start i_config i_console] in Hc, Hcon.
  assert (legacy_fires "camera_opt" (i_config st) = true) as Hfire.
  { apply legacy_fires_spec. by rewrite Hc. }
  assert (init_group ("camera_opt", ps) st =
          (Ok tt, after_scheduler "camera_opt" (AdamOptimizerConfig 1e-3 1e-15 None)
                    (ExponentialDecaySchedulerConfig 1e-4 30000)
                    (after_optimizer "camera_opt" ps opt
                       (after_legacy "camera_opt" st)))) as Hcam.
  { rewrite init_group_eq. unfold init_group_cases.
    rewrite after_legacy_get, Hfire. cbn [andb].
    rewrite bool_decide_eq_true_2 by done.
    assert (camera_opt_default !! "optimizer" =
            Some (VOptimizer (AdamOptimizerConfig 1e-3 1e-15 None))) as -> by done.
    rewrite Hopt.
    by assert (camera_opt_default !! "scheduler" =
               Some (VScheduler (ExponentialDecaySchedulerConfig 1e-4 30000))) as -> by done. }
  rewrite Hcam in Hrun.
  set (st1 := after_scheduler _ _ _ _) in *.
  assert (init_inv cfg st1) as Hinv1.
  { pose proof (init_group_inv cfg "camera_opt" ps st Hinv) as Hi.
    by rewrite Hcam in Hi. }
  destruct (for_each_init_builds cfg post st1 Hinv1 Hpost) as (st2 & Hrun2 & _).
  destruct (for_each_init_no_camera post st1 Hpost_nin) as [Hc2 Hcon2].
  destruct (for_each_init_other "camera_opt" post st1 Hpost_nin) as (Ho2 & Hs2 & _).
  rewrite Hrun2 in Hc2, Hcon2, Ho2, Hs2. cbn [snd] in Hc2, Hcon2, Ho2, Hs2.
  assert (i_config st1 = cfg ++ [("camera_opt", camera_opt_default)]) as Hc1.
  { subst st1. cbn [after_scheduler after_optimizer i_config].
    unfold after_legacy. rewrite Hfire. cbn [i_config].
    rewrite Hc. by apply DictFacts.set_absent. }
  assert (i_console st1 = [camera_opt_warning]) as Hcon1.
  { subst st1. cbn [after_scheduler after_optimizer i_console].
    unfold after_legacy. rewrite Hfire. cbn [i_console]. by rewrite Hcon. }
  exists (init_finish st2).
  rewrite init_unfold, Hrun, Hrun2. cbn [fst snd].
  rewrite Hc2, Hcon2, Hc1, Hcon1. split; [done|].
  cbn [init_finish config optimizers schedulers]. rewrite Hc2, Hc1, Ho2, Hs2.
  split. { rewrite DictFacts.get_app_absent by done. reflexivity. }
  split; [reflexivity|]. split; [reflexivity|].
  subst st1. cbn [after_scheduler after_optimizer i_optimizers i_schedulers].
  rewrite !DictFacts.get_set_eq. split; [done|].
  unfold setup in Hopt.
  destruct (optim_new _ ps) as [st0|ex]; [|done]. by injection Hopt as <-.
Qed.

End Construction.

(** ** Witnesses and counterexamples for construction *)

Ltac in_keys :=
  unfold Dict.keys; csimpl;
  repeat first [ apply list_elem_of_here | apply list_elem_of_further ].

Ltac not_in_keys :=
  unfold Dict.keys; csimpl;
  repeat (apply not_elem_of_cons; split; [discriminate|]);
  apply not_elem_of_nil.

Lemma field_builds :
  Forall (λ g, group_builds (H:=Reference.torch) [("field", field_entry)] g = true)
         [("field", [0; 1])].
Proof. apply Forall_cons. split; [reflexivity | apply Forall_nil_2]. Qed.

Lemma C1_witness :
  "pose" ∈ Dict.keys [("field", [0; 1]); ("pose", [2])] ∧
  "pose" ≠ "camera_opt" ∧
  Dict.get "pose" [("field", field_entry)] = None ∧
  Forall (λ g, group_builds (H:=Reference.torch) [("field", field_entry)] g = true)
         [("field", [0; 1])] ∧
  ∃ cfg' con,
    @__init__ Reference.torch [("field", field_entry)] [("field", [0; 1]); ("pose", [2])] =
      (Raise (RuntimeError (not_found "pose" (Dict.keys cfg'))), cfg', con).
Proof.
  assert ("pose" ∈ Dict.keys [("field", [0; 1]); ("pose", [2])]) as H1 by in_keys.
  assert ("pose" ≠ "camera_opt") as H2 by discriminate.
  assert (Dict.get "pose" [("field", field_entry)] = None) as H3 by reflexivity.
  pose proof field_builds as H4.
  repeat (split; [assumption|]).
  destruct (C1_unconfigured_group_raises (H:=Reference.torch)
              [("field", field_entry)] [("field", [0; 1]); ("pose", [2])] "pose"
              H1 H2 H3) as (_ & Hb & _).
  destruct (Hb [("field", [0; 1])] [2] [] eq_refl H4) as (cfg' & con & Hrun & _).
  exists cfg', con. exact Hrun.
Defined.

(** C1, as stated, fails: the group "pose" is in the parameter mapping and
    not in the configuration, and construction raises the lookup error of
    line 118 for the group "field" before it, whose entry has no "scheduler"
    key; no setup error naming "pose" is raised. *)
Lemma C1_counterexample :
  "pose" ∈ Dict.keys [("field", [0; 1]); ("pose", [2])] ∧
  "pose" ≠ "camera_opt" ∧
  Dict.get "pose" [("field", optimizer_only_entry)] = None ∧
  @__init__ Reference.torch [("field", optimizer_only_entry)]
    [("field", [0; 1]); ("pose", [2])] =
    (Raise (KeyError "scheduler"), [("field", optimizer_only_entry)], []).
Proof.
  split; [in_keys|]. split; [discriminate|]. split; reflexivity.
Qed.

(** C2, as stated, fails: with a second group that has no configuration
    entry construction raises, after the default was synthesized or, with
    the groups in the other order, before the legacy branch is reached. *)
Lemma C2_counterexample :
  ("camera_opt" ∈ Dict.keys [("camera_opt", [0]); ("pose", [1])] ∧
   Dict.get "camera_opt" ([] : dict entry) = None ∧
   @__init__ Reference.torch [] [("camera_opt", [0]); ("pose", [1])] =
     (Raise (RuntimeError (not_found "pose" ["camera_opt"])),
      [("camera_opt", camera_opt_default)], [camera_opt_warning])) ∧
  ("camera_opt" ∈ Dict.keys [("pose", [1]); ("camera_opt", [0])] ∧
   @__init__ Reference.torch [] [("pose", [1]); ("camera_opt", [0])] =
     (Raise (RuntimeError (not_found "pose" [])), [], [])).
Proof.
  repeat split; try reflexivity; in_keys.
Qed.

Lemma C2_witness :
  Dict.get "camera_opt" [("field", field_entry)] = None ∧
  ("camera_opt" ∉ Dict.keys [("field", [0; 1])]) ∧
  Forall (λ g, group_builds (H:=Reference.torch) [("field", field_entry)] g = true)
         [("field", [0; 1])] ∧
  ∃ opt,
    setup (H:=Reference.torch) (AdamOptimizerConfig 1e-3 1e-15 None) [2] = Ok opt ∧
    ∃ o,
      @__init__ Reference.torch [("field", field_entry)]
        [("field", [0; 1]); ("camera_opt", [2])] =
        (Ok o, [("field", field_entry); ("camera_opt", camera_opt_default)],
         [camera_opt_warning]) ∧
      Dict.get "camera_opt" (optimizers o) = Some opt ∧
      h_lr (o_hyper opt) = 1e-3%float ∧
      Dict.get "camera_opt" (schedulers o) =
        Some (get_scheduler (ExponentialDecaySchedulerConfig 1e-4 30000) 1e-3).
Proof.
  assert (Dict.get "camera_opt" [("field", field_entry)] = None) as H1 by reflexivity.
  assert ("camera_opt" ∉ Dict.keys [("field", [0; 1])]) as H2 by not_in_keys.
  assert ("camera_opt" ∉ Dict.keys ([] : dict (list tid))) as H3 by not_in_keys.
  pose proof field_builds as H4.
  repeat (split; [assumption|]).
  eexists. split; [reflexivity|].
  destruct (C2_camera_opt_default (H:=Reference.torch)
              [("field", field_entry)] [("field", [0; 1])] [2] [] _
              H1 H2 H3 H4 (Forall_nil_2 _) eq_refl)
    as (o & Hrun & _ & _ & _ & Ho & _ & Hlr & _ & Hs).
  exists o. repeat split; assumption.
Defined.

Lemma C10_witness :
  (∃ e, Dict.get "field" [("field", field_entry)] = Some e ∧
        is_Some (e !! "scheduler")) ∧
  ∃ cfg' con,
    @__init__ Reference.torch [("field", optimizer_only_entry)] [("field", [0; 1])] =
      (Raise (KeyError "scheduler"), cfg', con).
Proof.
  split.
  - destruct (C10_scheduler_key_required (H:=Reference.torch)
                [("field", field_entry)] [("field", [0; 1])]) as [Ha _].
    refine (Ha _ _ _ eq_refl "field" _). in_keys.
  - destruct (C10_scheduler_key_required (H:=Reference.torch)
                [("field", optimizer_only_entry)] [("field", [0; 1])]) as (_ & Hb & _).
    assert ("field" ∈ Dict.keys [("field", [0; 1])]) as H1 by in_keys.
    destruct (Hb "field" optimizer_only_entry (AdamOptimizerConfig 0.0005 1e-08 None)
                H1 eq_refl eq_refl eq_refl) as [_ Hc].
    exact (Hc [] [0; 1] [] eq_refl (Forall_nil_2 _)).
Defined.

(** C10, as stated, fails: the entry of "field" has an optimizer config
    and no "scheduler" key, and construction does not fail with a lookup
    error.  With the unconfigured group "pose" before it, construction
    raises the setup error of lines 111 to 114 and never reads the key; with
    an empty parameter list for "field" itself, the constructor of the
    optimizer raises at line 116, before the key is read at line 118. *)
Lemma C10_counterexample :
  optimizer_only_entry !! "optimizer" =
    Some (VOptimizer (AdamOptimizerConfig 0.0005 1e-08 None)) ∧
  optimizer_only_entry !! "scheduler" = None ∧
  @__init__ Reference.torch [("field", optimizer_only_entry)]
    [("pose", [2]); ("field", [0; 1])] =
    (Raise (RuntimeError (not_found "pose" ["field"])),
     [("field", optimizer_only_entry)], []) ∧
  @__init__ Reference.torch [("field", optimizer_only_entry)] [("field", [])] =
    (Raise (ValueError [Lit "optimizer got an empty parameter list"]),
     [("field", optimizer_only_entry)], []).
Proof. repeat split; reflexivity. Qed.

(** ** The methods: frames and traces *)

Section Methods.
Context `{Torch}.

Lemma write_lookup_notin ps ts (h : gmap tid Tensor) t :
  t ∉ ps → write ps ts h !! t = h !! t.
Proof.
  unfold write. revert ts. induction ps as [|p ps IH]; intros ts Hnin; [done|].
  apply not_elem_of_cons in Hnin as [Hne Hnin].
  destruct ts as [|x ts]; [done|]. simpl.
  rewrite lookup_insert_ne by done. by apply IH.
Qed.

Lemma frame_refl named touched w : frame named touched w w.
Proof. by constructor. Qed.

Lemma frame_trans named touched w1 w2 w3 :
  frame named touched w1 w2 → frame named touched w2 w3 →
  frame named touched w1 w3.
Proof.
  intros [Hc1 Hp1 Hs1 Hk1 Hg1 Ho1 Hh1] [Hc2 Hp2 Hs2 Hk2 Hg2 Ho2 Hh2].
  constructor.
  - by rewrite Hc2.
  - by rewrite Hp2.
  - by rewrite Hs2.
  - by rewrite Hk2.
  - intros g. by rewrite Hg2, Hg1.
  - intros g Hg. by rewrite Ho2, Ho1.
  - intros t Ht. by rewrite Hh2, Hh1.
Qed.

Lemma frame_mono (named named' : string → Prop) (touched touched' : tid → Prop) w w' :
  (∀ g, named g → named' g) → (∀ t, touched t → touched' t) →
  frame named touched w w' → frame named' touched' w w'.
Proof. intros HN HT []. constructor; auto. Qed.

Lemma frame_coordinator_ok named touched w w' :
  frame named touched w w' → coordinator_ok (self w) → coordinator_ok (self w').
Proof.
  intros [Hc Hp _ Hk _ _ _] Hok g Hg. rewrite Hc, Hp. apply Hok. by rewrite <- Hk.
Qed.

(** Mutating the state of the optimizer of a group. *)
Lemma mutate_state_frame g st w touched :
  frame (eq g) touched w (mutate_optimizer g (with_state st) w).2.
Proof.
  constructor; try done; cbn.
  - apply DictFacts.keys_alter.
  - intros g'. destruct (decide (g = g')) as [<-|Hne].
    + rewrite DictFacts.get_alter_eq. by destruct (Dict.get g _).
    + by rewrite DictFacts.get_alter_ne.
  - intros g' Hne. by apply DictFacts.get_alter_ne.
Qed.

Lemma getitem_Some {V} g (d : dict V) v : Dict.get g d = Some v → getitem g d = Ok v.
Proof. unfold getitem. by intros ->. Qed.

Lemma getitem_None {V} g (d : dict V) :
  Dict.get g d = None → getitem g d = Raise (KeyError g).
Proof. unfold getitem. by intros ->. Qed.

Lemma call_step_spec g o w :
  ∃ w', call_step g o w = (Ok tt, w') ∧
        trace w' = trace w ++ [EStep g] ∧
        grad_scaler w' = grad_scaler w ∧
        frame (eq g) (λ t, t ∈ tensors_of o) w w'.
Proof.
  unfold call_step, set_heap, emit.
  cbv [mbind M_bind mret M_ret gets modify].
  destruct (optim_step _ _ _) as [st ts]. eexists. split; [done|].
  split; [done|]. split; [done|].
  constructor; try done; cbn.
  - apply DictFacts.keys_alter.
  - intros g'. destruct (decide (g = g')) as [<-|Hne].
    + rewrite DictFacts.get_alter_eq. by destruct (Dict.get g _).
    + by rewrite DictFacts.get_alter_ne.
  - intros g' Hne. by apply DictFacts.get_alter_ne.
  - intros t Ht. by apply write_lookup_notin.
Qed.

Lemma call_zero_grad_spec g o w :
  ∃ w', call_zero_grad g o w = (Ok tt, w') ∧
        trace w' = trace w ++ [EZeroGrad g] ∧
        self w' = self w ∧ grad_scaler w' = grad_scaler w ∧
        frame (eq g) (λ t, t ∈ tensors_of o) w w'.
Proof.
  unfold call_zero_grad, set_heap, emit.
  cbv [mbind M_bind mret M_ret gets modify].
  eexists. split; [done|]. do 3 (split; [done|]).
  constructor; try done; cbn.
  intros t Ht. by apply write_lookup_notin.
Qed.

Lemma call_clip_spec g ps m w :
  ∃ w', call_clip_grad_norm_ g ps m w = (Ok tt, w') ∧
        trace w' = trace w ++ [EClip g ps m] ∧
        self w' = self w ∧ grad_scaler w' = grad_scaler w ∧
        frame (eq g) (λ t, t ∈ ps) w w'.
Proof.
  unfold call_clip_grad_norm_, set_heap, emit.
  cbv [mbind M_bind mret M_ret gets modify].
  eexists. split; [done|]. do 3 (split; [done|]).
  constructor; try done; cbn.
  intros t Ht. by apply write_lookup_notin.
Qed.

Lemma call_unscale_spec g o w :
  ∃ w', call_unscale_ g o w = (Ok tt, w') ∧
        trace w' = trace w ++ [EUnscale g] ∧
        self w' = self w ∧
        frame (eq g) (λ t, t ∈ tensors_of o) w w'.
Proof.
  unfold call_unscale_, set_heap, set_grad_scaler, emit.
  cbv [mbind M_bind mret M_ret gets modify].
  destruct (scaler_unscale_ _ _) as [sc ts]. eexists. split; [done|].
  do 2 (split; [done|]).
  constructor; try done; cbn.
  intros t Ht. by apply write_lookup_notin.
Qed.

Lemma call_scaler_step_spec g o w :
  ∃ w', call_scaler_step g o w = (Ok tt, w') ∧
        trace w' = trace w ++ [EScalerStep g] ∧
        frame (eq g) (λ t, t ∈ tensors_of o) w w'.
Proof.
  unfold call_scaler_step, set_heap, set_grad_scaler, emit.
  cbv [mbind M_bind mret M_ret gets modify].
  destruct (scaler_step _ _ _ _) as [[sc st] ts]. eexists. split; [done|].
  split; [done|].
  constructor; try done; cbn.
  - apply DictFacts.keys_alter.
  - intros g'. destruct (decide (g = g')) as [<-|Hne].
    + rewrite DictFacts.get_alter_eq. by destruct (Dict.get g _).
    + by rewrite DictFacts.get_alter_ne.
  - intros g' Hne. by apply DictFacts.get_alter_ne.
  - intros t Ht. by apply write_lookup_notin.
Qed.

Lemma self_optimizers_getitem_eq g w :
  self_optimizers_getitem g w = (getitem g (optimizers (self w)), w).
Proof. reflexivity. Qed.

Lemma self_parameters_getitem_eq g w :
  self_parameters_getitem g w = (getitem g (parameters (self w)), w).
Proof. reflexivity. Qed.

Lemma self_schedulers_getitem_eq g w :
  self_schedulers_getitem g w = (getitem g (schedulers (self w)), w).
Proof. reflexivity. Qed.

Lemma bind_eq {S A B} (m : M S A) (f : A → M S B) s :
  (m ≫= f) s = match m s with
               | (Ok a, s') => f a s'
               | (Raise e, s') => (Raise e, s')
               end.
Proof. reflexivity. Qed.

Lemma self_config_max_norm_ok g w :
  coordinator_ok (self w) → g ∈ Dict.keys (optimizers (self w)) →
  self_config_max_norm g w = (Ok (max_norm_of (self w) g), w).
Proof.
  intros Hok Hg. destruct (Hok g Hg) as [(e & c & Hget & Ho) _].
  unfold self_config_max_norm, max_norm_of.
  cbv [mbind M_bind mret M_ret gets modify lift].
  unfold getitem, entry_getitem. by rewrite Hget, Ho.
Qed.


Lemma self_config_max_norm_state g w : (self_config_max_norm g w).2 = w.
Proof.
  unfold self_config_max_norm. cbv [mbind M_bind mret M_ret gets modify lift].
  destruct (getitem g (config (self w))) as [e|]; [|done].
  destruct (entry_getitem "optimizer" e) as [v|]; [|done].
  by destruct (attr_max_norm v).
Qed.

(** How the first half of the scaled loop body runs. *)
Lemma unscale_and_clip_cases g w :
  (∃ e, unscale_and_clip g w = (Raise e, w)) ∨
  unscale_and_clip g w = (Ok tt, w) ∨
  (∃ m o w1,
     Dict.get g (optimizers (self w)) = Some o ∧
     call_unscale_ g o w = (Ok tt, w1) ∧
     ((∃ e, unscale_and_clip g w = (Raise e, w1)) ∨
      (∃ ps w2, Dict.get g (parameters (self w)) = Some ps ∧
                call_clip_grad_norm_ g ps m w1 = (Ok tt, w2) ∧
                unscale_and_clip g w = (Ok tt, w2)))).
Proof.
  unfold unscale_and_clip. rewrite bind_eq.
  pose proof (self_config_max_norm_state g w) as Hst.
  destruct (self_config_max_norm g w) as [[[m|]|e] w0]; simpl in Hst; subst w0.
  - rewrite bind_eq, self_optimizers_getitem_eq. unfold getitem.
    destruct (Dict.get g (optimizers (self w))) as [o|] eqn:Eo; [|left; by eauto].
    right; right.
    destruct (call_unscale_spec g o w) as (w1 & Hun & _ & Hself & _).
    exists m, o, w1. split; [done|]. split; [done|].
    rewrite bind_eq, Hun, bind_eq, self_parameters_getitem_eq, Hself. unfold getitem.
    destruct (Dict.get g (parameters (self w))) as [ps|] eqn:Ep; [|left; by eauto].
    right. destruct (call_clip_spec g ps m w1) as (w2 & Hcl & _).
    exists ps, w2. by rewrite Hcl.
  - right; by left.
  - left; by eauto.
Qed.

Lemma tensor_of_groups_frame names named touched w w' t :
  frame named touched w w' →
  tensor_of_groups names (self w') t ↔ tensor_of_groups names (self w) t.
Proof.
  intros [_ Hp _ _ Hg _ _]. unfold tensor_of_groups, tensors_of.
  split; intros (g & Hin & [(o & Ho & Ht)|(ps & Hps & Ht)]); exists g; (split; [done|]).
  - left. specialize (Hg g). rewrite Ho in Hg.
    destruct (Dict.get g (optimizers (self w))) as [o'|]; [|done].
    exists o'. split; [done|]. simpl in Hg. by injection Hg as <-.
  - right. exists ps. by rewrite <- Hp.
  - left. specialize (Hg g). rewrite Ho in Hg.
    destruct (Dict.get g (optimizers (self w'))) as [o'|]; [|done].
    exists o'. split; [done|]. simpl in Hg. by injection Hg as ->.
  - right. exists ps. by rewrite Hp.
Qed.

Lemma tensor_of_optimizer g o w t :
  Dict.get g (optimizers (self w)) = Some o → t ∈ tensors_of o →
  tensor_of_groups [g] (self w) t.
Proof. intros Ho Ht. exists g. split; [by apply list_elem_of_here|]. left. by eauto. Qed.

Lemma tensor_of_parameters g ps w t :
  Dict.get g (parameters (self w)) = Some ps → t ∈ ps →
  tensor_of_groups [g] (self w) t.
Proof. intros Hp Ht. exists g. split; [by apply list_elem_of_here|]. right. by eauto. Qed.

Lemma scaler_steps_app g tr tr' :
  scaler_steps g (tr ++ tr') = scaler_steps g tr + scaler_steps g tr'.
Proof. unfold scaler_steps. by rewrite List.filter_app, length_app. Qed.

Lemma unscale_and_clip_spec g w :
  frame (eq g) (tensor_of_groups [g] (self w)) w (unscale_and_clip g w).2 ∧
  ∃ evs, trace (unscale_and_clip g w).2 = trace w ++ evs ∧
         ∀ g', scaler_steps g' evs = 0.
Proof.
  destruct (unscale_and_clip_cases g w)
    as [[e ->]|[->|(m & o & w1 & Ho & Hun & Hrest)]]; cbn [snd].
  1,2: split; [apply frame_refl | exists []; by rewrite app_nil_r].
  destruct (call_unscale_spec g o w) as (w1' & Hun' & Htr1 & Hself1 & Hf1).
  rewrite Hun in Hun'. injection Hun' as <-.
  assert (frame (eq g) (tensor_of_groups [g] (self w)) w w1) as Hf1'.
  { eapply frame_mono; [| |exact Hf1]; [done|].
    intros t Ht. by eapply tensor_of_optimizer. }
  destruct Hrest as [[e ->]|(ps & w2 & Hps & Hcl & ->)]; cbn [snd].
  - split; [done|]. exists [EUnscale g]. split; [done|]. by intros g'.
  - destruct (call_clip_spec g ps m w1) as (w2' & Hcl' & Htr2 & _ & _ & Hf2).
    rewrite Hcl in Hcl'. injection Hcl' as <-. split.
    + eapply frame_trans; [exact Hf1'|].
      eapply frame_mono; [| |exact Hf2]; [done|].
      intros t Ht. by eapply tensor_of_parameters.
    + exists [EUnscale g; EClip g ps m]. split; [|by intros g'].
      by rewrite Htr2, Htr1, <- app_assoc.
Qed.

(** How the guarded scaler step runs. *)
Lemma step_if_grad_cases g w :
  (Dict.get g (optimizers (self w)) = None ∧
   step_if_grad g w = (Raise (KeyError g), w)) ∨
  (∃ o, Dict.get g (optimizers (self w)) = Some o ∧
        step_if_grad g w =
          if any_grad (heap w) o then call_scaler_step g o w else (Ok tt, w)).
Proof.
  unfold step_if_grad. rewrite bind_eq, self_optimizers_getitem_eq. unfold getitem.
  destruct (Dict.get g (optimizers (self w))) as [o|]; [right|left; done].
  exists o. split; [done|]. cbv [mbind M_bind gets].
  by destruct (any_grad (heap w) o).
Qed.

Lemma step_if_grad_spec g w :
  frame (eq g) (tensor_of_groups [g] (self w)) w (step_if_grad g w).2 ∧
  ∃ evs, trace (step_if_grad g w).2 = trace w ++ evs ∧
         (evs = [] ∨ evs = [EScalerStep g]).
Proof.
  destruct (step_if_grad_cases g w) as [[_ ->]|(o & Ho & ->)]; cbn [snd].
  { split; [apply frame_refl | exists []; rewrite app_nil_r; by eauto]. }
  destruct (any_grad (heap w) o); cbn [snd].
  2: { split; [apply frame_refl | exists []; rewrite app_nil_r; by eauto]. }
  destruct (call_scaler_step_spec g o w) as (w' & -> & Htr & Hf). cbn [snd]. split.
  - eapply frame_mono; [| |exact Hf]; [done|].
    intros t Ht. by eapply tensor_of_optimizer.
  - exists [EScalerStep g]. by eauto.
Qed.

Lemma unscale_clip_step_eq g w :
  unscale_clip_step g w =
  match unscale_and_clip g w with
  | (Ok _, w1) => step_if_grad g w1
  | (Raise e, w1) => (Raise e, w1)
  end.
Proof. reflexivity. Qed.

Lemma frame_rebase named names w w1 w2 :
  frame named (tensor_of_groups names (self w)) w w1 →
  frame named (tensor_of_groups names (self w1)) w1 w2 →
  frame named (tensor_of_groups names (self w)) w w2.
Proof.
  intros Hf1 Hf2. eapply frame_trans; [exact Hf1|].
  eapply frame_mono; [| |exact Hf2]; [done|].
  intros t. by apply (tensor_of_groups_frame _ _ _ _ _ _ Hf1).
Qed.

Lemma unscale_clip_step_spec g w :
  frame (eq g) (tensor_of_groups [g] (self w)) w (unscale_clip_step g w).2 ∧
  ∃ evs, trace (unscale_clip_step g w).2 = trace w ++ evs ∧
         scaler_steps g evs ≤ 1 ∧
         ∀ g', g' ≠ g → scaler_steps g' evs = 0.
Proof.
  rewrite unscale_clip_step_eq.
  destruct (unscale_and_clip_spec g w) as (Hf1 & evs1 & Htr1 & Hn1).
  destruct (unscale_and_clip g w) as [[[]|e] w1]; cbn [snd] in *.
  2: { split; [done|]. exists evs1. split; [done|]. rewrite Hn1. split; [lia|done]. }
  destruct (step_if_grad_spec g w1) as (Hf2 & evs2 & Htr2 & Hev).
  split; [by eapply frame_rebase|].
  exists (evs1 ++ evs2). rewrite Htr2, Htr1, <- app_assoc. split; [done|].
  rewrite scaler_steps_app, Hn1.
  destruct Hev as [->| ->].
  - split; [unfold scaler_steps; simpl; lia|].
    intros g' _. by rewrite scaler_steps_app, Hn1.
  - split.
    + unfold scaler_steps. simpl. rewrite bool_decide_eq_true_2 by done. simpl. lia.
    + intros g' Hne. rewrite scaler_steps_app, Hn1. unfold scaler_steps. simpl.
      by rewrite bool_decide_eq_false_2.
Qed.


(** *** The scaled stepping loops *)

Lemma some_body_eq g w :
  (_ ← self_optimizers_getitem g; unscale_clip_step g) w =
  match Dict.get g (optimizers (self w)) with
  | Some _ => unscale_clip_step g w
  | None => (Raise (KeyError g), w)
  end.
Proof.
  rewrite bind_eq, self_optimizers_getitem_eq. unfold getitem.
  by destruct (Dict.get g (optimizers (self w))).
Qed.

Lemma optimizer_scaler_step_some_cons g names w :
  optimizer_scaler_step_some (g :: names) w =
  match Dict.get g (optimizers (self w)) with
  | Some _ =>
      match unscale_clip_step g w with
      | (Ok _, w') => optimizer_scaler_step_some names w'
      | (Raise e, w') => (Raise e, w')
      end
  | None => (Raise (KeyError g), w)
  end.
Proof.
  unfold optimizer_scaler_step_some. rewrite for_each_cons, some_body_eq.
  by destruct (Dict.get g (optimizers (self w))).
Qed.

Lemma optimizer_scaler_step_some_app names names' w :
  optimizer_scaler_step_some (names ++ names') w =
  match optimizer_scaler_step_some names w with
  | (Ok _, w') => optimizer_scaler_step_some names' w'
  | (Raise e, w') => (Raise e, w')
  end.
Proof. apply for_each_app. Qed.

Lemma occurrences_cons g g' names :
  occurrences g (g' :: names) =
  (if decide (g = g') then 1 else 0) + occurrences g names.
Proof.
  unfold occurrences. rewrite filter_cons.
  by destruct (decide (g = g')).
Qed.

Lemma tensor_of_groups_mono names names' o t :
  (∀ g, g ∈ names → g ∈ names') →
  tensor_of_groups names o t → tensor_of_groups names' o t.
Proof. intros Hsub (g & Hin & Ht). exists g. split; [by apply Hsub | done]. Qed.

(** A loop whose body works on its own group, and calls the scaler at most
    once for it, works on the selected groups, and calls the scaler for a
    group at most as often as the group is selected. *)
Lemma loop_frame_steps (body : string → M world unit) :
  (∀ g w,
     frame (eq g) (tensor_of_groups [g] (self w)) w (body g w).2 ∧
     ∃ evs, trace (body g w).2 = trace w ++ evs ∧
            scaler_steps g evs ≤ 1 ∧
            ∀ g', g' ≠ g → scaler_steps g' evs = 0) →
  ∀ names w,
    frame (λ g, g ∈ names) (tensor_of_groups names (self w)) w
          (for_each names body w).2 ∧
    ∀ g, scaler_steps g (trace (for_each names body w).2) ≤
         scaler_steps g (trace w) + occurrences g names.
Proof.
  intros Hbody names. induction names as [|n names IH]; intros w.
  { split; [apply frame_refl | intros g; simpl; lia]. }
  rewrite for_each_cons.
  destruct (Hbody n w) as (Hf & evs & Htr & Hle & Hother).
  assert (frame (λ g, g ∈ n :: names) (tensor_of_groups (n :: names) (self w)) w
                (body n w).2) as Hf'.
  { eapply frame_mono; [| |exact Hf].
    - intros g <-. apply list_elem_of_here.
    - intros t. apply tensor_of_groups_mono. intros g Hg.
      apply list_elem_of_singleton in Hg as ->. apply list_elem_of_here. }
  assert (∀ g, scaler_steps g (trace (body n w).2) ≤
               scaler_steps g (trace w) + (if decide (g = n) then 1 else 0)) as Hcount.
  { intros g. rewrite Htr, scaler_steps_app.
    destruct (decide (g = n)) as [->|Hne]; [lia|]. rewrite Hother by done. lia. }
  destruct (body n w) as [[[]|e] w1]; cbn [snd] in *.
  2: { split; [done|]. intros g. rewrite occurrences_cons.
       specialize (Hcount g). lia. }
  destruct (IH w1) as [Hf2 Hc2]. split.
  - eapply frame_rebase; [exact Hf'|].
    eapply frame_mono; [| |exact Hf2].
    + intros g Hg. by apply list_elem_of_further.
    + intros t. apply tensor_of_groups_mono. intros g Hg.
      by apply list_elem_of_further.
  - intros g. rewrite occurrences_cons.
    specialize (Hcount g). specialize (Hc2 g). lia.
Qed.

Lemma some_body_spec g w :
  frame (eq g) (tensor_of_groups [g] (self w)) w
        ((_ ← self_optimizers_getitem g; unscale_clip_step g) w).2 ∧
  ∃ evs, trace ((_ ← self_optimizers_getitem g; unscale_clip_step g) w).2 =
           trace w ++ evs ∧
         scaler_steps g evs ≤ 1 ∧
         ∀ g', g' ≠ g → scaler_steps g' evs = 0.
Proof.
  rewrite some_body_eq.
  destruct (Dict.get g (optimizers (self w))); [apply unscale_clip_step_spec|].
  cbn [snd]. split; [apply frame_refl|].
  exists []. rewrite app_nil_r. split; [done|]. split; [|done].
  unfold scaler_steps. simpl. lia.
Qed.

Lemma zero_grad_body_spec g w :
  frame (eq g) (tensor_of_groups [g] (self w)) w
        ((optimizer ← self_optimizers_getitem g; call_zero_grad g optimizer) w).2 ∧
  ∃ evs, trace ((optimizer ← self_optimizers_getitem g; call_zero_grad g optimizer) w).2 =
           trace w ++ evs ∧
         scaler_steps g evs ≤ 1 ∧
         ∀ g', g' ≠ g → scaler_steps g' evs = 0.
Proof.
  rewrite bind_eq, self_optimizers_getitem_eq. unfold getitem.
  destruct (Dict.get g (optimizers (self w))) as [o|] eqn:Eo; cbn [snd].
  - destruct (call_zero_grad_spec g o w) as (w' & -> & Htr & _ & _ & Hf). cbn [snd].
    split.
    + eapply frame_mono; [| |exact Hf]; [done|].
      intros t Ht. by eapply tensor_of_optimizer.
    + exists [EZeroGrad g]. split; [done|]. split; [|done].
      unfold scaler_steps. simpl. lia.
  - split; [apply frame_refl|].
    exists []. rewrite app_nil_r. split; [done|]. split; [|done].
    unfold scaler_steps. simpl. lia.
Qed.


Lemma frame_outside_unchanged names w w' :
  frame (λ g, g ∈ names) (tensor_of_groups names (self w)) w w' →
  outside_unchanged names w w'.
Proof.
  intros [Hc Hp Hs Hk _ Ho Hh]. repeat split; try done.
  intros g o Hg _ Hdisj. unfold read. apply list_fmap_ext.
  intros i t Ht. rewrite !lookup_total_alt, Hh; [done|].
  apply Hdisj. by eapply list_elem_of_lookup_2.
Qed.

(** C8. The subset operations, scaled stepping of the named groups and
    zeroing of the gradients of the named groups, mutate optimizer objects
    of named groups and tensors of named groups only, also when they raise
    on the way: every other optimizer object is the same afterwards, every
    tensor that no named group refers to is the same, and a group outside
    the names that shares no tensor with a named group keeps all of its
    tensors. *)
Theorem C8_subset_operations_frame names w :
  outside_unchanged names w (optimizer_scaler_step_some names w).2 ∧
  outside_unchanged names w (zero_grad_some names w).2.
Proof.
  split; apply frame_outside_unchanged.
  - apply (loop_frame_steps _ some_body_spec names w).
  - apply (loop_frame_steps _ zero_grad_body_spec names w).
Qed.

Lemma optimizer_scaler_step_all_eq w :
  optimizer_scaler_step_all w =
  for_each (Dict.keys (optimizers (self w))) unscale_clip_step w.
Proof. reflexivity. Qed.


Lemma get_Some_in_keys {V} g (d : dict V) v :
  Dict.get g d = Some v → g ∈ Dict.keys d.
Proof. intros Hg. apply DictFacts.get_is_Some. by eauto. Qed.

Lemma unscale_and_clip_ok g w :
  coordinator_ok (self w) → g ∈ Dict.keys (optimizers (self w)) →
  (unscale_and_clip g w).1 = Ok tt.
Proof.
  intros Hok Hg. unfold unscale_and_clip.
  rewrite bind_eq, (self_config_max_norm_ok g w Hok Hg).
  destruct (max_norm_of (self w) g) as [m|]; [|done].
  rewrite bind_eq, self_optimizers_getitem_eq.
  apply DictFacts.get_is_Some in Hg as [o Ho]. rewrite (getitem_Some _ _ _ Ho).
  destruct (call_unscale_spec g o w) as (w1 & Hun & _ & Hself & _).
  rewrite bind_eq, Hun, bind_eq, self_parameters_getitem_eq, Hself.
  destruct (Hok g) as [_ [ps Hps]]; [by eapply get_Some_in_keys|].
  rewrite (getitem_Some _ _ _ Hps).
  by destruct (call_clip_spec g ps m w1) as (w2 & -> & _).
Qed.

Lemma step_if_grad_ok g w :
  g ∈ Dict.keys (optimizers (self w)) → (step_if_grad g w).1 = Ok tt.
Proof.
  intros Hg. apply DictFacts.get_is_Some in Hg as [o Ho].
  destruct (step_if_grad_cases g w) as [[Hn _]|(o' & _ & ->)]; [congruence|].
  destruct (any_grad (heap w) o'); [|done].
  by destruct (call_scaler_step_spec g o' w) as (w' & -> & _).
Qed.

Lemma unscale_clip_step_ok g w :
  coordinator_ok (self w) → g ∈ Dict.keys (optimizers (self w)) →
  (unscale_clip_step g w).1 = Ok tt.
Proof.
  intros Hok Hg. rewrite unscale_clip_step_eq.
  pose proof (unscale_and_clip_ok g w Hok Hg) as H1.
  destruct (unscale_and_clip_spec g w) as [Hf _].
  destruct (unscale_and_clip g w) as [[[]|e] w1]; [|done]. cbn [snd] in Hf.
  apply step_if_grad_ok. by rewrite (frame_keys _ _ _ _ Hf).
Qed.

Lemma optimizer_scaler_step_some_ok names w :
  coordinator_ok (self w) →
  (∀ g, g ∈ names → g ∈ Dict.keys (optimizers (self w))) →
  (optimizer_scaler_step_some names w).1 = Ok tt ∧
  optimizer_scaler_step_some names w = for_each names unscale_clip_step w.
Proof.
  revert w. induction names as [|n names IH]; intros w Hok Hin; [done|].
  rewrite optimizer_scaler_step_some_cons, for_each_cons.
  assert (n ∈ Dict.keys (optimizers (self w))) as Hn
    by apply Hin, list_elem_of_here.
  pose proof Hn as Hn'. apply DictFacts.get_is_Some in Hn' as [o ->].
  pose proof (unscale_clip_step_ok n w Hok Hn) as H1.
  destruct (unscale_clip_step_spec n w) as [Hf _].
  destruct (unscale_clip_step n w) as [[[]|e] w1]; [|done]. cbn [snd] in Hf.
  apply IH.
  - by eapply frame_coordinator_ok.
  - intros g Hg. rewrite (frame_keys _ _ _ _ Hf).
    by apply Hin, list_elem_of_further.
Qed.

Lemma any_grad_carries h o :
  any_grad h o = true ↔ carries_grad h (tensors_of o).
Proof.
  unfold any_grad, carries_grad, tensors_of. rewrite existsb_exists. split.
  - intros (ps & Hps & Hex). apply existsb_exists in Hex as (p & Hp & Hgr).
    rewrite lookup_total_alt in Hgr.
    destruct (h !! p) as [t|] eqn:Et; [|done]. cbn [default from_option id] in Hgr.
    destruct (grad t) as [gr|] eqn:Eg; [|done].
    exists p, t, gr. split; [|done].
    apply list_elem_of_In, in_concat. by exists ps.
  - intros (p & t & gr & Hp & Et & Eg).
    apply list_elem_of_In, in_concat in Hp as (ps & Hps & Hp).
    exists ps. split; [done|].
    apply existsb_exists. exists p. split; [done|].
    rewrite lookup_total_alt, Et. cbn [default from_option id]. by rewrite Eg.
Qed.

Lemma call_scaler_step_run g o w :
  call_scaler_step g o w =
  (Ok tt,
   {| self := {| config := config (self w);
                 optimizers :=
                   Dict.alter
                     (with_state
                        (scaler_step (grad_scaler w) (o_hyper o) (o_state o)
                           (read (heap w) (tensors_of o))).1.2)
                     g (optimizers (self w));
                 schedulers := schedulers (self w);
                 parameters := parameters (self w) |};
      heap := write (tensors_of o)
                (scaler_step (grad_scaler w) (o_hyper o) (o_state o)
                   (read (heap w) (tensors_of o))).2 (heap w);
      grad_scaler := (scaler_step (grad_scaler w) (o_hyper o) (o_state o)
                        (read (heap w) (tensors_of o))).1.1;
      trace := trace w ++ [EScalerStep g] |}).
Proof.
  unfold call_scaler_step, set_heap, set_grad_scaler, mutate_optimizer, emit.
  cbv [mbind M_bind mret M_ret gets modify].
  by destruct (scaler_step _ _ _ _) as [[sc st] ts].
Qed.

(** C3. In a scaled stepping call on a coordinator whose groups are
    configured, over all groups or over named groups, the call returns
    normally and, in the turn of each selected group, after the unscaling
    and clipping of lines 160 to 163, the scaler's step is called exactly
    when one of the parameters the optimizer of the group holds has a
    gradient that is not None.  Then the turn ends with that one call, made
    with the optimizer of the group on the tensors as they are: the scaler,
    the state of the optimizer and the tensors are what the scaler's step
    returns.  Otherwise the turn ends there and nothing is stepped.  (The
    optimizer of a group holds the parameter list of the group, on which
    construction sets it up.) *)
Theorem C3_scaler_step_iff_grad names w :
  coordinator_ok (self w) →
  (∀ g, g ∈ names → g ∈ Dict.keys (optimizers (self w))) →
  optimizer_scaler_step_all w =
    optimizer_scaler_step_some (Dict.keys (optimizers (self w))) w ∧
  (optimizer_scaler_step_some names w).1 = Ok tt ∧
  ∀ i g, names !! i = Some g →
    let w_i := (optimizer_scaler_step_some (take i names) w).2 in
    let w_c := (unscale_and_clip g w_i).2 in
    let w_n := (optimizer_scaler_step_some (take (S i) names) w).2 in
    ∃ o, Dict.get g (optimizers (self w_c)) = Some o ∧
         scaler_steps g (trace w_c) = scaler_steps g (trace w_i) ∧
         (scaler_steps g (trace w_n) = scaler_steps g (trace w_c) + 1 ↔
          carries_grad (heap w_c) (tensors_of o)) ∧
         (carries_grad (heap w_c) (tensors_of o) →
            let r := scaler_step (grad_scaler w_c) (o_hyper o) (o_state o)
                       (read (heap w_c) (tensors_of o)) in
            trace w_n = trace w_c ++ [EScalerStep g] ∧
            grad_scaler w_n = r.1.1 ∧
            Dict.get g (optimizers (self w_n)) = Some (with_state r.1.2 o) ∧
            heap w_n = write (tensors_of o) r.2 (heap w_c)) ∧
         (¬ carries_grad (heap w_c) (tensors_of o) → w_n = w_c).
Proof.
  intros Hok Hin. split; [|split].
  - rewrite optimizer_scaler_step_all_eq. symmetry.
    by apply optimizer_scaler_step_some_ok.
  - by apply optimizer_scaler_step_some_ok.
  - intros i g Hi. cbv zeta.
    rewrite (take_S_r _ _ _ Hi), optimizer_scaler_step_some_app.
    assert (∀ g', g' ∈ take i names → g' ∈ Dict.keys (optimizers (self w))) as Hin_i.
    { intros g' Hg'. apply Hin.
      apply elem_of_take in Hg' as (j & Hj & _). by eapply list_elem_of_lookup_2. }
    destruct (optimizer_scaler_step_some_ok (take i names) w Hok Hin_i) as [Hr_i _].
    assert (frame (λ g, g ∈ take i names)
                  (tensor_of_groups (take i names) (self w)) w
                  (optimizer_scaler_step_some (take i names) w).2) as Hf_i
      by apply (loop_frame_steps _ some_body_spec (take i names) w).
    destruct (optimizer_scaler_step_some (take i names) w) as [[[]|e] w_i];
      [|done]. cbn [snd] in *.
    assert (g ∈ Dict.keys (optimizers (self w_i))) as Hg.
    { rewrite (frame_keys _ _ _ _ Hf_i). apply Hin. by eapply list_elem_of_lookup_2. }
    assert (coordinator_ok (self w_i)) as Hok_i by (by eapply frame_coordinator_ok).
    rewrite optimizer_scaler_step_some_cons.
    pose proof Hg as Hg'. apply DictFacts.get_is_Some in Hg' as [o_i ->].
    rewrite unscale_clip_step_eq.
    pose proof (unscale_and_clip_ok g w_i Hok_i Hg) as Hr_c.
    destruct (unscale_and_clip_spec g w_i) as (Hf_c & evs & Htr_c & Hn_c).
    destruct (unscale_and_clip g w_i) as [[[]|e] w_c]; [|done]. cbn [snd] in *.
    assert (g ∈ Dict.keys (optimizers (self w_c))) as Hgc
      by (by rewrite (frame_keys _ _ _ _ Hf_c)).
    destruct (step_if_grad_cases g w_c) as [[Hnone _]|(o & Ho & Hrun)].
    { apply DictFacts.get_is_Some in Hgc as [? ?]. congruence. }
    exists o. split; [done|]. split.
    { by rewrite Htr_c, scaler_steps_app, Hn_c, Nat.add_0_r. }
    rewrite Hrun. pose proof (any_grad_carries (heap w_c) o) as Hany.
    destruct (any_grad (heap w_c) o).
    + assert (carries_grad (heap w_c) (tensors_of o)) as Hc by (by apply Hany).
      rewrite call_scaler_step_run. unfold optimizer_scaler_step_some.
      cbn [snd self heap grad_scaler trace optimizers for_each mret M_ret].
      split; [|split; [|done]].
      * split; [done|]. intros _. rewrite scaler_steps_app. unfold scaler_steps at 2.
        simpl. by rewrite bool_decide_eq_true_2.
      * intros _. split; [done|]. split; [done|]. split; [|done].
        by rewrite DictFacts.get_alter_eq, Ho.
    + assert (¬ carries_grad (heap w_c) (tensors_of o)) as Hc.
      { intros Hc. apply Hany in Hc. discriminate. }
      unfold optimizer_scaler_step_some.
      cbn [snd for_each mret M_ret]. split; [|split; [done|done]].
      split; [lia | done].
Qed.


(** *** Plain stepping of all groups *)

Lemma step_all_body_run g w :
  coordinator_ok (self w) → g ∈ Dict.keys (optimizers (self w)) →
  ∃ o, Dict.get g (optimizers (self w)) = Some o ∧
       step_all_body g w =
       match max_norm_of (self w) g with
       | Some m =>
           call_step g o (call_clip_grad_norm_ g (parameters_of (self w) g) m w).2
       | None => call_step g o w
       end.
Proof.
  intros Hok Hg. pose proof Hg as Hg'.
  apply DictFacts.get_is_Some in Hg' as [o Ho]. exists o. split; [done|].
  unfold step_all_body.
  rewrite bind_eq, (self_config_max_norm_ok g w Hok Hg), bind_eq.
  destruct (max_norm_of (self w) g) as [m|].
  - rewrite bind_eq, self_parameters_getitem_eq.
    destruct (Hok g Hg) as [_ [ps Hps]]. rewrite (getitem_Some _ _ _ Hps).
    unfold parameters_of. rewrite Hps. cbn [default from_option id].
    destruct (call_clip_spec g ps m w) as (w1 & -> & _ & Hself & _). cbn [snd].
    by rewrite bind_eq, self_optimizers_getitem_eq, Hself, (getitem_Some _ _ _ Ho).
  - cbv [mret M_ret].
    by rewrite bind_eq, self_optimizers_getitem_eq, (getitem_Some _ _ _ Ho).
Qed.











(** *** Stepping one scheduler *)

Lemma scheduler_step_cases g w :
  match Dict.get g (config (self w)) with
  | None => scheduler_step g w = (Raise (KeyError g), w)
  | Some e =>
      match e !! "scheduler" with
      | None => scheduler_step g w = (Ok tt, w)
      | Some _ =>
          match Dict.get g (schedulers (self w)) with
          | None => scheduler_step g w = (Raise (KeyError g), w)
          | Some s =>
              ∃ w', scheduler_step g w = (Ok tt, w') ∧
                    trace w' = trace w ++ [ESchedulerStep g] ∧
                    Dict.get g (schedulers (self w')) =
                      Some (loaded_scheduler
                              (sched_step (s_config s) (s_lr_init s) (s_state s)).1 s)
          end
      end
  end.
Proof.
  unfold scheduler_step. rewrite bind_eq. cbv [gets]. rewrite bind_eq. cbv [lift].
  unfold getitem.
  destruct (Dict.get g (config (self w))) as [e|]; [|done].
  destruct (e !! "scheduler") as [v|] eqn:Es.
  2: { by rewrite bool_decide_eq_false_2 by (by intros [? ?]). }
  rewrite bool_decide_eq_true_2 by eauto.
  rewrite bind_eq, self_schedulers_getitem_eq. unfold getitem.
  destruct (Dict.get g (schedulers (self w))) as [s|] eqn:Eg; [|done].
  destruct (sched_step (s_config s) (s_lr_init s) (s_state s)) as [st r] eqn:Est.
  eexists. split; [reflexivity|]. split; [done|]. cbn.
  by rewrite DictFacts.get_alter_eq, Eg.
Qed.

(** C5, on the code.  On a coordinator that construction returned, the
    entry of every group has a "scheduler" key, so for a group that was
    built without scheduler the test of line 139 holds and the lookup
    [self.schedulers[g]] raises [KeyError]: the call is not a no-op. *)
Theorem C5_scheduler_step_without_scheduler_raises
    cfg groups o cfg' con g w :
  __init__ cfg groups = (Ok o, cfg', con) →
  g ∈ Dict.keys groups →
  Dict.get g (schedulers o) = None →
  self w = o →
  scheduler_step g w = (Raise (KeyError g), w).
Proof.
  intros Hrun Hg Hnone Hself.
  destruct (built_groups_have_scheduler_key cfg groups o cfg' con Hrun g Hg)
    as (e & Hget & [v Hv]).
  destruct (init_result_cases cfg groups) as [(o' & c' & n' & Hrun' & Hcfg)|(? & ? & ? & Hr)];
    [|congruence].
  rewrite Hrun in Hrun'. injection Hrun' as <- <- <-.
  pose proof (scheduler_step_cases g w) as Hcases.
  by rewrite Hself, Hcfg, Hget, Hv, Hnone in Hcases.
Qed.

(** *** Loading checkpoint state *)

Lemma load_optimizers_cons k v loaded w :
  load_optimizers ((k, v) :: loaded) w =
  match Dict.get k (optimizers (self w)) with
  | Some _ =>
      load_optimizers loaded
        (emit (ELoadOptimizer k) (mutate_optimizer k (loaded_optimizer v) w).2).2
  | None => (Raise (KeyError k), w)
  end.
Proof.
  unfold load_optimizers. rewrite for_each_cons. cbn [fst snd].
  rewrite bind_eq, self_optimizers_getitem_eq. unfold getitem.
  by destruct (Dict.get k (optimizers (self w))).
Qed.

Lemma load_schedulers_cons k v loaded w :
  load_schedulers ((k, v) :: loaded) w =
  match Dict.get k (schedulers (self w)) with
  | Some _ =>
      load_schedulers loaded
        (emit (ELoadScheduler k) (mutate_scheduler k (loaded_scheduler v) w).2).2
  | None => (Raise (KeyError k), w)
  end.
Proof.
  unfold load_schedulers. rewrite for_each_cons. cbn [fst snd].
  rewrite bind_eq, self_schedulers_getitem_eq. unfold getitem.
  by destruct (Dict.get k (schedulers (self w))).
Qed.

Lemma load_optimizers_app loaded loaded' w :
  load_optimizers (loaded ++ loaded') w =
  match load_optimizers loaded w with
  | (Ok _, w') => load_optimizers loaded' w'
  | (Raise e, w') => (Raise e, w')
  end.
Proof. apply for_each_app. Qed.

Lemma load_schedulers_app loaded loaded' w :
  load_schedulers (loaded ++ loaded') w =
  match load_schedulers loaded w with
  | (Ok _, w') => load_schedulers loaded' w'
  | (Raise e, w') => (Raise e, w')
  end.
Proof. apply for_each_app. Qed.

Lemma keys_cons {V} k (v : V) d : Dict.keys ((k, v) :: d) = k :: Dict.keys d.
Proof. reflexivity. Qed.

Lemma load_optimizers_frame loaded w :
  Dict.keys (optimizers (self (load_optimizers loaded w).2)) =
    Dict.keys (optimizers (self w)) ∧
  ∀ g, g ∉ Dict.keys loaded →
    Dict.get g (optimizers (self (load_optimizers loaded w).2)) =
    Dict.get g (optimizers (self w)).
Proof.
  revert w. induction loaded as [|[k v] loaded IH]; intros w; [done|].
  rewrite load_optimizers_cons, keys_cons.
  destruct (Dict.get k (optimizers (self w))); [|done].
  destruct (IH (emit (ELoadOptimizer k) (mutate_optimizer k (loaded_optimizer v) w).2).2)
    as [Hk Hg].
  split.
  - rewrite Hk. cbn. apply DictFacts.keys_alter.
  - intros g Hnin. apply not_elem_of_cons in Hnin as [Hne Hnin].
    rewrite Hg by done. cbn. by apply DictFacts.get_alter_ne.
Qed.

Lemma load_schedulers_frame loaded w :
  Dict.keys (schedulers (self (load_schedulers loaded w).2)) =
    Dict.keys (schedulers (self w)) ∧
  ∀ g, g ∉ Dict.keys loaded →
    Dict.get g (schedulers (self (load_schedulers loaded w).2)) =
    Dict.get g (schedulers (self w)).
Proof.
  revert w. induction loaded as [|[k v] loaded IH]; intros w; [done|].
  rewrite load_schedulers_cons, keys_cons.
  destruct (Dict.get k (schedulers (self w))); [|done].
  destruct (IH (emit (ELoadScheduler k) (mutate_scheduler k (loaded_scheduler v) w).2).2)
    as [Hk Hg].
  split.
  - rewrite Hk. cbn. apply DictFacts.keys_alter.
  - intros g Hnin. apply not_elem_of_cons in Hnin as [Hne Hnin].
    rewrite Hg by done. cbn. by apply DictFacts.get_alter_ne.
Qed.

Lemma loaded_optimizer_keys k f e w :
  Dict.keys (optimizers (self (emit e (mutate_optimizer k f w).2).2)) =
  Dict.keys (optimizers (self w)).
Proof. apply DictFacts.keys_alter. Qed.

Lemma loaded_scheduler_keys k f e w :
  Dict.keys (schedulers (self (emit e (mutate_scheduler k f w).2).2)) =
  Dict.keys (schedulers (self w)).
Proof. apply DictFacts.keys_alter. Qed.

Lemma load_optimizers_ok loaded w :
  (∀ k, k ∈ Dict.keys loaded → k ∈ Dict.keys (optimizers (self w))) →
  (load_optimizers loaded w).1 = Ok tt.
Proof.
  revert w. induction loaded as [|[k v] loaded IH]; intros w Hin; [done|].
  rewrite load_optimizers_cons.
  assert (k ∈ Dict.keys (optimizers (self w))) as Hk
    by (apply Hin; rewrite keys_cons; apply list_elem_of_here).
  apply DictFacts.get_is_Some in Hk as [o ->].
  apply IH. intros k' Hk'. rewrite loaded_optimizer_keys.
  apply Hin. rewrite keys_cons. by apply list_elem_of_further.
Qed.

Lemma load_schedulers_ok loaded w :
  (∀ k, k ∈ Dict.keys loaded → k ∈ Dict.keys (schedulers (self w))) →
  (load_schedulers loaded w).1 = Ok tt.
Proof.
  revert w. induction loaded as [|[k v] loaded IH]; intros w Hin; [done|].
  rewrite load_schedulers_cons.
  assert (k ∈ Dict.keys (schedulers (self w))) as Hk
    by (apply Hin; rewrite keys_cons; apply list_elem_of_here).
  apply DictFacts.get_is_Some in Hk as [o ->].
  apply IH. intros k' Hk'. rewrite loaded_scheduler_keys.
  apply Hin. rewrite keys_cons. by apply list_elem_of_further.
Qed.

(** C7, as amended.  Loading raises only for a name of the loaded state
    that the coordinator has no optimizer, or no scheduler, for: the lookup
    error [KeyError] for the first such name, raised when the entries before
    it have been loaded, which stay loaded.  When every name of the loaded
    state is known the load returns normally, and a group of the
    coordinator that the loaded state does not name keeps its state: a
    group missing from the loaded state is not an error. *)
Theorem C7_load_state_mismatch w :
  (∀ loaded,
     (∀ k, k ∈ Dict.keys loaded → k ∈ Dict.keys (optimizers (self w))) →
     (load_optimizers loaded w).1 = Ok tt ∧
     ∀ g, g ∉ Dict.keys loaded →
       Dict.get g (optimizers (self (load_optimizers loaded w).2)) =
       Dict.get g (optimizers (self w))) ∧
  (∀ pre k v post,
     (∀ k', k' ∈ Dict.keys pre → k' ∈ Dict.keys (optimizers (self w))) →
     k ∉ Dict.keys (optimizers (self w)) →
     load_optimizers (pre ++ (k, v) :: post) w =
       (Raise (KeyError k), (load_optimizers pre w).2)) ∧
  (∀ loaded,
     (∀ k, k ∈ Dict.keys loaded → k ∈ Dict.keys (schedulers (self w))) →
     (load_schedulers loaded w).1 = Ok tt ∧
     ∀ g, g ∉ Dict.keys loaded →
       Dict.get g (schedulers (self (load_schedulers loaded w).2)) =
       Dict.get g (schedulers (self w))) ∧
  (∀ pre k v post,
     (∀ k', k' ∈ Dict.keys pre → k' ∈ Dict.keys (schedulers (self w))) →
     k ∉ Dict.keys (schedulers (self w)) →
     load_schedulers (pre ++ (k, v) :: post) w =
       (Raise (KeyError k), (load_schedulers pre w).2)).
Proof.
  repeat split.
  - by apply load_optimizers_ok.
  - by apply load_optimizers_frame.
  - intros pre k v post Hpre Hk. rewrite load_optimizers_app.
    pose proof (load_optimizers_ok pre w Hpre) as Hok.
    destruct (load_optimizers_frame pre w) as [Hkeys _].
    destruct (load_optimizers pre w) as [[[]|e] w1]; [|done]. cbn [snd] in *.
    rewrite load_optimizers_cons.
    rewrite <- Hkeys in Hk. apply DictFacts.get_None in Hk. by rewrite Hk.
  - by apply load_schedulers_ok.
  - by apply load_schedulers_frame.
  - intros pre k v post Hpre Hk. rewrite load_schedulers_app.
    pose proof (load_schedulers_ok pre w Hpre) as Hok.
    destruct (load_schedulers_frame pre w) as [Hkeys _].
    destruct (load_schedulers pre w) as [[[]|e] w1]; [|done]. cbn [snd] in *.
    rewrite load_schedulers_cons.
    rewrite <- Hkeys in Hk. apply DictFacts.get_None in Hk. by rewrite Hk.
Qed.

End Methods.

(** ** What construction establishes *)

Section Reachable.
Context `{Torch}.

Lemma keys_set_elem {V} g k (v : V) d :
  g ∈ Dict.keys (Dict.set k v d) → g = k ∨ g ∈ Dict.keys d.
Proof.
  intros Hg. destruct (decide (g = k)) as [|Hne]; [by left|right].
  apply DictFacts.get_is_Some. apply DictFacts.get_is_Some in Hg.
  by rewrite DictFacts.get_set_ne in Hg.
Qed.

Lemma after_legacy_init_ok name st : init_ok st → init_ok (after_legacy name st).
Proof.
  intros Hok g Hg.
  assert (i_optimizers (after_legacy name st) = i_optimizers st ∧
          i_parameters (after_legacy name st) = i_parameters st) as [Ho Hp].
  { unfold after_legacy. by destruct (legacy_fires name (i_config st)). }
  rewrite Ho in Hg. rewrite Hp.
  destruct (Hok g Hg) as [(e & c & Hget & He) Hps]. split; [|done].
  exists e, c. split; [by apply after_legacy_get_mono | done].
Qed.

Lemma after_optimizer_init_ok name ps c opt e st :
  Dict.get name (i_config st) = Some e →
  e !! "optimizer" = Some (VOptimizer c) →
  init_ok st → init_ok (after_optimizer name ps opt st).
Proof.
  intros Hget He Hok g Hg. cbn [after_optimizer i_optimizers i_config i_parameters] in *.
  apply keys_set_elem in Hg as [->|Hg].
  - split; [by eauto|]. rewrite DictFacts.get_set_eq. by eauto.
  - destruct (Hok g Hg) as [Hcfg Hps]. split; [done|].
    destruct (decide (name = g)) as [->|Hne].
    + rewrite DictFacts.get_set_eq. by eauto.
    + by rewrite DictFacts.get_set_ne.
Qed.

Lemma init_group_init_ok name ps st :
  init_ok st → init_ok (init_group (name, ps) st).2.
Proof.
  intros Hok. apply (after_legacy_init_ok name) in Hok.
  rewrite init_group_eq. unfold init_group_cases.
  destruct (Dict.get name (i_config (after_legacy name st))) as [e|] eqn:Eg; [|done].
  destruct (e !! "optimizer") as [[|c|sc]|] eqn:Eo; try done.
  destruct (setup c ps) as [opt|ex]; [|done].
  pose proof (after_optimizer_init_ok name ps c opt e _ Eg Eo Hok) as Hok2.
  by destruct (e !! "scheduler") as [[|c'|sc']|].
Qed.

Lemma for_each_init_ok_inv groups st :
  init_ok st → init_ok (for_each groups init_group st).2.
Proof.
  revert st. induction groups as [|[name ps] groups IH]; intros st Hok; [done|].
  rewrite for_each_cons.
  pose proof (init_group_init_ok name ps st Hok) as Hok1.
  destruct (init_group (name, ps) st) as [[[]|e] st1]; [by apply IH | done].
Qed.

(** Every coordinator that construction returns satisfies
    [coordinator_ok]. *)
Lemma init_coordinator_ok cfg groups o cfg' con :
  __init__ cfg groups = (Ok o, cfg', con) → coordinator_ok o.
Proof.
  intros Hrun. rewrite init_unfold in Hrun.
  pose proof (for_each_init_ok_inv groups (init_start cfg)) as Hok.
  destruct (for_each groups init_group (init_start cfg)) as [[[]|e] st];
    cbn [fst snd] in *; [|done].
  injection Hrun as <- _ _. apply Hok. intros g Hg. by apply elem_of_nil in Hg.
Qed.

End Reachable.

(** ** Witnesses and counterexamples for the methods *)

Lemma world_with_grad_ok : coordinator_ok (self world_with_grad).
Proof.
  by apply (init_coordinator_ok (H:=Reference.torch)
              [("field", field_entry)] [("field", [0; 1])] _
              [("field", field_entry)] []).
Qed.

Lemma world_two_groups_ok : coordinator_ok (self world_two_groups).
Proof.
  by apply (init_coordinator_ok (H:=Reference.torch)
              [("field", field_entry)] [("field", [0; 1]); ("camera_opt", [2])] _
              [("field", field_entry); ("camera_opt", camera_opt_default)]
              [camera_opt_warning]).
Qed.

Lemma world_without_grad_ok : coordinator_ok (self world_without_grad).
Proof. exact world_with_grad_ok. Qed.

Lemma field_selected (w : @world Reference.torch) :
  Dict.keys (optimizers (self w)) = ["field"] →
  ∀ g, g ∈ ["field"] → g ∈ Dict.keys (optimizers (self w)).
Proof. intros -> g Hg. exact Hg. Qed.

(** The group "field" is selected once.  With the gradient (6, 8) on one of
    its two tensors the scaler's step is called for it, once; with no
    gradient on either it is not, and the turn leaves the world as the
    unscaling and clipping left it. *)
Lemma C3_witness :
  coordinator_ok (self world_with_grad) ∧
  (optimizer_scaler_step_some ["field"] world_with_grad).1 = Ok tt ∧
  optimizer_scaler_step_all world_with_grad =
    optimizer_scaler_step_some ["field"] world_with_grad ∧
  carries_grad (heap (unscale_and_clip "field" world_with_grad).2) [0; 1] ∧
  scaler_steps "field"
    (trace (optimizer_scaler_step_some ["field"] world_with_grad).2) = 1 ∧
  (¬ carries_grad (heap (unscale_and_clip "field" world_without_grad).2) [0; 1]) ∧
  (optimizer_scaler_step_some ["field"] world_without_grad).2 =
    (unscale_and_clip "field" world_without_grad).2.
Proof.
  assert (carries_grad (heap (unscale_and_clip "field" world_with_grad).2) [0; 1]) as Hc.
  { exists 0. eexists _, _. split; [apply list_elem_of_here|].
    split; vm_compute; reflexivity. }
  assert (¬ carries_grad (heap (unscale_and_clip "field" world_without_grad).2) [0; 1]) as Hn.
  { intros (p & t & gr & Hp & Ht & Hg).
    apply elem_of_cons in Hp as [->|Hp]; [|apply list_elem_of_singleton in Hp as ->];
      vm_compute in Ht; injection Ht as <-; discriminate Hg. }
  destruct (C3_scaler_step_iff_grad ["field"] world_with_grad world_with_grad_ok
              (field_selected world_with_grad eq_refl)) as (Hall & Hok & Hturn).
  destruct (Hturn 0 "field" eq_refl) as (o & Ho & _ & Hiff & _ & _).
  vm_compute in Ho. injection Ho as <-.
  destruct (C3_scaler_step_iff_grad ["field"] world_without_grad world_without_grad_ok
              (field_selected world_without_grad eq_refl)) as (_ & _ & Hturn').
  destruct (Hturn' 0 "field" eq_refl) as (o' & Ho' & _ & _ & _ & Hskip).
  vm_compute in Ho'. injection Ho' as <-.
  split; [exact world_with_grad_ok|]. split; [exact Hok|]. split; [exact Hall|].
  split; [exact Hc|]. split; [exact (proj2 Hiff Hc)|].
  split; [exact Hn | exact (Hskip Hn)].
Defined.



Lemma C5_witness :
  "field" ∈ Dict.keys [("field", [0; 1]); ("camera_opt", [2])] ∧
  Dict.get "field" (schedulers (self world_two_groups)) = None ∧
  scheduler_step "field" world_two_groups =
    (Raise (KeyError "field"), world_two_groups).
Proof.
  assert ("field" ∈ Dict.keys [("field", [0; 1]); ("camera_opt", [2])]) as Hin
    by in_keys.
  split; [exact Hin|]. split; [reflexivity|].
  exact (C5_scheduler_step_without_scheduler_raises (H:=Reference.torch)
           [("field", field_entry)] [("field", [0; 1]); ("camera_opt", [2])]
           (self world_two_groups)
           [("field", field_entry); ("camera_opt", camera_opt_default)]
           [camera_opt_warning] "field" world_two_groups
           eq_refl Hin eq_refl eq_refl).
Defined.


(** C7, as stated, fails: the coordinator has the group 'camera_opt', with
    an optimizer and a scheduler, the loaded states do not name it, and both
    loads return normally. *)
Lemma C7_counterexample :
  "camera_opt" ∈ Dict.keys (optimizers (self world_two_groups)) ∧
  ("camera_opt" ∉ Dict.keys checkpoint_field_only) ∧
  (load_optimizers (H:=Reference.torch) checkpoint_field_only world_two_groups).1 = Ok tt ∧
  "camera_opt" ∈ Dict.keys (schedulers (self world_two_groups)) ∧
  (load_schedulers (H:=Reference.torch) [] world_two_groups).1 = Ok tt.
Proof.
  split; [in_keys|]. split; [not_in_keys|]. split; [reflexivity|].
  split; [in_keys | reflexivity].
Qed.

Lemma C7_witness :
  ("appearance" ∉ Dict.keys (optimizers (self world_two_groups))) ∧
  load_optimizers (H:=Reference.torch) checkpoint_unknown_group world_two_groups =
    (Raise (KeyError "appearance"),
     (load_optimizers (H:=Reference.torch) checkpoint_field_only world_two_groups).2).
Proof.
  assert ("appearance" ∉ Dict.keys (optimizers (self world_two_groups))) as Hk
    by not_in_keys.
  assert (∀ k', k' ∈ Dict.keys checkpoint_field_only →
                k' ∈ Dict.keys (optimizers (self world_two_groups))) as Hpre.
  { intros k' Hk'. apply list_elem_of_singleton in Hk' as ->. in_keys. }
  split; [exact Hk|].
  destruct (C7_load_state_mismatch world_two_groups) as (_ & Hraise & _).
  exact (Hraise checkpoint_field_only "appearance" checkpoint_state [] Hpre Hk).
Defined.

Lemma C8_witness :
  ("field" ∉ ["camera_opt"]) ∧
  Dict.get "field" (optimizers (self (optimizer_scaler_step_some ["camera_opt"] world_two_groups).2)) =
    Dict.get "field" (optimizers (self world_two_groups)) ∧
  Dict.get "field" (optimizers (self (zero_grad_some ["camera_opt"] world_two_groups).2)) =
    Dict.get "field" (optimizers (self world_two_groups)).
Proof.
  assert ("field" ∉ ["camera_opt"]) as Hnin.
  { apply not_elem_of_cons. split; [discriminate | apply not_elem_of_nil]. }
  destruct (C8_subset_operations_frame ["camera_opt"] world_two_groups)
    as [(_ & _ & _ & _ & Hstep & _) (_ & _ & _ & _ & Hzero & _)].
  split; [exact Hnin|]. split; [exact (Hstep "field" Hnin) | exact (Hzero "field" Hnin)].
Defined.

(** ** Further properties *)

Lemma Exists_false_not_Forall {A} (f : A → bool) (l : list A) :
  Exists (λ x, f x = false) l ↔ ¬ Forall (λ x, f x = true) l.
Proof.
  induction l as [|x l IH].
  - split; [by intros ?%Exists_nil | intros Hn; by destruct Hn].
  - rewrite Exists_cons, Forall_cons, IH. destruct (f x); split.
    + intros [?|Hn] [_ Hl]; [done | by apply Hn].
    + intros Hn. right. intros Hl. by apply Hn.
    + by intros _ [? _].
    + intros _. by left.
Qed.

(** Construction returns a coordinator exactly when every group of the
    parameter mapping builds: it has an entry with an optimizer config and
    with [None] or a scheduler config under "scheduler", or it is the legacy
    group 'camera_opt' without entry, and the constructor of its optimizer
    accepts the arguments of the optimizer config and the parameter list of
    the group.  In every other case it raises. *)
Theorem construction_succeeds_iff_groups_build `{Torch} cfg groups :
  ((∃ o cfg' con, __init__ cfg groups = (Ok o, cfg', con)) ↔
   Forall (λ g, group_builds cfg g = true) groups) ∧
  ((∃ e cfg' con, __init__ cfg groups = (Raise e, cfg', con)) ↔
   Exists (λ g, group_builds cfg g = false) groups).
Proof.
  assert ((∃ o cfg' con, __init__ cfg groups = (Ok o, cfg', con)) ↔
          Forall (λ g, group_builds cfg g = true) groups) as Hiff; [|split; [done|]].
  2: { rewrite Exists_false_not_Forall, <- Hiff. split.
       - intros (e & cfg' & con & Hrun) (o & cfg1 & con1 & Hrun1). congruence.
       - intros Hn.
         destruct (init_result_cases cfg groups)
           as [(o' & cfg' & con & Hrun & _)|Hr]; [|done].
         exfalso. apply Hn. by eexists _, _, _. }
  rewrite <- init_ok_iff_builds. split.
  - intros (o & cfg' & con & Hrun). exists o. by rewrite Hrun.
  - intros [o Ho].
    destruct (init_result_cases cfg groups)
      as [(o' & cfg' & con & Hrun & _)|(e & cfg' & con & Hrun)].
    + by eexists _, _, _.
    + rewrite Hrun in Ho. discriminate.
Qed.

(** For a group that has a scheduler, [scheduler_step] advances that
    scheduler by one step, none else, and reports the call; when the entry
    of the group has no "scheduler" key it returns without effect. *)
Theorem scheduler_step_advances `{Torch} g w e :
  Dict.get g (config (self w)) = Some e →
  (e !! "scheduler" = None → scheduler_step g w = (Ok tt, w)) ∧
  (∀ s, is_Some (e !! "scheduler") →
        Dict.get g (schedulers (self w)) = Some s →
        ∃ w', scheduler_step g w = (Ok tt, w') ∧
              trace w' = trace w ++ [ESchedulerStep g] ∧
              Dict.get g (schedulers (self w')) =
                Some (loaded_scheduler
                        (sched_step (s_config s) (s_lr_init s) (s_state s)).1 s)).
Proof.
  intros Hget. pose proof (scheduler_step_cases g w) as Hcases.
  rewrite Hget in Hcases. split.
  - intros Hs. by rewrite Hs in Hcases.
  - intros s [v Hv] Hsched. by rewrite Hv, Hsched in Hcases.
Qed.

Lemma scheduler_step_advances_witness :
  Dict.get "camera_opt" (config (self world_two_groups)) = Some camera_opt_default ∧
  ∃ w', scheduler_step "camera_opt" world_two_groups = (Ok tt, w') ∧
        trace w' = [ESchedulerStep "camera_opt"] ∧
        s_state <$> Dict.get "camera_opt" (schedulers (self w')) = Some 1.
Proof.
  split; [reflexivity|].
  destruct (scheduler_step_advances (H:=Reference.torch) "camera_opt"
              world_two_groups camera_opt_default eq_refl) as [_ Hadv].
  destruct (Hadv (get_scheduler (H:=Reference.torch)
                    (ExponentialDecaySchedulerConfig 1e-4 30000) 1e-3)
                 (ex_intro _ _ eq_refl) eq_refl) as (w' & Hrun & Htr & Hs).
  exists w'. split; [exact Hrun|]. split; [exact Htr|]. rewrite Hs. reflexivity.
Defined.

(** With the reference torch, whose constructors check their arguments as
    those of [torch.optim] do, a group with an empty parameter list makes
    construction raise at line 116 with the exception of the constructor;
    the legacy group after it is not reached and no warning is printed. *)
Example empty_parameter_list_raises :
  @__init__ Reference.torch [("field", field_entry)]
    [("field", []); ("camera_opt", [2])] =
    (Raise (ValueError [Lit "optimizer got an empty parameter list"]),
     [("field", field_entry)], []).
Proof. reflexivity. Qed.

(** With the reference torch, a plain step of the group "field", whose
    gradient (6, 8) has norm 10 and whose maximum norm is 1, leaves the
    gradient (0.6, 0.8) up to rounding, of norm at most 1, and steps once. *)
Example step_all_clips_reference :
  grad <$> heap (optimizer_step_all world_with_grad).2 !! 0 =
    Some (Some [0.599999940000006%float; 0.79999992000000808%float]) ∧
  PrimFloat.leb
    (sum_squares
       (read (heap (optimizer_step_all world_with_grad).2) [0; 1])) 1%float = true ∧
  o_state <$> Dict.get "field" (optimizers (self (optimizer_step_all world_with_grad).2)) =
    Some 1.
Proof. repeat split; vm_compute; reflexivity. Qed.

(** ** scrstudio.utils.io: parsing of Aachen paths *)

Module AachenPath.

Lemma characters : String underscore (String slash EmptyString) = "_/".
Proof. reflexivity. Qed.

Lemma str_replace_length old new s :
  String.length (str_replace old new s) = String.length s.
Proof. induction s as [|c s IH]; simpl; [done | by rewrite IH]. Qed.

Lemma re_sub_char_length old new n s :
  String.length (re_sub_char old new n s) = String.length s.
Proof.
  revert n. induction s as [|c s IH]; intros [|n]; simpl; try done.
  destruct (Ascii.eqb c old); simpl; by rewrite IH.
Qed.

Lemma re_sub_char_0 old new s : re_sub_char old new 0 s = s.
Proof. by destruct s. Qed.

Lemma eqb_underscore_slash : Ascii.eqb slash underscore = false.
Proof. reflexivity. Qed.

Lemma count_str_replace s :
  count_char underscore (str_replace underscore slash s) = 0.
Proof.
  induction s as [|c s IH]; simpl; [done|].
  destruct (Ascii.eqb c underscore) eqn:E; simpl; rewrite ?E; by rewrite IH.
Qed.

Lemma count_re_sub_char n s :
  count_char underscore (re_sub_char underscore slash n s) =
  count_char underscore s - n.
Proof.
  revert n. induction s as [|c s IH]; intros [|n]; simpl; try done.
  - lia.
  - destruct (Ascii.eqb c underscore) eqn:E; simpl.
    + rewrite IH. lia.
    + by rewrite E, IH.
Qed.

Lemma count_slash_str_replace s :
  count_char slash (str_replace underscore slash s) =
  count_char slash s + count_char underscore s.
Proof.
  induction s as [|c s IH]; simpl; [done|].
  destruct (Ascii.eqb c underscore) eqn:E.
  - apply Ascii.eqb_eq in E as ->. rewrite IH. simpl. lia.
  - rewrite IH. lia.
Qed.

Lemma count_slash_re_sub_char n s :
  count_char slash (re_sub_char underscore slash n s) =
  count_char slash s + (count_char underscore s `min` n).
Proof.
  revert n. induction s as [|c s IH]; intros [|n]; simpl; try lia.
  destruct (Ascii.eqb c underscore) eqn:E; simpl.
  - apply Ascii.eqb_eq in E as ->. rewrite IH. simpl. lia.
  - rewrite IH. simpl. lia.
Qed.

Lemma str_replace_get s i :
  String.get i (str_replace underscore slash s) = String.get i s ∨
  (String.get i s = Some underscore ∧
   String.get i (str_replace underscore slash s) = Some slash).
Proof.
  revert i. induction s as [|c s IH]; intros i; [by left|].
  destruct i as [|i]; simpl; [|apply IH].
  destruct (Ascii.eqb c underscore) eqn:E; [|by left].
  apply Ascii.eqb_eq in E as ->. by right.
Qed.

Lemma re_sub_char_get n s i :
  String.get i (re_sub_char underscore slash n s) = String.get i s ∨
  (String.get i s = Some underscore ∧
   String.get i (re_sub_char underscore slash n s) = Some slash).
Proof.
  revert n i. induction s as [|c s IH]; intros [|n] i; try by left.
  simpl. destruct (Ascii.eqb c underscore) eqn:E.
  - apply Ascii.eqb_eq in E as ->. destruct i as [|i]; simpl; [by right | apply IH].
  - destruct i as [|i]; simpl; [by left | apply (IH (S n))].
Qed.

(** [parse_aachen_path] keeps the length of the path and every character
    in its place, except that an underscore may have become a slash. *)
Theorem parse_aachen_path_in_place path :
  String.length (parse_aachen_path path) = String.length path ∧
  ∀ i, String.get i (parse_aachen_path path) = String.get i path ∨
       (String.get i path = Some underscore ∧
        String.get i (parse_aachen_path path) = Some slash).
Proof.
  unfold parse_aachen_path. destruct (str_contains "db" path).
  - split; [apply str_replace_length | apply str_replace_get].
  - split; [apply re_sub_char_length | apply re_sub_char_get].
Qed.

(** A path that contains "db" comes back without any underscore; any other
    path comes back with three underscores fewer, or with none if it had at
    most three; and in both cases every underscore that is gone has become
    a slash. *)
Theorem parse_aachen_path_underscores path :
  count_char underscore (parse_aachen_path path) =
    (if str_contains "db" path then 0 else count_char underscore path - 3) ∧
  count_char slash (parse_aachen_path path) + count_char underscore (parse_aachen_path path) =
    count_char slash path + count_char underscore path.
Proof.
  unfold parse_aachen_path. destruct (str_contains "db" path).
  - rewrite count_str_replace, count_slash_str_replace. split; [done | lia].
  - rewrite count_re_sub_char, count_slash_re_sub_char. split; [done | lia].
Qed.

Lemma str_replace_none s :
  count_char underscore s = 0 → str_replace underscore slash s = s.
Proof.
  induction s as [|c s IH]; simpl; [done|].
  destruct (Ascii.eqb c underscore); [done|]. intros Hs. by rewrite IH.
Qed.

Lemma re_sub_char_none n s :
  count_char underscore s = 0 → re_sub_char underscore slash n s = s.
Proof.
  revert n. induction s as [|c s IH]; intros [|n]; simpl; try done.
  destruct (Ascii.eqb c underscore); [done|]. intros Hs. by rewrite IH.
Qed.

Lemma append_cons c a b : String c a +:+ b = String c (a +:+ b).
Proof. reflexivity. Qed.

Lemma re_sub_char_app n a b :
  count_char underscore a = n →
  re_sub_char underscore slash n (a +:+ b) = str_replace underscore slash a +:+ b.
Proof.
  revert n. induction a as [|c a IH]; intros n Hn.
  - simpl in *. subst n. apply re_sub_char_0.
  - simpl in Hn. rewrite append_cons. destruct n as [|n]; simpl;
      destruct (Ascii.eqb c underscore) eqn:E; simpl in *;
      rewrite append_cons.
    + lia.
    + f_equal. rewrite str_replace_none; [done | lia].
    + f_equal. apply IH. lia.
    + f_equal. by apply IH.
Qed.

(** In a path without "db" only the first three underscores are replaced:
    what follows the third one is returned as it is. *)
Theorem parse_aachen_path_first_three a b :
  str_contains "db" (a +:+ b) = false →
  count_char underscore a = 3 →
  parse_aachen_path (a +:+ b) = str_replace underscore slash a +:+ b.
Proof.
  intros Hdb Hn. unfold parse_aachen_path. rewrite Hdb.
  by apply re_sub_char_app.
Qed.

Lemma replaced_char_d c :
  (if Ascii.eqb c underscore then slash else c) = Ascii.ascii_of_nat 100 ↔
  c = Ascii.ascii_of_nat 100.
Proof.
  destruct (Ascii.eqb c underscore) eqn:E; [|done].
  apply Ascii.eqb_eq in E as ->. split; discriminate.
Qed.

Lemma replaced_char_b c :
  (if Ascii.eqb c underscore then slash else c) = Ascii.ascii_of_nat 98 ↔
  c = Ascii.ascii_of_nat 98.
Proof.
  destruct (Ascii.eqb c underscore) eqn:E; [|done].
  apply Ascii.eqb_eq in E as ->. split; discriminate.
Qed.

Lemma prefix_empty s : String.prefix "" s = true.
Proof. by destruct s. Qed.

Lemma prefix_db_two c1 c2 s :
  String.prefix "db" (String c1 (String c2 s)) =
  bool_decide (c1 = Ascii.ascii_of_nat 100) && bool_decide (c2 = Ascii.ascii_of_nat 98).
Proof.
  cbn [String.prefix].
  destruct (Ascii.ascii_dec _ c1) as [<-|E1].
  - rewrite (bool_decide_eq_true_2 _ eq_refl). cbn [andb].
    destruct (Ascii.ascii_dec _ c2) as [<-|E2].
    + rewrite (bool_decide_eq_true_2 _ eq_refl). apply prefix_empty.
    + by rewrite bool_decide_eq_false_2.
  - by rewrite bool_decide_eq_false_2.
Qed.

Lemma prefix_db_one c1 : String.prefix "db" (String c1 EmptyString) = false.
Proof. cbn [String.prefix]. by destruct (Ascii.ascii_dec _ c1). Qed.

Lemma prefix_db_str_replace s :
  String.prefix "db" (str_replace underscore slash s) = String.prefix "db" s.
Proof.
  destruct s as [|c1 [|c2 s]]; [done| |]; cbn [str_replace].
  - by rewrite !prefix_db_one.
  - rewrite !prefix_db_two. f_equal; apply bool_decide_ext.
    + apply replaced_char_d.
    + apply replaced_char_b.
Qed.

Lemma str_contains_db_str_replace s :
  str_contains "db" (str_replace underscore slash s) = str_contains "db" s.
Proof.
  induction s as [|c s IH]; [done|].
  change (str_contains "db" (str_replace underscore slash (String c s)))
    with (String.prefix "db" (str_replace underscore slash (String c s)) ||
          str_contains "db" (str_replace underscore slash s)).
  change (str_contains "db" (String c s))
    with (String.prefix "db" (String c s) || str_contains "db" s).
  by rewrite prefix_db_str_replace, IH.
Qed.

(** Parsing is stable where it is complete: the result of parsing a path
    that contains "db", and a path without underscore, are returned
    unchanged by [parse_aachen_path]. *)
Theorem parse_aachen_path_stable path :
  (str_contains "db" path = true →
   parse_aachen_path (parse_aachen_path path) = parse_aachen_path path) ∧
  (count_char underscore path = 0 → parse_aachen_path path = path).
Proof.
  unfold parse_aachen_path. split.
  - intros Hdb. rewrite Hdb, str_contains_db_str_replace, Hdb.
    apply str_replace_none, count_str_replace.
  - intros Hn. destruct (str_contains "db" path);
      [by apply str_replace_none | by apply re_sub_char_none].
Qed.

Lemma parse_aachen_path_first_three_witness :
  str_contains "db" ("query_day_nexus5x_" +:+ "IMG_20161227_160238.jpg") = false ∧
  count_char underscore "query_day_nexus5x_" = 3 ∧
  parse_aachen_path "query_day_nexus5x_IMG_20161227_160238.jpg" =
    "query/day/nexus5x/IMG_20161227_160238.jpg".
Proof.
  split; [reflexivity|]. split; [reflexivity|].
  exact (parse_aachen_path_first_three "query_day_nexus5x_" "IMG_20161227_160238.jpg"
           eq_refl eq_refl).
Defined.

Lemma parse_aachen_path_stable_witness :
  str_contains "db" "db_1045.jpg" = true ∧
  parse_aachen_path (parse_aachen_path "db_1045.jpg") = parse_aachen_path "db_1045.jpg" ∧
  parse_aachen_path "db_1045.jpg" = "db/1045.jpg".
Proof.
  split; [reflexivity|]. split; [|reflexivity].
  exact (proj1 (parse_aachen_path_stable "db_1045.jpg") eq_refl).
Defined.

Lemma str_contains_db_app a b : str_contains "db" (a +:+ "db" +:+ b) = true.
Proof.
  induction a as [|c a IH].
  - change ("" +:+ "db" +:+ b) with (String (Ascii.ascii_of_nat 100)
                                      (String (Ascii.ascii_of_nat 98) b)).
    destruct b; cbn [str_contains]; rewrite prefix_db_two;
      by rewrite !(bool_decide_eq_true_2 _ eq_refl).
  - rewrite append_cons. cbn [str_contains]. rewrite IH. apply orb_true_r.
Qed.

(** The test for "db" is a test for a substring anywhere in the path: a
    path in which "db" occurs at any place, also a query path, loses all
    its underscores. *)
Theorem parse_aachen_path_db_anywhere a b :
  parse_aachen_path (a +:+ "db" +:+ b) =
    str_replace underscore slash (a +:+ "db" +:+ b) ∧
  count_char underscore (parse_aachen_path (a +:+ "db" +:+ b)) = 0.
Proof.
  unfold parse_aachen_path. rewrite str_contains_db_app.
  split; [done | apply count_str_replace].
Qed.

End AachenPath.

(** ** Construction: the objects built *)

Section ConstructionBuilds.
Context `{Torch}.

Lemma keys_app {V} (d d' : dict V) : Dict.keys (d ++ d') = Dict.keys d ++ Dict.keys d'.
Proof. unfold Dict.keys. apply fmap_app. Qed.

Lemma in_dict_keys {V} g (v : V) d : (g, v) ∈ d → g ∈ Dict.keys d.
Proof. intros Hin. unfold Dict.keys. by apply (list_elem_of_fmap_2 fst) in Hin. Qed.

Lemma init_group_built done g ps st st' :
  g ∉ Dict.keys done →
  built_so_far done st →
  init_group (g, ps) st = (Ok tt, st') →
  built_so_far (done ++ [(g, ps)]) st'.
Proof.
  intros Hg (Hkeys & Hpar & Hnone & Hobj) Hrun.
  assert (i_optimizers (after_legacy g st) = i_optimizers st ∧
          i_schedulers (after_legacy g st) = i_schedulers st ∧
          i_parameters (after_legacy g st) = i_parameters st) as (Ho & Hs & Hp).
  { unfold after_legacy. by destruct (legacy_fires g (i_config st)). }
  assert (Dict.get g (i_optimizers st) = None) as Hgo.
  { apply DictFacts.get_None. by rewrite Hkeys. }
  assert (Dict.get g (i_parameters st) = None) as Hgp.
  { apply DictFacts.get_None. by rewrite Hpar. }
  rewrite init_group_eq in Hrun. unfold init_group_cases in Hrun.
  destruct (Dict.get g (i_config (after_legacy g st))) as [e|] eqn:Eg; [|done].
  destruct (e !! "optimizer") as [[|c|sc]|] eqn:Eo; try done.
  destruct (setup c ps) as [opt|ex] eqn:Eopt; [|done].
  assert (∃ sched,
            st' = {| i_config := i_config (after_legacy g st);
                     i_console := i_console (after_legacy g st);
                     i_optimizers := Dict.set g opt (i_optimizers st);
                     i_schedulers := sched;
                     i_parameters := Dict.set g ps (i_parameters st) |} ∧
            Dict.get g sched = scheduler_for e c ∧
            ∀ g', g' ≠ g → Dict.get g' sched = Dict.get g' (i_schedulers st))
    as (sched & -> & Hsg & Hso).
  { unfold scheduler_for.
    destruct (e !! "scheduler") as [[|c'|sc']|] eqn:Es; try done;
      injection Hrun as <-;
      unfold after_scheduler, after_optimizer;
      cbn [i_config i_console i_optimizers i_schedulers i_parameters];
      rewrite Ho, Hs, Hp; eexists; (split; [reflexivity|]).
    - split; [apply Hnone, Hg | done].
    - split; [apply DictFacts.get_set_eq|].
      intros g' Hne. by apply DictFacts.get_set_ne. }
  unfold built_so_far. cbn [i_config i_optimizers i_schedulers i_parameters].
  rewrite !DictFacts.set_absent by done. rewrite !keys_app, Hkeys, Hpar.
  split; [done|]. split; [done|]. split.
  - intros g' Hg'. apply not_elem_of_app in Hg' as [Hg1 Hg2].
    rewrite Hso; [by apply Hnone|].
    intros ->. apply Hg2, list_elem_of_here.
  - intros g' ps' Hin. apply elem_of_app in Hin as [Hin|Hin].
    + destruct (Hobj g' ps' Hin) as (e' & c' & opt' & He' & Ho' & Hset & Hopt & Hsch).
      assert (g' ≠ g) as Hne.
      { intros ->. apply Hg. by eapply in_dict_keys. }
      exists e', c', opt'. split; [by apply after_legacy_get_mono|].
      split; [done|]. split; [done|].
      rewrite <- (DictFacts.set_absent g opt) by done.
      rewrite DictFacts.get_set_ne by done. split; [done|].
      by rewrite Hso.
    + apply list_elem_of_singleton in Hin. injection Hin as -> ->.
      exists e, c, opt. split; [done|]. split; [done|]. split; [done|].
      rewrite <- (DictFacts.set_absent g opt) by done.
      by rewrite DictFacts.get_set_eq.
Qed.

Lemma for_each_init_built rest done st st' :
  NoDup (Dict.keys (done ++ rest)) →
  built_so_far done st →
  for_each rest init_group st = (Ok tt, st') →
  built_so_far (done ++ rest) st'.
Proof.
  revert done st. induction rest as [|[g ps] rest IH]; intros done st Hnd Hb Hrun.
  - injection Hrun as <-. by rewrite app_nil_r.
  - rewrite for_each_cons in Hrun.
    destruct (init_group (g, ps) st) as [[[]|e] st1] eqn:E1; [|done].
    assert (g ∉ Dict.keys done) as Hg.
    { rewrite keys_app, keys_cons in Hnd. apply NoDup_app in Hnd as (_ & Hd & _).
      intros Hin. apply (Hd g Hin), list_elem_of_here. }
    rewrite (cons_middle (g, ps)), app_assoc in Hnd |- *.
    apply (IH _ st1); [done | | done].
    by eapply init_group_built.
Qed.

(** On a parameter mapping (its keys are distinct) that it accepts,
    construction builds exactly one optimizer per group and keeps the
    groups in their order; the parameter lists it records are the mapping
    itself; the optimizer of a group is the one its optimizer config sets up
    on the group's parameters; and the group has a scheduler exactly when
    its entry holds a scheduler config, started from the learning rate of
    the optimizer config. *)
Theorem construction_builds_each_group cfg groups o cfg' con :
  NoDup (Dict.keys groups) →
  __init__ cfg groups = (Ok o, cfg', con) →
  Dict.keys (optimizers o) = Dict.keys groups ∧
  parameters o = groups ∧
  (∀ g, g ∉ Dict.keys groups → Dict.get g (schedulers o) = None) ∧
  ∀ g ps, (g, ps) ∈ groups →
    ∃ e c opt, Dict.get g cfg' = Some e ∧
               e !! "optimizer" = Some (VOptimizer c) ∧
               setup c ps = Ok opt ∧
               Dict.get g (optimizers o) = Some opt ∧
               Dict.get g (schedulers o) = scheduler_for e c.
Proof.
  intros Hnd Hrun. rewrite init_unfold in Hrun.
  destruct (for_each groups init_group (init_start cfg)) as [[[]|e] st] eqn:E;
    cbn [fst snd] in Hrun; [|done].
  injection Hrun as <- <- _.
  apply (for_each_init_built groups [] (init_start cfg) st Hnd); [|done].
  repeat split; try done.
  intros g ps Hin. by apply elem_of_nil in Hin.
Qed.

Lemma init_group_ok_builds name ps st st' :
  init_group (name, ps) st = (Ok tt, st') →
  group_builds (i_config st) (name, ps) = true.
Proof.
  intros Hrun. destruct (group_builds (i_config st) (name, ps)) eqn:Hr; [done|].
  destruct (init_group_not_builds name ps st Hr) as [e He].
  by rewrite Hrun in He.
Qed.

Lemma for_each_init_warned groups st :
  i_console st = [] →
  i_console (for_each groups init_group st).2 ≠ [] →
  ∃ pre ps post,
    groups = pre ++ ("camera_opt", ps) :: post ∧
    ("camera_opt" ∉ Dict.keys pre) ∧
    Forall (λ g, group_builds (i_config st) g = true) pre ∧
    Dict.get "camera_opt" (i_config st) = None.
Proof.
  revert st. induction groups as [|[n ps] groups IH]; intros st Hcon Hw.
  { simpl in Hw. congruence. }
  destruct (decide (n = "camera_opt")) as [->|Hne].
  - destruct (Dict.get "camera_opt" (i_config st)) as [e|] eqn:Eg.
    + exfalso. apply Hw.
      pose proof (for_each_init_inv (i_config st) (("camera_opt", ps) :: groups) st) as Hinv.
      unfold init_inv in Hinv.
      assert (legacy_outcome (i_config st) (i_config st) (i_console st)) as H0
        by (rewrite Hcon; constructor).
      specialize (Hinv H0).
      inversion Hinv as [Hc Hcn|Hnone Hc Hcn]; [done | congruence].
    + exists [], ps, groups. repeat split; try done. apply not_elem_of_nil.
  - rewrite for_each_cons in Hw.
    destruct (init_group_config n ps st) as [Hc Hcn].
    rewrite after_legacy_other in Hc, Hcn by done.
    destruct (init_group (n, ps) st) as [[[]|e] st1] eqn:E1; cbn [snd] in *.
    2: { congruence. }
    destruct (IH st1) as (pre & ps' & post & -> & Hnin & Hpre & Hnone);
      [congruence | done |].
    exists ((n, ps) :: pre), ps', post. split; [done|]. split.
    { rewrite keys_cons. apply not_elem_of_cons. by split. }
    split; [|congruence].
    apply Forall_cons. split; [by eapply init_group_ok_builds | by rewrite <- Hc].
Qed.

(** The deprecation warning is printed, once, exactly when the loop
    reaches the group 'camera_opt' while the configuration has no entry for
    it: the group is in the parameter mapping, every group before it
    builds, so that none raises, and the configuration passed has no
    'camera_opt' key.  Whether 'camera_opt' itself or a later group builds
    does not matter: the warning is printed before anything is set up for
    the group. *)
Theorem legacy_warning_iff cfg groups :
  ((__init__ cfg groups).2 = [camera_opt_warning] ↔
   ∃ pre ps post,
     groups = pre ++ ("camera_opt", ps) :: post ∧
     ("camera_opt" ∉ Dict.keys pre) ∧
     Forall (λ g, group_builds cfg g = true) pre ∧
     Dict.get "camera_opt" cfg = None) ∧
  ((__init__ cfg groups).2 = [camera_opt_warning] ∨ (__init__ cfg groups).2 = []).
Proof.
  pose proof (init_legacy_outcome cfg groups) as Hout. split.
  2: { inversion Hout; by eauto. }
  split.
  - intros Hw. rewrite init_unfold in Hw. cbn [snd] in Hw.
    apply (for_each_init_warned groups (init_start cfg)); [done|].
    by rewrite Hw.
  - intros (pre & ps & post & -> & Hnin & Hpre & Hnone).
    destruct (init_reaches cfg pre ("camera_opt", ps) post Hpre)
      as (st & Hinv & Hrun_pre & Hrun).
    destruct (for_each_init_no_camera pre (init_start cfg) Hnin) as [Hc _].
    rewrite Hrun_pre in Hc. cbn [snd init_start i_config] in Hc.
    assert (Dict.get "camera_opt"
              (i_config (for_each (pre ++ ("camera_opt", ps) :: post) init_group
                           (init_start cfg)).2) = Some camera_opt_default) as Hget.
    { rewrite Hrun.
      destruct (init_group_config "camera_opt" ps st) as [Hc1 _].
      assert (Dict.get "camera_opt" (i_config (init_group ("camera_opt", ps) st).2)
              = Some camera_opt_default) as Hg1.
      { rewrite Hc1, after_legacy_get.
        assert (legacy_fires "camera_opt" (i_config st) = true) as ->
          by (apply legacy_fires_spec; by rewrite Hc).
        done. }
      destruct (init_group ("camera_opt", ps) st) as [[[]|e] st1]; cbn [snd] in *;
        [by apply for_each_init_get_mono | done]. }
    rewrite init_unfold in Hout |- *. cbn [fst snd] in *.
    inversion Hout as [Hc' Hcn|Hn' Hc' Hcn]; [|done].
    rewrite <- Hc' in Hget. congruence.
Qed.

Lemma legacy_outcome_cases cfg cfg' con :
  legacy_outcome cfg cfg' con →
  (cfg' = cfg ∧ con = []) ∨
  (Dict.get "camera_opt" cfg = None ∧
   cfg' = cfg ++ [("camera_opt", camera_opt_default)] ∧
   con = [camera_opt_warning]).
Proof. intros [|Hnone]; [by left | by right]. Qed.

(** The warning is printed at most once per configuration dictionary: a
    construction on the dictionary that a construction which warned has
    left prints nothing and leaves the dictionary as it is, whatever the
    parameter mapping. *)
Theorem legacy_warning_once_per_config cfg groups groups' :
  (__init__ cfg groups).2 = [camera_opt_warning] →
  (__init__ (__init__ cfg groups).1.2 groups').2 = [] ∧
  (__init__ (__init__ cfg groups).1.2 groups').1.2 = (__init__ cfg groups).1.2.
Proof.
  intros Hw.
  destruct (legacy_outcome_cases _ _ _ (init_legacy_outcome cfg groups))
    as [[_ Hcn]|(Hnone & Hc & _)]; [congruence|].
  destruct (legacy_outcome_cases _ _ _
              (init_legacy_outcome (__init__ cfg groups).1.2 groups'))
    as [[Hc' Hcn']|(Hnone' & _ & _)]; [done|].
  rewrite Hc in Hnone'.
  rewrite DictFacts.get_app_absent in Hnone' by done. by simpl in Hnone'.
Qed.

End ConstructionBuilds.

Lemma construction_builds_each_group_witness :
  NoDup (Dict.keys [("field", [0; 1]); ("camera_opt", [2])]) ∧
  Dict.keys (optimizers (self world_two_groups)) = ["field"; "camera_opt"] ∧
  parameters (self world_two_groups) = [("field", [0; 1]); ("camera_opt", [2])].
Proof.
  assert (NoDup (Dict.keys [("field", [0; 1]); ("camera_opt", [2])])) as Hnd.
  { unfold Dict.keys. csimpl. apply NoDup_cons. split.
    - apply not_elem_of_cons. split; [discriminate | apply not_elem_of_nil].
    - apply NoDup_singleton. }
  split; [exact Hnd|].
  destruct (construction_builds_each_group (H:=Reference.torch)
              [("field", field_entry)] [("field", [0; 1]); ("camera_opt", [2])]
              (self world_two_groups)
              [("field", field_entry); ("camera_opt", camera_opt_default)]
              [camera_opt_warning] Hnd eq_refl) as (Hk & Hp & _).
  split; [exact Hk | exact Hp].
Defined.

Lemma legacy_warning_once_per_config_witness :
  (@__init__ Reference.torch [("field", field_entry)]
     [("field", [0; 1]); ("camera_opt", [2])]).2 = [camera_opt_warning] ∧
  (@__init__ Reference.torch
     [("field", field_entry); ("camera_opt", camera_opt_default)]
     [("camera_opt", [2]); ("field", [0; 1])]).2 = [].
Proof.
  split; [reflexivity|].
  exact (proj1 (legacy_warning_once_per_config (H:=Reference.torch)
                  [("field", field_entry)] [("field", [0; 1]); ("camera_opt", [2])]
                  [("camera_opt", [2]); ("field", [0; 1])] eq_refl)).
Defined.

(** ** The methods: single steps, zeroing, unknown names *)

Section MethodsMore.
Context `{Torch}.

Lemma call_step_result g o w :
  Dict.get g (optimizers (self w)) = Some o →
  Dict.get g (optimizers (self (call_step g o w).2)) =
    Some (with_state
            (optim_step (o_hyper o) (o_state o) (read (heap w) (tensors_of o))).1 o).
Proof.
  intros Ho. unfold call_step, set_heap, emit.
  cbv [mbind M_bind mret M_ret gets modify].
  destruct (optim_step _ _ _) as [st ts]. cbn.
  by rewrite DictFacts.get_alter_eq, Ho.
Qed.

(** [optimizer_step] on a name that has no optimizer raises [KeyError] and
    changes nothing.  On a group it steps the optimizer of that group with
    the gradients as they are, without clipping them, also when the group
    has a maximum norm configured; the optimizer objects of the other groups
    and every tensor the stepped optimizer does not refer to stay as they
    are, as do the configuration, the schedulers and the scaler. *)
Theorem optimizer_step_one_group g w :
  (Dict.get g (optimizers (self w)) = None →
   optimizer_step g w = (Raise (KeyError g), w)) ∧
  (∀ o, Dict.get g (optimizers (self w)) = Some o →
     ∃ w', optimizer_step g w = (Ok tt, w') ∧
           trace w' = trace w ++ [EStep g] ∧
           grad_scaler w' = grad_scaler w ∧
           config (self w') = config (self w) ∧
           schedulers (self w') = schedulers (self w) ∧
           parameters (self w') = parameters (self w) ∧
           Dict.get g (optimizers (self w')) =
             Some (with_state
                     (optim_step (o_hyper o) (o_state o)
                        (read (heap w) (tensors_of o))).1 o) ∧
           (∀ g', g' ≠ g →
              Dict.get g' (optimizers (self w')) = Dict.get g' (optimizers (self w))) ∧
           (∀ t, t ∉ tensors_of o → heap w' !! t = heap w !! t)).
Proof.
  unfold optimizer_step. rewrite bind_eq, self_optimizers_getitem_eq. split.
  - intros Hn. by rewrite (getitem_None _ _ Hn).
  - intros o Ho. rewrite (getitem_Some _ _ _ Ho).
    pose proof (call_step_result g o w Ho) as Hres.
    destruct (call_step_spec g o w) as (w' & Hrun & Htr & Hsc & [Hc Hp Hs _ _ Hog Hh]).
    rewrite Hrun in Hres |- *. cbn [snd] in Hres.
    exists w'. repeat split; try done.
    intros g' Hne. apply Hog. by intros ->.
Qed.

Lemma zero_grad_some_cons g names w :
  zero_grad_some (g :: names) w =
  match Dict.get g (optimizers (self w)) with
  | Some o => zero_grad_some names (call_zero_grad g o w).2
  | None => (Raise (KeyError g), w)
  end.
Proof.
  unfold zero_grad_some. rewrite for_each_cons.
  rewrite bind_eq, self_optimizers_getitem_eq. unfold getitem.
  destruct (Dict.get g (optimizers (self w))) as [o|]; [|done].
  by destruct (call_zero_grad_spec g o w) as (w' & -> & _).
Qed.

Lemma zero_grad_some_app names names' w :
  zero_grad_some (names ++ names') w =
  match zero_grad_some names w with
  | (Ok _, w') => zero_grad_some names' w'
  | (Raise e, w') => (Raise e, w')
  end.
Proof. apply for_each_app. Qed.

Lemma zero_grad_some_known names w :
  (∀ g, g ∈ names → g ∈ Dict.keys (optimizers (self w))) →
  (zero_grad_some names w).1 = Ok tt ∧
  self (zero_grad_some names w).2 = self w ∧
  grad_scaler (zero_grad_some names w).2 = grad_scaler w ∧
  trace (zero_grad_some names w).2 = trace w ++ (EZeroGrad <$> names) ∧
  ∀ t, (∀ g o, g ∈ names → Dict.get g (optimizers (self w)) = Some o →
               t ∉ tensors_of o) →
       heap (zero_grad_some names w).2 !! t = heap w !! t.
Proof.
  revert w. induction names as [|n names IH]; intros w Hin.
  { repeat split; try done. by rewrite app_nil_r. }
  rewrite zero_grad_some_cons.
  assert (n ∈ Dict.keys (optimizers (self w))) as Hn by apply Hin, list_elem_of_here.
  apply DictFacts.get_is_Some in Hn as [o Ho]. rewrite Ho.
  destruct (call_zero_grad_spec n o w) as (w1 & Hrun & Htr & Hself & Hsc & Hf).
  rewrite Hrun. cbn [snd].
  destruct (IH w1) as (Hok & Hself2 & Hsc2 & Htr2 & Hh2).
  { intros g Hg. rewrite Hself. by apply Hin, list_elem_of_further. }
  split; [done|]. split; [by rewrite Hself2|]. split; [by rewrite Hsc2|]. split.
  - by rewrite Htr2, Htr, fmap_cons, <- app_assoc.
  - intros t Ht. rewrite Hh2.
    + apply (frame_heap _ _ _ _ Hf). apply (Ht n o); [apply list_elem_of_here | done].
    + intros g o' Hg Ho'. rewrite Hself in Ho'.
      apply (Ht g o'); [by apply list_elem_of_further | done].
Qed.

(** [zero_grad_all] never raises: it calls [zero_grad] once on the
    optimizer of every group, in the order of [self.optimizers], and is
    [zero_grad_some] on the names of all groups.  It leaves the coordinator
    object, the scaler and every tensor no optimizer refers to as they
    are. *)
Theorem zero_grad_all_total w :
  (zero_grad_all w).1 = Ok tt ∧
  zero_grad_all w = zero_grad_some (Dict.keys (optimizers (self w))) w ∧
  self (zero_grad_all w).2 = self w ∧
  grad_scaler (zero_grad_all w).2 = grad_scaler w ∧
  trace (zero_grad_all w).2 =
    trace w ++ (EZeroGrad <$> Dict.keys (optimizers (self w))) ∧
  ∀ t, (∀ g o, Dict.get g (optimizers (self w)) = Some o → t ∉ tensors_of o) →
       heap (zero_grad_all w).2 !! t = heap w !! t.
Proof.
  assert (zero_grad_all w = zero_grad_some (Dict.keys (optimizers (self w))) w)
    as -> by done.
  destruct (zero_grad_some_known (Dict.keys (optimizers (self w))) w)
    as (Hok & Hself & Hsc & Htr & Hh); [done|].
  repeat split; try done.
  intros t Ht. apply Hh. intros g o _. apply Ht.
Qed.

(** [zero_grad_some] zeroes the named groups in the order given.  A name
    that has no optimizer raises [KeyError] when its turn comes: the groups
    named before it have been zeroed by then and stay so, those named after
    it are not reached. *)
Theorem zero_grad_some_unknown_name pre k post w :
  (∀ g, g ∈ pre → g ∈ Dict.keys (optimizers (self w))) →
  k ∉ Dict.keys (optimizers (self w)) →
  zero_grad_some (pre ++ k :: post) w =
    (Raise (KeyError k), (zero_grad_some pre w).2) ∧
  trace (zero_grad_some pre w).2 = trace w ++ (EZeroGrad <$> pre) ∧
  self (zero_grad_some pre w).2 = self w.
Proof.
  intros Hpre Hk.
  destruct (zero_grad_some_known pre w Hpre) as (Hok & Hself & _ & Htr & _).
  split; [|by split].
  rewrite zero_grad_some_app.
  destruct (zero_grad_some pre w) as [[[]|e] w1]; [|done]. cbn [fst snd] in *.
  rewrite zero_grad_some_cons, Hself.
  apply DictFacts.get_None in Hk. by rewrite Hk.
Qed.

(** The scaled stepping of named groups raises [KeyError] for a name that
    has no optimizer when its turn comes, after the groups named before it
    have had theirs. *)
Theorem optimizer_scaler_step_some_unknown_name pre k post w :
  coordinator_ok (self w) →
  (∀ g, g ∈ pre → g ∈ Dict.keys (optimizers (self w))) →
  k ∉ Dict.keys (optimizers (self w)) →
  (optimizer_scaler_step_some pre w).1 = Ok tt ∧
  optimizer_scaler_step_some (pre ++ k :: post) w =
    (Raise (KeyError k), (optimizer_scaler_step_some pre w).2).
Proof.
  intros Hok Hpre Hk.
  destruct (optimizer_scaler_step_some_ok pre w Hok Hpre) as [Hr _].
  split; [done|].
  assert (frame (λ g, g ∈ pre) (tensor_of_groups pre (self w)) w
                (optimizer_scaler_step_some pre w).2) as Hf
    by apply (loop_frame_steps _ some_body_spec pre w).
  rewrite optimizer_scaler_step_some_app.
  destruct (optimizer_scaler_step_some pre w) as [[[]|e] w1]; [|done].
  cbn [fst snd] in *. rewrite optimizer_scaler_step_some_cons.
  rewrite <- (frame_keys _ _ _ _ Hf) in Hk.
  apply DictFacts.get_None in Hk. by rewrite Hk.
Qed.

Lemma unscale_and_clip_trace g w :
  coordinator_ok (self w) → g ∈ Dict.keys (optimizers (self w)) →
  trace (unscale_and_clip g w).2 =
    trace w ++ match max_norm_of (self w) g with
               | Some m => [EUnscale g; EClip g (parameters_of (self w) g) m]
               | None => []
               end.
Proof.
  intros Hok Hg. unfold unscale_and_clip.
  rewrite bind_eq, (self_config_max_norm_ok g w Hok Hg).
  destruct (max_norm_of (self w) g) as [m|]; [|by rewrite app_nil_r].
  rewrite bind_eq, self_optimizers_getitem_eq.
  pose proof Hg as Hg'. apply DictFacts.get_is_Some in Hg' as [o Ho].
  rewrite (getitem_Some _ _ _ Ho).
  destruct (call_unscale_spec g o w) as (w1 & Hun & Htr1 & Hself & _).
  rewrite bind_eq, Hun, bind_eq, self_parameters_getitem_eq, Hself.
  destruct (Hok g Hg) as [_ [ps Hps]]. rewrite (getitem_Some _ _ _ Hps).
  unfold parameters_of. rewrite Hps. cbn [default from_option id].
  destruct (call_clip_spec g ps m w1) as (w2 & -> & Htr2 & _). cbn [snd].
  by rewrite Htr2, Htr1, <- app_assoc.
Qed.

(** The calls of one turn of the scaled stepping methods, on a configured
    group: when a maximum norm is configured, the scaler's [unscale_] on the
    optimizer of the group and then [clip_grad_norm_] on the parameter list
    of the group with that norm, and neither of them otherwise; then the
    scaler's step, if a parameter of the group has a gradient when these
    are done, and nothing else. *)
Theorem scaled_turn_calls g w :
  coordinator_ok (self w) →
  g ∈ Dict.keys (optimizers (self w)) →
  (unscale_clip_step g w).1 = Ok tt ∧
  trace (unscale_and_clip g w).2 =
    trace w ++ match max_norm_of (self w) g with
               | Some m => [EUnscale g; EClip g (parameters_of (self w) g) m]
               | None => []
               end ∧
  ∃ o, Dict.get g (optimizers (self (unscale_and_clip g w).2)) = Some o ∧
       trace (unscale_clip_step g w).2 =
         trace (unscale_and_clip g w).2 ++
         (if any_grad (heap (unscale_and_clip g w).2) o then [EScalerStep g] else []).
Proof.
  intros Hok Hg. split; [by apply unscale_clip_step_ok|].
  split; [by apply unscale_and_clip_trace|].
  rewrite unscale_clip_step_eq.
  pose proof (unscale_and_clip_ok g w Hok Hg) as Hr.
  destruct (unscale_and_clip_spec g w) as [Hf _].
  destruct (unscale_and_clip g w) as [[[]|e] w_c]; [|done]. cbn [fst snd] in *.
  assert (g ∈ Dict.keys (optimizers (self w_c))) as Hgc
    by (by rewrite (frame_keys _ _ _ _ Hf)).
  destruct (step_if_grad_cases g w_c) as [[Hnone _]|(o & Ho & ->)].
  { apply DictFacts.get_is_Some in Hgc as [? ?]. congruence. }
  exists o. split; [done|].
  destruct (any_grad (heap w_c) o); cbn [snd]; [|by rewrite app_nil_r].
  destruct (call_scaler_step_spec g o w_c) as (w' & -> & Htr & _).
  by cbn [snd].
Qed.

End MethodsMore.

(** ** The methods: schedulers, checkpoints, invariants *)

Section MethodsInvariants.
Context `{Torch}.

Lemma scheduler_step_all_eq step w :
  scheduler_step_all step w =
  for_each (Dict.keys (schedulers (self w))) (scheduler_turn step) w.
Proof. reflexivity. Qed.

Lemma scheduler_turn_run step g s w :
  Dict.get g (schedulers (self w)) = Some s →
  ∃ w', scheduler_turn step g w = (Ok tt, w') ∧
        config (self w') = config (self w) ∧
        parameters (self w') = parameters (self w) ∧
        heap w' = heap w ∧ grad_scaler w' = grad_scaler w ∧
        schedulers (self w') = Dict.alter (loaded_scheduler (stepped_scheduler s).(s_state)) g (schedulers (self w)) ∧
        optimizers (self w') = Dict.alter (with_lr (stepped_rate s)) g (optimizers (self w)) ∧
        trace w' = trace w ++
          [ESchedulerStep g;
           EPutScalar [Lit "learning_rate/"; FStr g] (stepped_rate s) step].
Proof.
  intros Hs. unfold scheduler_turn, stepped_scheduler, stepped_rate.
  rewrite bind_eq, self_schedulers_getitem_eq, (getitem_Some _ _ _ Hs).
  destruct (sched_step (s_config s) (s_lr_init s) (s_state s)) as [st r].
  eexists. split; [reflexivity|]. cbn. repeat split; try done.
  by rewrite <- app_assoc.
Qed.

Lemma get_of_elem {V} g (v : V) d :
  NoDup (Dict.keys d) → (g, v) ∈ d → Dict.get g d = Some v.
Proof.
  induction d as [|[k x] d IH]; intros Hnd Hin; [by apply elem_of_nil in Hin|].
  rewrite keys_cons in Hnd. apply NoDup_cons in Hnd as [Hk Hnd].
  apply elem_of_cons in Hin as [[= -> ->]|Hin]; simpl.
  - by rewrite decide_True.
  - rewrite decide_False; [by apply IH|].
    intros ->. apply Hk. by eapply in_dict_keys.
Qed.

Lemma scheduler_loop step rest w :
  NoDup (Dict.keys rest) →
  (∀ g s, (g, s) ∈ rest → Dict.get g (schedulers (self w)) = Some s) →
  ∃ w', for_each (Dict.keys rest) (scheduler_turn step) w = (Ok tt, w') ∧
        config (self w') = config (self w) ∧
        parameters (self w') = parameters (self w) ∧
        heap w' = heap w ∧ grad_scaler w' = grad_scaler w ∧
        Dict.keys (schedulers (self w')) = Dict.keys (schedulers (self w)) ∧
        Dict.keys (optimizers (self w')) = Dict.keys (optimizers (self w)) ∧
        trace w' = trace w ++ scheduler_reports step rest ∧
        (∀ g s, (g, s) ∈ rest →
           Dict.get g (schedulers (self w')) = Some (stepped_scheduler s) ∧
           Dict.get g (optimizers (self w')) =
             with_lr (stepped_rate s) <$> Dict.get g (optimizers (self w))) ∧
        (∀ g, g ∉ Dict.keys rest →
           Dict.get g (schedulers (self w')) = Dict.get g (schedulers (self w)) ∧
           Dict.get g (optimizers (self w')) = Dict.get g (optimizers (self w))).
Proof.
  revert w. induction rest as [|[k s] rest IH]; intros w Hnd Hget.
  { exists w. split; [done|]. do 6 (split; [done|]).
    split; [unfold scheduler_reports; simpl; by rewrite app_nil_r|].
    split; [intros g s Hin; by apply elem_of_nil in Hin | by intros g _]. }
  rewrite keys_cons in Hnd |- *. apply NoDup_cons in Hnd as [Hk Hnd].
  assert (Dict.get k (schedulers (self w)) = Some s) as Hs
    by apply Hget, list_elem_of_here.
  destruct (scheduler_turn_run step k s w Hs)
    as (w1 & Hrun & Hc & Hp & Hh & Hsc & Hsch & Hopt & Htr).
  destruct (IH w1 Hnd) as (w2 & Hrun2 & Hc2 & Hp2 & Hh2 & Hsc2 & Hks2 & Hko2 & Htr2 & Hin2 & Hout2).
  { intros g s' Hin. rewrite Hsch, DictFacts.get_alter_ne.
    - by apply Hget, list_elem_of_further.
    - intros ->. apply Hk. by eapply in_dict_keys. }
  exists w2. rewrite for_each_cons, Hrun. split; [done|].
  split; [congruence|]. split; [congruence|]. split; [congruence|].
  split; [congruence|].
  split; [by rewrite Hks2, Hsch, DictFacts.keys_alter|].
  split; [by rewrite Hko2, Hopt, DictFacts.keys_alter|].
  split.
  { rewrite Htr2, Htr. unfold scheduler_reports. rewrite fmap_cons. cbn [concat fst snd].
    by rewrite <- app_assoc. }
  split.
  - intros g s' Hin. apply elem_of_cons in Hin as [[= -> ->]|Hin].
    + destruct (Hout2 k Hk) as [-> ->].
      rewrite Hsch, Hopt, !DictFacts.get_alter_eq, Hs. done.
    + destruct (Hin2 g s' Hin) as [-> ->].
      assert (k ≠ g) as Hne by (intros ->; apply Hk; by eapply in_dict_keys).
      by rewrite Hopt, DictFacts.get_alter_ne.
  - intros g Hg. apply not_elem_of_cons in Hg as [Hne Hg].
    destruct (Hout2 g Hg) as [-> ->].
    by rewrite Hsch, Hopt, !DictFacts.get_alter_ne.
Qed.

(** [scheduler_step_all] on a coordinator (the keys of its scheduler
    dictionary are distinct) never raises, also when some groups have no
    scheduler: it steps every scheduler once, in the order of
    [self.schedulers], and after each step reports one scalar, named
    "learning_rate/" followed by the group, with the step index passed and
    the rate that scheduler yields, which is the rate written to the
    optimizer of the group.  Groups without scheduler, the configuration,
    the parameter lists, the tensors and the scaler are left as they are. *)
Theorem scheduler_step_all_reports step w :
  NoDup (Dict.keys (schedulers (self w))) →
  (scheduler_step_all step w).1 = Ok tt ∧
  trace (scheduler_step_all step w).2 =
    trace w ++ scheduler_reports step (schedulers (self w)) ∧
  config (self (scheduler_step_all step w).2) = config (self w) ∧
  parameters (self (scheduler_step_all step w).2) = parameters (self w) ∧
  heap (scheduler_step_all step w).2 = heap w ∧
  grad_scaler (scheduler_step_all step w).2 = grad_scaler w ∧
  (∀ g s, (g, s) ∈ schedulers (self w) →
     Dict.get g (schedulers (self (scheduler_step_all step w).2)) =
       Some (stepped_scheduler s) ∧
     Dict.get g (optimizers (self (scheduler_step_all step w).2)) =
       with_lr (stepped_rate s) <$> Dict.get g (optimizers (self w))) ∧
  (∀ g, g ∉ Dict.keys (schedulers (self w)) →
     Dict.get g (schedulers (self (scheduler_step_all step w).2)) = None ∧
     Dict.get g (optimizers (self (scheduler_step_all step w).2)) =
       Dict.get g (optimizers (self w))).
Proof.
  intros Hnd. rewrite scheduler_step_all_eq.
  destruct (scheduler_loop step (schedulers (self w)) w Hnd)
    as (w' & -> & Hc & Hp & Hh & Hsc & _ & _ & Htr & Hin & Hout).
  { intros g s. by apply get_of_elem. }
  cbn [fst snd]. repeat split; try done.
  - by apply Hin.
  - by apply Hin.
  - destruct (Hout g) as [-> _]; [done|]. by apply DictFacts.get_None.
  - by apply Hout.
Qed.

(** *** Loading installs what is loaded *)

Lemma load_optimizers_known loaded w :
  (∀ k, k ∈ Dict.keys loaded → k ∈ Dict.keys (optimizers (self w))) →
  config (self (load_optimizers loaded w).2) = config (self w) ∧
  schedulers (self (load_optimizers loaded w).2) = schedulers (self w) ∧
  parameters (self (load_optimizers loaded w).2) = parameters (self w) ∧
  heap (load_optimizers loaded w).2 = heap w ∧
  trace (load_optimizers loaded w).2 = trace w ++ (ELoadOptimizer <$> Dict.keys loaded).
Proof.
  revert w. induction loaded as [|[k v] loaded IH]; intros w Hin.
  { repeat split; try done. by rewrite app_nil_r. }
  rewrite load_optimizers_cons, keys_cons.
  assert (k ∈ Dict.keys (optimizers (self w))) as Hk
    by (apply Hin; rewrite keys_cons; apply list_elem_of_here).
  apply DictFacts.get_is_Some in Hk as [o ->].
  destruct (IH (emit (ELoadOptimizer k) (mutate_optimizer k (loaded_optimizer v) w).2).2)
    as (-> & -> & -> & -> & ->).
  { intros k' Hk'. rewrite loaded_optimizer_keys.
    apply Hin. rewrite keys_cons. by apply list_elem_of_further. }
  repeat split; try done. cbn. by rewrite <- app_assoc.
Qed.

Lemma load_schedulers_known loaded w :
  (∀ k, k ∈ Dict.keys loaded → k ∈ Dict.keys (schedulers (self w))) →
  config (self (load_schedulers loaded w).2) = config (self w) ∧
  optimizers (self (load_schedulers loaded w).2) = optimizers (self w) ∧
  parameters (self (load_schedulers loaded w).2) = parameters (self w) ∧
  heap (load_schedulers loaded w).2 = heap w ∧
  trace (load_schedulers loaded w).2 = trace w ++ (ELoadScheduler <$> Dict.keys loaded).
Proof.
  revert w. induction loaded as [|[k v] loaded IH]; intros w Hin.
  { repeat split; try done. by rewrite app_nil_r. }
  rewrite load_schedulers_cons, keys_cons.
  assert (k ∈ Dict.keys (schedulers (self w))) as Hk
    by (apply Hin; rewrite keys_cons; apply list_elem_of_here).
  apply DictFacts.get_is_Some in Hk as [o ->].
  destruct (IH (emit (ELoadScheduler k) (mutate_scheduler k (loaded_scheduler v) w).2).2)
    as (-> & -> & -> & -> & ->).
  { intros k' Hk'. rewrite loaded_scheduler_keys.
    apply Hin. rewrite keys_cons. by apply list_elem_of_further. }
  repeat split; try done. cbn. by rewrite <- app_assoc.
Qed.

Lemma load_optimizers_get loaded w k v :
  NoDup (Dict.keys loaded) →
  (∀ k, k ∈ Dict.keys loaded → k ∈ Dict.keys (optimizers (self w))) →
  (k, v) ∈ loaded →
  Dict.get k (optimizers (self (load_optimizers loaded w).2)) =
    loaded_optimizer v <$> Dict.get k (optimizers (self w)).
Proof.
  revert w. induction loaded as [|[k0 v0] loaded IH]; intros w Hnd Hin Hkv;
    [by apply elem_of_nil in Hkv|].
  rewrite keys_cons in Hnd. apply NoDup_cons in Hnd as [Hk0 Hnd].
  rewrite load_optimizers_cons.
  assert (k0 ∈ Dict.keys (optimizers (self w))) as Hk
    by (apply Hin; rewrite keys_cons; apply list_elem_of_here).
  apply DictFacts.get_is_Some in Hk as [o Ho]. rewrite Ho.
  set (w1 := (emit (ELoadOptimizer k0) (mutate_optimizer k0 (loaded_optimizer v0) w).2).2).
  assert (∀ k', k' ∈ Dict.keys loaded → k' ∈ Dict.keys (optimizers (self w1))) as Hin1.
  { intros k' Hk'. unfold w1. rewrite loaded_optimizer_keys.
    apply Hin. rewrite keys_cons. by apply list_elem_of_further. }
  apply elem_of_cons in Hkv as [[= -> ->]|Hkv].
  - destruct (load_optimizers_frame loaded w1) as [_ Hframe].
    rewrite (Hframe k0 Hk0). unfold w1. cbn.
    by rewrite DictFacts.get_alter_eq.
  - rewrite (IH w1 Hnd Hin1 Hkv). unfold w1. cbn.
    rewrite DictFacts.get_alter_ne; [done|].
    intros ->. apply Hk0. by eapply in_dict_keys.
Qed.

Lemma load_schedulers_get loaded w k v :
  NoDup (Dict.keys loaded) →
  (∀ k, k ∈ Dict.keys loaded → k ∈ Dict.keys (schedulers (self w))) →
  (k, v) ∈ loaded →
  Dict.get k (schedulers (self (load_schedulers loaded w).2)) =
    loaded_scheduler v <$> Dict.get k (schedulers (self w)).
Proof.
  revert w. induction loaded as [|[k0 v0] loaded IH]; intros w Hnd Hin Hkv;
    [by apply elem_of_nil in Hkv|].
  rewrite keys_cons in Hnd. apply NoDup_cons in Hnd as [Hk0 Hnd].
  rewrite load_schedulers_cons.
  assert (k0 ∈ Dict.keys (schedulers (self w))) as Hk
    by (apply Hin; rewrite keys_cons; apply list_elem_of_here).
  apply DictFacts.get_is_Some in Hk as [o Ho]. rewrite Ho.
  set (w1 := (emit (ELoadScheduler k0) (mutate_scheduler k0 (loaded_scheduler v0) w).2).2).
  assert (∀ k', k' ∈ Dict.keys loaded → k' ∈ Dict.keys (schedulers (self w1))) as Hin1.
  { intros k' Hk'. unfold w1. rewrite loaded_scheduler_keys.
    apply Hin. rewrite keys_cons. by apply list_elem_of_further. }
  apply elem_of_cons in Hkv as [[= -> ->]|Hkv].
  - destruct (load_schedulers_frame loaded w1) as [_ Hframe].
    rewrite (Hframe k0 Hk0). unfold w1. cbn.
    by rewrite DictFacts.get_alter_eq.
  - rewrite (IH w1 Hnd Hin1 Hkv). unfold w1. cbn.
    rewrite DictFacts.get_alter_ne; [done|].
    intros ->. apply Hk0. by eapply in_dict_keys.
Qed.

(** Loading a state dictionary (its keys are distinct) whose names all
    have an optimizer installs it: afterwards the optimizer of every named
    group holds the loaded hyperparameters and state, on the parameters it
    had, and one [load_state_dict] call was made per name, in order; the
    tensors, the configuration, the schedulers and the parameter lists are
    left as they are.  The same holds of [load_schedulers] and the
    schedulers. *)
Theorem load_state_installs w :
  (∀ loaded,
     NoDup (Dict.keys loaded) →
     (∀ k, k ∈ Dict.keys loaded → k ∈ Dict.keys (optimizers (self w))) →
     (∀ k v, (k, v) ∈ loaded →
        Dict.get k (optimizers (self (load_optimizers loaded w).2)) =
          loaded_optimizer v <$> Dict.get k (optimizers (self w))) ∧
     heap (load_optimizers loaded w).2 = heap w ∧
     schedulers (self (load_optimizers loaded w).2) = schedulers (self w) ∧
     config (self (load_optimizers loaded w).2) = config (self w) ∧
     parameters (self (load_optimizers loaded w).2) = parameters (self w) ∧
     trace (load_optimizers loaded w).2 =
       trace w ++ (ELoadOptimizer <$> Dict.keys loaded)) ∧
  (∀ loaded,
     NoDup (Dict.keys loaded) →
     (∀ k, k ∈ Dict.keys loaded → k ∈ Dict.keys (schedulers (self w))) →
     (∀ k v, (k, v) ∈ loaded →
        Dict.get k (schedulers (self (load_schedulers loaded w).2)) =
          loaded_scheduler v <$> Dict.get k (schedulers (self w))) ∧
     heap (load_schedulers loaded w).2 = heap w ∧
     optimizers (self (load_schedulers loaded w).2) = optimizers (self w) ∧
     config (self (load_schedulers loaded w).2) = config (self w) ∧
     parameters (self (load_schedulers loaded w).2) = parameters (self w) ∧
     trace (load_schedulers loaded w).2 =
       trace w ++ (ELoadScheduler <$> Dict.keys loaded)).
Proof.
  split; intros loaded Hnd Hin.
  - destruct (load_optimizers_known loaded w Hin) as (Hc & Hs & Hp & Hh & Htr).
    repeat split; try done. intros k v. by apply load_optimizers_get.
  - destruct (load_schedulers_known loaded w Hin) as (Hc & Ho & Hp & Hh & Htr).
    repeat split; try done. intros k v. by apply load_schedulers_get.
Qed.

End MethodsInvariants.

(** ** The methods keep the groups *)

Section KeepsGroups.
Context `{Torch}.

Lemma same_groups_refl w : same_groups w w.
Proof. by repeat split. Qed.

Lemma same_groups_trans w1 w2 w3 :
  same_groups w1 w2 → same_groups w2 w3 → same_groups w1 w3.
Proof.
  intros (Hc1 & Hp1 & Ho1 & Hs1 & Hg1) (Hc2 & Hp2 & Ho2 & Hs2 & Hg2).
  unfold same_groups. rewrite Hc2, Hp2, Ho2, Hs2.
  repeat split; try done. intros g. by rewrite Hg2, Hg1.
Qed.

Lemma same_groups_self w w' : self w' = self w → same_groups w w'.
Proof. intros Hs. unfold same_groups. by rewrite Hs. Qed.

Lemma keeps_ret {A} (a : A) : keeps_groups (mret a).
Proof. intros w. apply same_groups_refl. Qed.

Lemma keeps_raise {A} e : keeps_groups (raise (A:=A) e).
Proof. intros w. apply same_groups_refl. Qed.

Lemma keeps_gets {A} (f : world → A) : keeps_groups (gets f).
Proof. intros w. apply same_groups_refl. Qed.

Lemma keeps_lift {A} (r : result A) : keeps_groups (lift r).
Proof. intros w. apply same_groups_refl. Qed.

Lemma keeps_emit e : keeps_groups (emit e).
Proof. intros w. by apply same_groups_self. Qed.

Lemma keeps_set_heap h : keeps_groups (set_heap h).
Proof. intros w. by apply same_groups_self. Qed.

Lemma keeps_set_grad_scaler sc : keeps_groups (set_grad_scaler sc).
Proof. intros w. by apply same_groups_self. Qed.

Lemma keeps_mutate_optimizer g f :
  (∀ o, param_groups (f o) = param_groups o) →
  keeps_groups (mutate_optimizer g f).
Proof.
  intros Hf w. unfold same_groups. cbn. repeat split; try done.
  - apply DictFacts.keys_alter.
  - intros g'. destruct (decide (g = g')) as [<-|Hne].
    + rewrite DictFacts.get_alter_eq.
      destruct (Dict.get g (optimizers (self w))); [|done]. simpl. by rewrite Hf.
    + by rewrite DictFacts.get_alter_ne.
Qed.

Lemma keeps_mutate_scheduler g f : keeps_groups (mutate_scheduler g f).
Proof.
  intros w. unfold same_groups. cbn. repeat split; try done.
  apply DictFacts.keys_alter.
Qed.

Lemma keeps_bind {A B} (m : M world A) (f : A → M world B) :
  keeps_groups m → (∀ a, keeps_groups (f a)) → keeps_groups (m ≫= f).
Proof.
  intros Hm Hf w. rewrite bind_eq. specialize (Hm w).
  destruct (m w) as [[a|e] w1]; cbn [snd] in *; [|done].
  eapply same_groups_trans; [exact Hm | apply Hf].
Qed.

Lemma keeps_for_each {A} (xs : list A) (body : A → M world unit) :
  (∀ x, keeps_groups (body x)) → keeps_groups (for_each xs body).
Proof.
  intros Hbody. induction xs as [|x xs IH]; [apply keeps_ret|].
  apply (keeps_bind (body x) (λ _, for_each xs body)); [apply Hbody | done].
Qed.

Ltac keeps :=
  repeat first
    [ apply keeps_ret | apply keeps_raise | apply keeps_gets | apply keeps_lift
    | apply keeps_emit | apply keeps_set_heap | apply keeps_set_grad_scaler
    | apply keeps_mutate_scheduler
    | apply keeps_mutate_optimizer; intros; reflexivity
    | apply keeps_for_each; intros
    | apply keeps_bind; [|intros]
    | match goal with
      | |- keeps_groups (match ?x with _ => _ end) => destruct x
      end ].

Lemma keeps_call_step g o : keeps_groups (call_step g o).
Proof. unfold call_step. keeps. Qed.

Lemma keeps_call_zero_grad g o : keeps_groups (call_zero_grad g o).
Proof. unfold call_zero_grad. keeps. Qed.

Lemma keeps_call_clip g ps m : keeps_groups (call_clip_grad_norm_ g ps m).
Proof. unfold call_clip_grad_norm_. keeps. Qed.

Lemma keeps_call_unscale g o : keeps_groups (call_unscale_ g o).
Proof. unfold call_unscale_. keeps. Qed.

Lemma keeps_call_scaler_step g o : keeps_groups (call_scaler_step g o).
Proof. unfold call_scaler_step. keeps. Qed.

Lemma keeps_unscale_clip_step g : keeps_groups (unscale_clip_step g).
Proof.
  unfold unscale_clip_step, unscale_and_clip, step_if_grad,
    self_config_max_norm, self_optimizers_getitem, self_parameters_getitem.
  keeps; try first [ apply keeps_call_unscale | apply keeps_call_clip
                   | apply keeps_call_scaler_step ].
Qed.

(** No method adds, removes or renames a group, and none touches the
    configuration or the parameter lists: after every method, however it
    ends, the coordinator has the same configuration and parameter lists,
    the same names with an optimizer and with a scheduler, and every
    optimizer on the parameters it had.  So a coordinator whose groups are
    configured stays one under every sequence of method calls. *)
Theorem methods_keep_groups :
  (∀ g, keeps_groups (optimizer_step g)) ∧
  (∀ g, keeps_groups (scheduler_step g)) ∧
  keeps_groups zero_grad_all ∧
  (∀ names, keeps_groups (zero_grad_some names)) ∧
  keeps_groups optimizer_scaler_step_all ∧
  (∀ names, keeps_groups (optimizer_scaler_step_some names)) ∧
  keeps_groups optimizer_step_all ∧
  (∀ step, keeps_groups (scheduler_step_all step)) ∧
  (∀ loaded, keeps_groups (load_optimizers loaded)) ∧
  (∀ loaded, keeps_groups (load_schedulers loaded)) ∧
  (∀ w w', same_groups w w' →
           coordinator_ok (self w) → coordinator_ok (self w')).
Proof.
  split.
  { intros g. unfold optimizer_step, self_optimizers_getitem.
    keeps; try apply keeps_call_step. }
  split.
  { intros g. unfold scheduler_step, self_schedulers_getitem. keeps. }
  split.
  { unfold zero_grad_all, self_optimizers_getitem. keeps; try apply keeps_call_zero_grad. }
  split.
  { intros names. unfold zero_grad_some, self_optimizers_getitem.
    keeps; try apply keeps_call_zero_grad. }
  split.
  { unfold optimizer_scaler_step_all. keeps; try apply keeps_unscale_clip_step. }
  split.
  { intros names. unfold optimizer_scaler_step_some, self_optimizers_getitem.
    keeps; try apply keeps_unscale_clip_step. }
  split.
  { unfold optimizer_step_all, step_all_body, self_config_max_norm,
      self_optimizers_getitem, self_parameters_getitem.
    keeps; try first [ apply keeps_call_clip | apply keeps_call_step ]. }
  split.
  { intros step. unfold scheduler_step_all, self_schedulers_getitem. keeps. }
  split.
  { intros loaded. unfold load_optimizers, self_optimizers_getitem. keeps. }
  split.
  { intros loaded. unfold load_schedulers, self_schedulers_getitem. keeps. }
  intros w w' (Hc & Hp & Ho & _ & _) Hok g Hg.
  rewrite Hc, Hp. apply Hok. by rewrite <- Ho.
Qed.

Lemma step_all_loop_no_clip names w :
  coordinator_ok (self w) →
  (∀ g, g ∈ names → g ∈ Dict.keys (optimizers (self w))) →
  (∀ g, g ∈ names → max_norm_of (self w) g = None) →
  for_each names step_all_body w = for_each names optimizer_step w ∧
  trace (for_each names step_all_body w).2 = trace w ++ (EStep <$> names).
Proof.
  revert w. induction names as [|n names IH]; intros w Hok Hin Hnone.
  { split; [done|]. by rewrite app_nil_r. }
  assert (n ∈ Dict.keys (optimizers (self w))) as Hn by apply Hin, list_elem_of_here.
  destruct (step_all_body_run n w Hok Hn) as (o & Ho & Hbody).
  rewrite (Hnone n) in Hbody by apply list_elem_of_here.
  assert (optimizer_step n w = call_step n o w) as Hone.
  { unfold optimizer_step.
    by rewrite bind_eq, self_optimizers_getitem_eq, (getitem_Some _ _ _ Ho). }
  rewrite !for_each_cons, Hbody, Hone.
  destruct (call_step_spec n o w) as (w1 & -> & Htr & _ & Hf).
  destruct (IH w1) as [Heq Htr1].
  - by eapply frame_coordinator_ok.
  - intros g Hg. rewrite (frame_keys _ _ _ _ Hf). by apply Hin, list_elem_of_further.
  - intros g Hg. unfold max_norm_of. rewrite (frame_config _ _ _ _ Hf).
    by apply Hnone, list_elem_of_further.
  - split; [exact Heq|].
    by rewrite Htr1, Htr, fmap_cons, <- app_assoc.
Qed.

(** When no group has a maximum norm configured, [optimizer_step_all] is
    [optimizer_step] on every group in the order of [self.optimizers]: it
    makes one [step] call per group and no other. *)
Theorem optimizer_step_all_without_max_norm w :
  coordinator_ok (self w) →
  (∀ g, g ∈ Dict.keys (optimizers (self w)) → max_norm_of (self w) g = None) →
  optimizer_step_all w =
    for_each (Dict.keys (optimizers (self w))) optimizer_step w ∧
  trace (optimizer_step_all w).2 =
    trace w ++ (EStep <$> Dict.keys (optimizers (self w))).
Proof.
  intros Hok Hnone.
  assert (optimizer_step_all w =
          for_each (Dict.keys (optimizers (self w))) step_all_body w) as -> by done.
  by apply step_all_loop_no_clip.
Qed.

End KeepsGroups.

(** ** Witnesses for the further properties of the methods *)

Lemma world_camera_only_ok : coordinator_ok (self world_camera_only).
Proof.
  by apply (init_coordinator_ok (H:=Reference.torch)
              [] [("camera_opt", [2])] _
              [("camera_opt", camera_opt_default)] [camera_opt_warning]).
Qed.

Lemma field_is_group g :
  g ∈ ["field"] → g ∈ Dict.keys (optimizers (self world_two_groups)).
Proof. intros Hg. apply list_elem_of_singleton in Hg as ->. in_keys. Qed.

Lemma optimizer_step_one_group_witness :
  Dict.get "appearance" (optimizers (self world_two_groups)) = None ∧
  optimizer_step "appearance" world_two_groups =
    (Raise (KeyError "appearance"), world_two_groups).
Proof.
  split; [reflexivity|].
  exact (proj1 (optimizer_step_one_group "appearance" world_two_groups) eq_refl).
Defined.

Lemma zero_grad_some_unknown_name_witness :
  ("appearance" ∉ Dict.keys (optimizers (self world_two_groups))) ∧
  zero_grad_some ["field"; "appearance"; "camera_opt"] world_two_groups =
    (Raise (KeyError "appearance"), (zero_grad_some ["field"] world_two_groups).2) ∧
  trace (zero_grad_some ["field"] world_two_groups).2 = [EZeroGrad "field"].
Proof.
  assert ("appearance" ∉ Dict.keys (optimizers (self world_two_groups))) as Hk
    by not_in_keys.
  destruct (zero_grad_some_unknown_name ["field"] "appearance" ["camera_opt"]
              world_two_groups field_is_group Hk) as (Hrun & Htr & _).
  split; [exact Hk|]. split; [exact Hrun | exact Htr].
Defined.

Lemma optimizer_scaler_step_some_unknown_name_witness :
  coordinator_ok (self world_two_groups) ∧
  ("appearance" ∉ Dict.keys (optimizers (self world_two_groups))) ∧
  optimizer_scaler_step_some ["field"; "appearance"; "camera_opt"] world_two_groups =
    (Raise (KeyError "appearance"),
     (optimizer_scaler_step_some ["field"] world_two_groups).2).
Proof.
  assert ("appearance" ∉ Dict.keys (optimizers (self world_two_groups))) as Hk
    by not_in_keys.
  destruct (optimizer_scaler_step_some_unknown_name ["field"] "appearance"
              ["camera_opt"] world_two_groups world_two_groups_ok field_is_group Hk)
    as (_ & Hrun).
  split; [exact world_two_groups_ok|]. split; [exact Hk | exact Hrun].
Defined.

Lemma scaled_turn_calls_witness :
  coordinator_ok (self world_with_grad) ∧
  "field" ∈ Dict.keys (optimizers (self world_with_grad)) ∧
  (unscale_clip_step "field" world_with_grad).1 = Ok tt ∧
  trace (unscale_and_clip "field" world_with_grad).2 =
    [EUnscale "field"; EClip "field" [0; 1] 1].
Proof.
  assert ("field" ∈ Dict.keys (optimizers (self world_with_grad))) as Hg by in_keys.
  destruct (scaled_turn_calls "field" world_with_grad world_with_grad_ok Hg)
    as (Hok & Htr & _).
  split; [exact world_with_grad_ok|]. split; [exact Hg|]. split; [exact Hok|].
  rewrite Htr. reflexivity.
Defined.

Lemma scheduler_step_all_reports_witness :
  NoDup (Dict.keys (schedulers (self world_two_groups))) ∧
  (scheduler_step_all 5 world_two_groups).1 = Ok tt ∧
  trace (scheduler_step_all 5 world_two_groups).2 =
    [ESchedulerStep "camera_opt";
     EPutScalar [Lit "learning_rate/"; FStr "camera_opt"] 1e-3 5].
Proof.
  assert (NoDup (Dict.keys (schedulers (self world_two_groups)))) as Hnd.
  { change (NoDup ["camera_opt"]). apply NoDup_singleton. }
  destruct (scheduler_step_all_reports 5 world_two_groups Hnd) as (Hok & Htr & _).
  split; [exact Hnd|]. split; [exact Hok|]. rewrite Htr. reflexivity.
Defined.

Lemma optimizer_step_all_without_max_norm_witness :
  coordinator_ok (self world_camera_only) ∧
  max_norm_of (self world_camera_only) "camera_opt" = None ∧
  optimizer_step_all world_camera_only =
    for_each ["camera_opt"] optimizer_step world_camera_only ∧
  trace (optimizer_step_all world_camera_only).2 = [EStep "camera_opt"].
Proof.
  assert (∀ g, g ∈ Dict.keys (optimizers (self world_camera_only)) →
               max_norm_of (self world_camera_only) g = None) as Hnone.
  { intros g Hg. change (g ∈ ["camera_opt"]) in Hg.
    apply list_elem_of_singleton in Hg as ->. reflexivity. }
  destruct (optimizer_step_all_without_max_norm world_camera_only
              world_camera_only_ok Hnone) as (Heq & Htr).
  split; [exact world_camera_only_ok|]. split; [reflexivity|].
  split; [exact Heq | exact Htr].
Defined.

Lemma load_state_installs_witness :
  NoDup (Dict.keys checkpoint_field_only) ∧
  Dict.get "field"
    (optimizers (self (load_optimizers (H:=Reference.torch) checkpoint_field_only
                         world_two_groups).2)) =
    loaded_optimizer (H:=Reference.torch) checkpoint_state <$>
      Dict.get "field" (optimizers (self world_two_groups)) ∧
  heap (load_optimizers (H:=Reference.torch) checkpoint_field_only world_two_groups).2 =
    heap world_two_groups.
Proof.
  assert (NoDup (Dict.keys checkpoint_field_only)) as Hnd.
  { change (NoDup ["field"]). apply NoDup_singleton. }
  destruct (load_state_installs world_two_groups) as [Hopt _].
  destruct (Hopt checkpoint_field_only Hnd field_is_group) as (Hget & Hh & _).
  split; [exact Hnd|]. split; [|exact Hh].
  apply Hget. apply list_elem_of_here.
Defined.
